(** * UCCA annotation graph and transition-based parser state

    A shallow embedding of [core.py] (Passage / Layer / Node / Edge and the
    frozen-passage guard) and of [parser/config.py] (the parser's
    Configuration, its transient nodes and edges, and the topological sort
    that orders them), followed by the properties established about them.

    Python objects are kept in explicit object stores and referred to by
    their address, so that identity, aliasing and in-place mutation are the
    ones of the source.  Methods are computations in a state-and-exception
    monad: a raised exception leaves the mutations done before it in place. *)

From stdpp Require Import base option list gmap strings sorting.

Open Scope string_scope.
Open Scope list_scope.
Open Scope nat_scope.

(** ** Exceptions, and the monad of methods *)

Inductive exn : Type :=
  | FrozenPassageError
  | DuplicateIdError
  | MissingNodeError
  | KeyError
  | ValueError
  | IndexError
  | AttributeError
  | TypeError
  | AssertionError (msg : string)
  | RecursionError
  | InvalidAction
  | NoSuchObject   (* a reference that was never allocated: no Python value *)
  | OutOfFuel.     (* the bound given to a loop of the model was too small *)

Definition M (S A : Type) : Type := S → (exn + A) * S.

Definition ret {S A} (a : A) : M S A := λ s, (inr a, s).
Definition raise {S A} (e : exn) : M S A := λ s, (inl e, s).
Definition bind {S A B} (m : M S A) (k : A → M S B) : M S B :=
  λ s, match m s with
       | (inl e, s') => (inl e, s')
       | (inr a, s') => k a s'
       end.
Definition gets {S A} (f : S → A) : M S A := λ s, (inr (f s), s).
Definition modify {S} (f : S → S) : M S unit := λ s, (inr tt, f s).
Definition lift {S A} (e : exn) (o : option A) : M S A :=
  match o with Some a => ret a | None => raise e end.
(** [try ... except e1: raise e2] *)
Definition reraise {S A} (e1 e2 : exn) `{EqDecision exn} (m : M S A) : M S A :=
  λ s, match m s with
       | (inl e, s') => (inl (if decide (e = e1) then e2 else e), s')
       | r => r
       end.

Declare Scope monad_scope.
Delimit Scope monad_scope with monad.
Notation "x <- m ;; k" := (bind m (λ x, k))
  (at level 100, m at next level, right associativity) : monad_scope.
Notation "m ;;; k" := (bind m (λ _, k))
  (at level 100, right associativity) : monad_scope.
Open Scope monad_scope.

Global Instance exn_eq_dec : EqDecision exn.
Proof. solve_decision. Defined.

(** ** Python list primitives *)

(** [l.remove(x)]: drops the first occurrence, [ValueError] without one. *)
Fixpoint list_remove {A} `{EqDecision A} (x : A) (l : list A) : option (list A) :=
  match l with
  | [] => None
  | y :: l' => if decide (y = x) then Some l'
               else cons y <$> list_remove x l'
  end.

(** [sorted(l, key=key)] and [l.sort(key=key)]: a stable sort; an element is
    placed before the first one of a strictly larger key. *)
Section sorting.
Context {A K : Type} (le : K → K → bool) (key : A → K).

Fixpoint insert_by (x : A) (l : list A) : list A :=
  match l with
  | [] => [x]
  | y :: l' => if le (key x) (key y) then x :: y :: l'
               else y :: insert_by x l'
  end.

Fixpoint sort_by (l : list A) : list A :=
  match l with
  | [] => []
  | x :: l' => insert_by x (sort_by l')
  end.
End sorting.

(** ** core.py *)

Module core.

Definition UNIQUE_ID_MAX_DIGITS : nat := 5.

Abbreviation NodeRef := nat.
Abbreviation EdgeRef := nat.

(** A Node's ID is "<layer ID>.<unique ID>"; it is kept split at the
    separator, as [ID.split(Node.ID_SEPARATOR)] returns it. *)
Record NodeID := mkID { id_layer : string; id_unique : string }.

Global Instance NodeID_eq_dec : EqDecision NodeID.
Proof. solve_decision. Defined.
Global Instance NodeID_countable : Countable NodeID.
Proof.
  refine (inj_countable' (λ i, (id_layer i, id_unique i))
                         (λ p, mkID p.1 p.2) _).
  by intros [].
Defined.

(** Ordering keys.  A key function of a Layer reads the ID of the node it is
    given, one of a Node the IDs of the two ends of the edge it is given. *)
Definition NodeKey := NodeID → string.
Definition EdgeKey := NodeID → NodeID → string.

Fixpoint spaces (n : nat) : string :=
  match n with 0 => "" | S n' => " " +:+ spaces n' end.

(** ["{:>{}}".format(s, w)] *)
Definition rjust (s : string) (w : nat) : string :=
  spaces (w - String.length s) +:+ s.

Definition id_orderkey : NodeKey :=
  λ i, id_layer i +:+ " " +:+ rjust (id_unique i) UNIQUE_ID_MAX_DIGITS.

Definition edge_id_orderkey : EdgeKey :=
  λ p c, id_orderkey p +:+ "->" +:+ id_orderkey c.

Record Edge := mkEdge {
  Edge_tag : string;
  Edge_parent : NodeRef;
  Edge_child : NodeRef;
  Edge_attrib : gmap string string }.

Record Node := mkNode {
  Node_ID : NodeID;
  Node_tag : string;
  Node_attrib : gmap string string;
  Node_outgoing : list EdgeRef;
  Node_incoming : list EdgeRef;
  Node_orderkey : EdgeKey }.

Record Layer := mkLayer {
  Layer_attrib : gmap string string;
  Layer__all : list NodeRef;
  Layer__heads : list NodeRef;
  Layer_orderkey : NodeKey }.

(** The Passage with the objects it owns: the two dictionaries of the source
    ([_layers] by layer ID, [_nodes] by node ID) and the stores of the Node
    and Edge objects created for it.  A Layer is identified by its ID: a
    Passage never holds two Layers of one ID and never drops one. *)
Record Passage := mkPassage {
  Passage_ID : string;
  Passage_attrib : gmap string string;
  frozen : bool;
  Passage__layers : gmap string Layer;
  Passage__nodes : gmap NodeID NodeRef;
  node_objs : list Node;
  edge_objs : list Edge }.

Definition set_frozen (b : bool) (p : Passage) : Passage :=
  mkPassage (Passage_ID p) (Passage_attrib p) b (Passage__layers p)
            (Passage__nodes p) (node_objs p) (edge_objs p).
Definition set_attrib (a : gmap string string) (p : Passage) : Passage :=
  mkPassage (Passage_ID p) a (frozen p) (Passage__layers p)
            (Passage__nodes p) (node_objs p) (edge_objs p).
Definition set_layers (ls : gmap string Layer) (p : Passage) : Passage :=
  mkPassage (Passage_ID p) (Passage_attrib p) (frozen p) ls
            (Passage__nodes p) (node_objs p) (edge_objs p).
Definition set_nodes (ns : gmap NodeID NodeRef) (p : Passage) : Passage :=
  mkPassage (Passage_ID p) (Passage_attrib p) (frozen p) (Passage__layers p)
            ns (node_objs p) (edge_objs p).
Definition set_node_objs (ns : list Node) (p : Passage) : Passage :=
  mkPassage (Passage_ID p) (Passage_attrib p) (frozen p) (Passage__layers p)
            (Passage__nodes p) ns (edge_objs p).
Definition set_edge_objs (es : list Edge) (p : Passage) : Passage :=
  mkPassage (Passage_ID p) (Passage_attrib p) (frozen p) (Passage__layers p)
            (Passage__nodes p) (node_objs p) es.

Definition with_outgoing (l : list EdgeRef) (n : Node) : Node :=
  mkNode (Node_ID n) (Node_tag n) (Node_attrib n) l (Node_incoming n)
         (Node_orderkey n).
Definition with_incoming (l : list EdgeRef) (n : Node) : Node :=
  mkNode (Node_ID n) (Node_tag n) (Node_attrib n) (Node_outgoing n) l
         (Node_orderkey n).
Definition with_node_orderkey (k : EdgeKey) (n : Node) : Node :=
  mkNode (Node_ID n) (Node_tag n) (Node_attrib n) (Node_outgoing n)
         (Node_incoming n) k.
Definition with_node_attrib (a : gmap string string) (n : Node) : Node :=
  mkNode (Node_ID n) (Node_tag n) a (Node_outgoing n) (Node_incoming n)
         (Node_orderkey n).
Definition with_edge_attrib (a : gmap string string) (e : Edge) : Edge :=
  mkEdge (Edge_tag e) (Edge_parent e) (Edge_child e) a.
Definition with_all (l : list NodeRef) (y : Layer) : Layer :=
  mkLayer (Layer_attrib y) l (Layer__heads y) (Layer_orderkey y).
Definition with_heads (l : list NodeRef) (y : Layer) : Layer :=
  mkLayer (Layer_attrib y) (Layer__all y) l (Layer_orderkey y).
Definition with_layer_orderkey (k : NodeKey) (y : Layer) : Layer :=
  mkLayer (Layer_attrib y) (Layer__all y) (Layer__heads y) k.
Definition with_layer_attrib (a : gmap string string) (y : Layer) : Layer :=
  mkLayer a (Layer__all y) (Layer__heads y) (Layer_orderkey y).

(** *** Access to the objects *)

Definition the_node (r : NodeRef) : M Passage Node :=
  λ p, lift NoSuchObject (node_objs p !! r) p.
Definition the_edge (r : EdgeRef) : M Passage Edge :=
  λ p, lift NoSuchObject (edge_objs p !! r) p.
Definition the_layer (ID : string) : M Passage Layer :=
  λ p, lift NoSuchObject (Passage__layers p !! ID) p.

Definition update_node (r : NodeRef) (f : Node → Node) : M Passage unit :=
  n <- the_node r ;;
  modify (λ p, set_node_objs (<[r := f n]> (node_objs p)) p).
Definition update_layer (ID : string) (f : Layer → Layer) : M Passage unit :=
  y <- the_layer ID ;;
  modify (λ p, set_layers (<[ID := f y]> (Passage__layers p)) p).

(** The key of a stored edge, for sorting adjacency lists. *)
Definition edge_sortkey (p : Passage) (k : EdgeKey) (e : EdgeRef) : string :=
  match edge_objs p !! e with
  | Some ed =>
      match node_objs p !! Edge_parent ed, node_objs p !! Edge_child ed with
      | Some a, Some b => k (Node_ID a) (Node_ID b)
      | _, _ => ""
      end
  | None => ""
  end.
Definition node_sortkey (p : Passage) (k : NodeKey) (r : NodeRef) : string :=
  match node_objs p !! r with
  | Some n => k (Node_ID n)
  | None => ""
  end.

Definition sort_edges (k : EdgeKey) (l : list EdgeRef) : M Passage (list EdgeRef) :=
  gets (λ p, sort_by String.leb (edge_sortkey p k) l).
Definition sort_nodes (k : NodeKey) (l : list NodeRef) : M Passage (list NodeRef) :=
  gets (λ p, sort_by String.leb (node_sortkey p k) l).

(** *** ModifyPassage *)

(** The decorator: the frozen flag of the Passage is checked first; the
    result of the decorated function is dropped. *)
Definition ModifyPassage {A} (fn : M Passage A) : M Passage unit :=
  λ p, if frozen p then raise FrozenPassageError p
       else (fn ;;; ret tt) p.

(** *** _AttributeDict *)

(** The element an attribute dictionary belongs to. *)
Inductive Element : Type :=
  | ThePassage
  | TheLayer (ID : string)
  | TheNode (r : NodeRef)
  | TheEdge (r : EdgeRef).

Definition AttributeDict__dict (el : Element) : M Passage (gmap string string) :=
  match el with
  | ThePassage => gets Passage_attrib
  | TheLayer ID => y <- the_layer ID ;; ret (Layer_attrib y)
  | TheNode r => n <- the_node r ;; ret (Node_attrib n)
  | TheEdge r => e <- the_edge r ;; ret (Edge_attrib e)
  end.

Definition AttributeDict__set_dict (el : Element) (d : gmap string string)
  : M Passage unit :=
  match el with
  | ThePassage => modify (set_attrib d)
  | TheLayer ID => update_layer ID (with_layer_attrib d)
  | TheNode r => update_node r (with_node_attrib d)
  | TheEdge r =>
      e <- the_edge r ;;
      modify (λ p, set_edge_objs (<[r := with_edge_attrib d e]> (edge_objs p)) p)
  end.

Definition AttributeDict___getitem__ (el : Element) (key : string)
  : M Passage string :=
  d <- AttributeDict__dict el ;;
  lift KeyError (d !! key).

Definition AttributeDict_get (el : Element) (key : string)
  (default : option string) : M Passage (option string) :=
  d <- AttributeDict__dict el ;;
  ret (match d !! key with Some v => Some v | None => default end).

Definition AttributeDict_copy (el : Element) : M Passage (gmap string string) :=
  AttributeDict__dict el.

Definition AttributeDict___len__ (el : Element) : M Passage nat :=
  d <- AttributeDict__dict el ;; ret (size d).

Definition AttributeDict___setitem__ (el : Element) (key value : string)
  : M Passage unit :=
  ModifyPassage (
    d <- AttributeDict__dict el ;;
    AttributeDict__set_dict el (<[key := value]> d)).

Definition AttributeDict___delitem__ (el : Element) (key : string)
  : M Passage unit :=
  ModifyPassage (
    d <- AttributeDict__dict el ;;
    match d !! key with
    | Some _ => AttributeDict__set_dict el (delete key d)
    | None => raise KeyError
    end).

(** *** Passage *)

Definition emp : gmap string string := ∅.

Definition Passage___init__ (ID : string) (attrib : option (gmap string string))
  : Passage :=
  mkPassage ID (default emp attrib) false ∅ ∅ [] [].

(** [passage.layer(ID)]: the Layer of that ID, which is identified by it. *)
Definition Passage_layer (ID : string) : M Passage string :=
  λ p, match Passage__layers p !! ID with
       | Some _ => ret ID p
       | None => raise KeyError p
       end.

Definition Passage__add_layer (ID : string) (y : Layer) : M Passage unit :=
  ModifyPassage (
    ls <- gets Passage__layers ;;
    match ls !! ID with
    | Some _ => raise DuplicateIdError
    | None => modify (set_layers (<[ID := y]> ls))
    end).

Definition Passage__add_node (r : NodeRef) : M Passage unit :=
  ModifyPassage (
    n <- the_node r ;;
    ns <- gets Passage__nodes ;;
    match ns !! Node_ID n with
    | Some _ => raise DuplicateIdError
    | None => modify (set_nodes (<[Node_ID n := r]> ns))
    end).

Definition Passage__remove_node (r : NodeRef) : M Passage unit :=
  n <- the_node r ;;
  ns <- gets Passage__nodes ;;
  match ns !! Node_ID n with
  | Some _ => modify (set_nodes (delete (Node_ID n) ns))
  | None => raise KeyError
  end.

(** [passage.frozen = value]: [frozen] is a plain public attribute of the
    Passage, assigned in [__init__]; the class has no method that sets it,
    and a caller assigns [True] or [False] to it alike. *)
Definition Passage_set_frozen (value : bool) : M Passage unit :=
  modify (set_frozen value).

(** *** Edge *)

Definition Edge___init__ (tag : string) (parent child : NodeRef)
  (attrib : option (gmap string string)) : M Passage EdgeRef :=
  fr <- gets frozen ;;
  if fr : bool then raise FrozenPassageError
  else
    r <- gets (λ p, length (edge_objs p)) ;;
    modify (λ p, set_edge_objs
                   (edge_objs p ++ [mkEdge tag parent child (default emp attrib)]) p) ;;;
    ret r.

(** *** Layer *)

Definition Layer__add_edge (self : string) (edge : EdgeRef) : M Passage unit :=
  e <- the_edge edge ;;
  y <- the_layer self ;;
  (if decide (Edge_child e ∈ Layer__heads y)
   then update_layer self
          (with_heads (default (Layer__heads y)
                         (list_remove (Edge_child e) (Layer__heads y))))
   else ret tt) ;;;
  y <- the_layer self ;;
  l <- sort_nodes (Layer_orderkey y) (Layer__all y) ;;
  update_layer self (with_all l) ;;;
  h <- sort_nodes (Layer_orderkey y) (Layer__heads y) ;;
  update_layer self (with_heads h).

(** [self.layer]: the Layer named by the first part of the node's ID. *)
Definition Node_layer (self : NodeRef) : M Passage string :=
  n <- the_node self ;;
  Passage_layer (id_layer (Node_ID n)).

Definition Node_parents (self : NodeRef) : M Passage (list NodeRef) :=
  n <- the_node self ;;
  λ p, lift NoSuchObject
         (mapM (λ e, Edge_parent <$> edge_objs p !! e) (Node_incoming n)) p.

Definition Node_children (self : NodeRef) : M Passage (list NodeRef) :=
  n <- the_node self ;;
  λ p, lift NoSuchObject
         (mapM (λ e, Edge_child <$> edge_objs p !! e) (Node_outgoing n)) p.

(** [all(p.layer != child.layer for p in child.parents)], left to right and
    stopping at the first parent in the child's layer. *)
Fixpoint all_other_layer (child : NodeRef) (ps : list NodeRef) : M Passage bool :=
  match ps with
  | [] => ret true
  | q :: ps' =>
      lq <- Node_layer q ;;
      lc <- Node_layer child ;;
      if decide (lq = lc) then ret false else all_other_layer child ps'
  end.

Definition Layer__remove_edge (self : string) (edge : EdgeRef) : M Passage unit :=
  e <- the_edge edge ;;
  ps <- Node_parents (Edge_child e) ;;
  b <- all_other_layer (Edge_child e) ps ;;
  (if b : bool then
     y <- the_layer self ;;
     update_layer self (with_heads (Layer__heads y ++ [Edge_child e])) ;;;
     y <- the_layer self ;;
     h <- sort_nodes (Layer_orderkey y) (Layer__heads y) ;;
     update_layer self (with_heads h)
   else ret tt) ;;;
  y <- the_layer self ;;
  l <- sort_nodes (Layer_orderkey y) (Layer__all y) ;;
  update_layer self (with_all l) ;;;
  h <- sort_nodes (Layer_orderkey y) (Layer__heads y) ;;
  update_layer self (with_heads h).

Definition Layer__add_node (self : string) (node : NodeRef) : M Passage unit :=
  y <- the_layer self ;;
  update_layer self (with_all (Layer__all y ++ [node])) ;;;
  y <- the_layer self ;;
  l <- sort_nodes (Layer_orderkey y) (Layer__all y) ;;
  update_layer self (with_all l) ;;;
  y <- the_layer self ;;
  update_layer self (with_heads (Layer__heads y ++ [node])) ;;;
  y <- the_layer self ;;
  h <- sort_nodes (Layer_orderkey y) (Layer__heads y) ;;
  update_layer self (with_heads h).

Definition Layer__remove_node (self : string) (node : NodeRef) : M Passage unit :=
  y <- the_layer self ;;
  l <- lift ValueError (list_remove node (Layer__all y)) ;;
  update_layer self (with_all l) ;;;
  y <- the_layer self ;;
  h <- lift ValueError (list_remove node (Layer__heads y)) ;;
  update_layer self (with_heads h).

Definition Layer___init__ (ID : string) (attrib : option (gmap string string))
  (orderkey : NodeKey) : M Passage string :=
  fr <- gets frozen ;;
  if fr : bool then raise FrozenPassageError
  else
    Passage__add_layer ID (mkLayer (default emp attrib) [] [] orderkey) ;;;
    ret ID.

(** The properties [all] and [heads]: the contents of a new list. *)
Definition Layer_all (self : string) : M Passage (list NodeRef) :=
  y <- the_layer self ;; ret (Layer__all y).
Definition Layer_heads (self : string) : M Passage (list NodeRef) :=
  y <- the_layer self ;; ret (Layer__heads y).

Definition Layer_set_orderkey (self : string) (value : NodeKey) : M Passage unit :=
  update_layer self (with_layer_orderkey value) ;;;
  y <- the_layer self ;;
  l <- sort_nodes value (Layer__all y) ;;
  update_layer self (with_all l) ;;;
  h <- sort_nodes value (Layer__heads y) ;;
  update_layer self (with_heads h).

(** *** Node *)

Definition Node___init__ (ID : NodeID) (tag : string)
  (attrib : option (gmap string string)) (orderkey : EdgeKey)
  : M Passage NodeRef :=
  fr <- gets frozen ;;
  if fr : bool then raise FrozenPassageError
  else
    r <- gets (λ p, length (node_objs p)) ;;
    modify (λ p, set_node_objs
                   (node_objs p ++ [mkNode ID tag (default emp attrib) [] [] orderkey]) p) ;;;
    Passage__add_node r ;;;
    y <- Node_layer r ;;
    y' <- Passage_layer y ;;
    Layer__add_node y' r ;;;
    ret r.

Definition Node___len__ (self : NodeRef) : M Passage nat :=
  n <- the_node self ;; ret (length (Node_outgoing n)).

Definition Node___getitem__ (self : NodeRef) (index : nat) : M Passage EdgeRef :=
  n <- the_node self ;; lift IndexError (Node_outgoing n !! index).

Definition Node_add (self : NodeRef) (edge_tag : string) (node : NodeRef)
  (edge_attrib : option (gmap string string)) : M Passage unit :=
  ModifyPassage (
    edge <- Edge___init__ edge_tag self node edge_attrib ;;
    n <- the_node self ;;
    update_node self (with_outgoing (Node_outgoing n ++ [edge])) ;;;
    n <- the_node self ;;
    l <- sort_edges (Node_orderkey n) (Node_outgoing n) ;;
    update_node self (with_outgoing l) ;;;
    c <- the_node node ;;
    update_node node (with_incoming (Node_incoming c ++ [edge])) ;;;
    c <- the_node node ;;
    l <- sort_edges (Node_orderkey c) (Node_incoming c) ;;
    update_node node (with_incoming l) ;;;
    y1 <- Node_layer self ;;
    y2 <- Node_layer node ;;
    if decide (y1 = y2) then Layer__add_edge y1 edge else ret tt).

(** [edge_or_node] is an Edge ([inl]) or a Node ([inr]).  An Edge that is not
    in [self._outgoing] is looked for among the children, where no Node
    equals it. *)
Definition Node_remove (self : NodeRef) (edge_or_node : EdgeRef + NodeRef)
  : M Passage unit :=
  ModifyPassage (
    n <- the_node self ;;
    edge <- match edge_or_node with
            | inl e =>
                if decide (e ∈ Node_outgoing n) then ret e
                else raise MissingNodeError
            | inr c =>
                cs <- Node_children self ;;
                match filter (λ ec, ec.2 = c) (zip (Node_outgoing n) cs) with
                | ec :: _ => ret ec.1
                | [] => raise MissingNodeError
                end
            end ;;
    reraise ValueError MissingNodeError (
      n <- the_node self ;;
      l <- lift ValueError (list_remove edge (Node_outgoing n)) ;;
      update_node self (with_outgoing l) ;;;
      e <- the_edge edge ;;
      c <- the_node (Edge_child e) ;;
      l <- lift ValueError (list_remove edge (Node_incoming c)) ;;
      update_node (Edge_child e) (with_incoming l) ;;;
      y1 <- Node_layer self ;;
      y2 <- Node_layer (Edge_child e) ;;
      if decide (y1 = y2) then Layer__remove_edge y1 edge else ret tt)).

Definition Node_set_orderkey (self : NodeRef) (value : EdgeKey) : M Passage unit :=
  update_node self (with_node_orderkey value) ;;;
  n <- the_node self ;;
  l <- sort_edges value (Node_outgoing n) ;;
  update_node self (with_outgoing l).

(** [for edge in self._outgoing: self.remove(edge)].  The list is the one the
    body shrinks: the iterator holds a position [i] in it and stops when the
    position is past its current end. *)
Fixpoint destroy_outgoing (fuel : nat) (self : NodeRef) (i : nat) : M Passage unit :=
  match fuel with
  | 0 => raise OutOfFuel
  | S fuel' =>
      n <- the_node self ;;
      match Node_outgoing n !! i with
      | None => ret tt
      | Some edge =>
          Node_remove self (inl edge) ;;;
          destroy_outgoing fuel' self (S i)
      end
  end.

(** [for edge in self._incoming: edge.parent.remove(edge)] *)
Fixpoint destroy_incoming (fuel : nat) (self : NodeRef) (i : nat) : M Passage unit :=
  match fuel with
  | 0 => raise OutOfFuel
  | S fuel' =>
      n <- the_node self ;;
      match Node_incoming n !! i with
      | None => ret tt
      | Some edge =>
          e <- the_edge edge ;;
          Node_remove (Edge_parent e) (inl edge) ;;;
          destroy_incoming fuel' self (S i)
      end
  end.

Definition Node_destroy (self : NodeRef) : M Passage unit :=
  ModifyPassage (
    n <- the_node self ;;
    destroy_outgoing (S (length (Node_outgoing n))) self 0 ;;;
    n <- the_node self ;;
    destroy_incoming (S (length (Node_incoming n))) self 0 ;;;
    y <- Node_layer self ;;
    Layer__remove_node y self ;;;
    Passage__remove_node self).

End core.

(** ** parser/config.py *)

Module config.

(** Monadic iteration over a Python list. *)
Fixpoint mapM' {S A B} (f : A → M S B) (l : list A) : M S (list B) :=
  match l with
  | [] => ret []
  | x :: l' => y <- f x ;; ys <- mapM' f l' ;; ret (y :: ys)
  end.

Fixpoint forM_ {S A} (l : list A) (f : A → M S unit) : M S unit :=
  match l with
  | [] => ret tt
  | x :: l' => f x ;;; forM_ l' f
  end.

Definition assert {S} (b : bool) (msg : string) : M S unit :=
  if b then ret tt else raise (AssertionError msg).

(** Truth value of a string or [None]. *)
Definition truthy (t : option string) : bool :=
  match t with
  | Some s => negb (bool_decide (s = ""))
  | None => false
  end.

(** A transient edge.  [parent] and [child] are the addresses of Node
    objects in the store of the Configuration; [eid] is the identity of the
    Edge object itself, which [in] and [==] on lists test before [__eq__]. *)
Record Edge := mkEdge {
  parent : nat;
  child : nat;
  tag : option string;
  remote : bool;
  eid : nat }.

(** A transient node.  [node_id] is the ID of the original node, kept split
    at "."; [node_index] is its second part.  [node] is the address of the
    core.Node made for it in the final Passage. *)
Record Node := mkNode {
  index : nat;
  text : option string;
  node_id : option (string * nat);
  outgoing : list Edge;
  incoming : list Edge;
  node : option nat }.

Definition node_index (n : Node) : option nat := snd <$> node_id n.

Definition Node___init__ (index : nat) (text : option string)
  (node_id : option (string * nat)) : Node :=
  mkNode index text node_id [] [] None.

Definition with_outgoing (l : list Edge) (n : Node) : Node :=
  mkNode (index n) (text n) (node_id n) l (incoming n) (node n).
Definition with_incoming (l : list Edge) (n : Node) : Node :=
  mkNode (index n) (text n) (node_id n) (outgoing n) l (node n).
Definition with_node (r : option nat) (n : Node) : Node :=
  mkNode (index n) (text n) (node_id n) (outgoing n) (incoming n) r.

(** *** Equality of transient nodes and edges

    [Node.__eq__] compares the texts and the outgoing edge lists,
    [Edge.__eq__] the children, the tags and the remote flags: the
    comparison descends along outgoing edges.  [depth] bounds the descent;
    [None] is the interpreter giving up (RecursionError). *)

Definition Edge_eq_with (node_eq : nat → nat → option bool) (e1 e2 : Edge)
  : option bool :=
  match node_eq (child e1) (child e2) with
  | Some true =>
      Some (bool_decide (tag e1 = tag e2) && bool_decide (remote e1 = remote e2))
  | r => r
  end.

(** [l1 == l2] on lists: lengths first, then the items in turn, identical
    items being equal without a call of [__eq__]. *)
Fixpoint items_eq (eq : Edge → Edge → option bool) (l1 l2 : list Edge)
  : option bool :=
  match l1, l2 with
  | [], [] => Some true
  | x :: l1', y :: l2' =>
      if decide (eid x = eid y) then items_eq eq l1' l2'
      else match eq x y with
           | Some true => items_eq eq l1' l2'
           | r => r
           end
  | _, _ => Some false
  end.

Definition list_eq (eq : Edge → Edge → option bool) (l1 l2 : list Edge)
  : option bool :=
  if decide (length l1 = length l2) then items_eq eq l1 l2 else Some false.

Fixpoint Node___eq__ (depth : nat) (h : list Node) (a b : nat) : option bool :=
  match depth with
  | 0 => None
  | S d =>
      match h !! a, h !! b with
      | Some na, Some nb =>
          if decide (text na = text nb)
          then list_eq (Edge_eq_with (Node___eq__ d h)) (outgoing na) (outgoing nb)
          else Some false
      | _, _ => None
      end
  end.

Definition Edge___eq__ (depth : nat) (h : list Node) (e1 e2 : Edge) : option bool :=
  Edge_eq_with (Node___eq__ depth h) e1 e2.

(** [x in l] for an Edge [x]. *)
Fixpoint Edge_in (depth : nat) (h : list Node) (x : Edge) (l : list Edge)
  : option bool :=
  match l with
  | [] => Some false
  | y :: l' =>
      if decide (eid y = eid x) then Some true
      else match Edge___eq__ depth h y x with
           | Some false => Edge_in depth h x l'
           | r => r
           end
  end.

(** *** Configuration *)

Record Action := mkAction {
  Action_type : string;
  Action_tag : option string;
  Action_node_id : option (string * nat) }.

(** [objs] is the store of the Node objects, by address; [nodes], [stack]
    and [buffer] hold addresses, in the order of the Python lists (the top
    of the stack is its last item, the head of the buffer its first). *)
Record Configuration := mkConfiguration {
  objs : list Node;
  next_eid : nat;
  nodes : list nat;
  tokens : list (list string);
  root_id : option (string * nat);
  buffer : list nat;
  stack : list nat;
  root : nat;
  passage_id : string }.

Definition set_objs (h : list Node) (c : Configuration) : Configuration :=
  mkConfiguration h (next_eid c) (nodes c) (tokens c) (root_id c) (buffer c)
                  (stack c) (root c) (passage_id c).
Definition set_next_eid (k : nat) (c : Configuration) : Configuration :=
  mkConfiguration (objs c) k (nodes c) (tokens c) (root_id c) (buffer c)
                  (stack c) (root c) (passage_id c).
Definition set_nodes (l : list nat) (c : Configuration) : Configuration :=
  mkConfiguration (objs c) (next_eid c) l (tokens c) (root_id c) (buffer c)
                  (stack c) (root c) (passage_id c).
Definition set_buffer (l : list nat) (c : Configuration) : Configuration :=
  mkConfiguration (objs c) (next_eid c) (nodes c) (tokens c) (root_id c) l
                  (stack c) (root c) (passage_id c).
Definition set_stack (l : list nat) (c : Configuration) : Configuration :=
  mkConfiguration (objs c) (next_eid c) (nodes c) (tokens c) (root_id c)
                  (buffer c) l (root c) (passage_id c).
Definition set_root (r : nat) (c : Configuration) : Configuration :=
  mkConfiguration (objs c) (next_eid c) (nodes c) (tokens c) (root_id c)
                  (buffer c) (stack c) r (passage_id c).

Definition the (r : nat) : M Configuration Node :=
  λ c, lift NoSuchObject (objs c !! r) c.
Definition update (r : nat) (f : Node → Node) : M Configuration unit :=
  n <- the r ;;
  modify (λ c, set_objs (<[r := f n]> (objs c)) c).

(** [Edge(parent, child, tag, remote)]: a new Edge object. *)
Definition Edge___init__ (parent child : nat) (tag : option string)
  (remote : bool) : M Configuration Edge :=
  k <- gets next_eid ;;
  modify (set_next_eid (S k)) ;;;
  ret (mkEdge parent child tag remote k).

Definition Node_ne (depth : nat) (a b : nat) : M Configuration bool :=
  h <- gets objs ;;
  b <- lift RecursionError (Node___eq__ depth h a b) ;;
  ret (negb b).

Definition Edge_not_in (depth : nat) (x : Edge) (l : list Edge)
  : M Configuration bool :=
  h <- gets objs ;;
  b <- lift RecursionError (Edge_in depth h x l) ;;
  ret (negb b).

(** [str(node)] is a string: [Node.__str__] returns
    [self.text or self.node_id or self.index], and [str] raises TypeError
    when that is the index, an int. *)
Definition has_str (n : Node) : bool :=
  truthy (text n) || bool_decide (is_Some (node_id n)).

(** [print("    " + str(self))]: [Edge.__str__] formats the parent, the tag
    and the child with [%s].  The line printed is not kept. *)
Definition Edge_print (self : Edge) : M Configuration unit :=
  p <- the (parent self) ;;
  c <- the (child self) ;;
  if has_str p && has_str c then ret tt else raise TypeError.

Definition Edge_add (depth : nat) (self : Edge) : M Configuration unit :=
  assert (bool_decide (is_Some (tag self))) "No tag given for new edge" ;;;
  b <- Node_ne depth (parent self) (child self) ;;
  assert b "Trying to create self-loop edge" ;;;
  p <- the (parent self) ;;
  b <- Edge_not_in depth self (outgoing p) ;;
  assert b "Trying to create edge twice" ;;;
  c <- the (child self) ;;
  b <- Edge_not_in depth self (incoming c) ;;
  assert b "Trying to create edge twice" ;;;
  p <- the (parent self) ;;
  update (parent self) (with_outgoing (outgoing p ++ [self])) ;;;
  c <- the (child self) ;;
  update (child self) (with_incoming (incoming c ++ [self])) ;;;
  Edge_print self.

Definition add_node (node_id : option (string * nat)) : M Configuration nat :=
  k <- gets (λ c, length (nodes c)) ;;
  r <- gets (λ c, length (objs c)) ;;
  modify (λ c, set_objs (objs c ++ [Node___init__ k None node_id]) c) ;;;
  modify (λ c, set_nodes (nodes c ++ [r]) c) ;;;
  ret r.

(** The items of a string when it is iterated: its characters. *)
Fixpoint characters (s : string) : list string :=
  match s with
  | EmptyString => []
  | String a s' => String a EmptyString :: characters s'
  end.

(** Created from plain text: a list of paragraphs, each a list of tokens.
    [self.tokens] is then the flat list of the tokens, each of which
    [passage] iterates as a paragraph. *)
Definition Configuration___init__ (passage : list (list string))
  (passage_id : string) : Configuration :=
  let toks := concat passage in
  let c := mkConfiguration
             (imap (λ i x, Node___init__ i (Some x) None) toks) 0
             (seq 0 (length toks)) (characters <$> toks) None
             (seq 0 (length toks)) [] 0 passage_id in
  match add_node None c with
  | (inr r, c') => set_root r c'
  | (inl _, c') => c'
  end.

(** A Terminal of layer 0 of a gold Passage, as [__init__] reads it: its
    text, its ID (kept split at ".") and its paragraph. *)
Record GoldTerminal := mkGoldTerminal {
  gold_text : string;
  gold_ID : string * nat;
  gold_paragraph : nat }.

(** [groupby(l, key=attrgetter('paragraph'))]: the runs of items of one
    paragraph. *)
Fixpoint groupby (l : list GoldTerminal) : list (list GoldTerminal) :=
  match l with
  | [] => []
  | x :: l' =>
      match groupby l' with
      | (y :: g) :: gs =>
          if decide (gold_paragraph x = gold_paragraph y)
          then (x :: y :: g) :: gs
          else [x] :: (y :: g) :: gs
      | gs => [x] :: gs
      end
  end.

(** Created from a gold Passage, during training.  [terminals] is what
    [passage.layer(layer0.LAYER_ID).all] holds, and [ROOT_ID] the constant
    of [oracle]; the nodes carry the IDs of the gold nodes, and
    [self.tokens] is the list of the paragraphs. *)
Definition Configuration___init__gold (ROOT_ID : string * nat)
  (terminals : list GoldTerminal) (passage_id : string) : Configuration :=
  let c := mkConfiguration
             (imap (λ i x, Node___init__ i (Some (gold_text x)) (Some (gold_ID x)))
                   terminals) 0
             (seq 0 (length terminals))
             (map (map gold_text) (groupby terminals)) (Some ROOT_ID)
             (seq 0 (length terminals)) [] 0 passage_id in
  match add_node (Some ROOT_ID) c with
  | (inr r, c') => set_root r c'
  | (inl _, c') => c'
  end.

(** [set(self.stack).intersection(self.buffer)] is not empty: two items of
    one hash, which is the index, that are identical or equal. *)
Definition same_item (depth : nat) (a b : nat) : M Configuration bool :=
  na <- the a ;;
  nb <- the b ;;
  if decide (index na = index nb) then
    if decide (a = b) then ret true
    else h <- gets objs ;; lift RecursionError (Node___eq__ depth h a b)
  else ret false.

Fixpoint anyM {S A} (f : A → M S bool) (l : list A) : M S bool :=
  match l with
  | [] => ret false
  | x :: l' => b <- f x ;; if b : bool then ret true else anyM f l'
  end.

Definition overlap (depth : nat) : M Configuration bool :=
  st <- gets stack ;;
  bf <- gets buffer ;;
  anyM (λ b, anyM (λ s, same_item depth s b) st) bf.

(** [l.pop()] and [l.pop(-2)] *)
Definition pop_last (l : list nat) : option (nat * list nat) :=
  match reverse l with
  | x :: r => Some (x, reverse r)
  | [] => None
  end.
Definition pop_second_last (l : list nat) : option (nat * list nat) :=
  match reverse l with
  | x :: y :: r => Some (y, reverse r ++ [x])
  | _ => None
  end.

Definition stack_top : M Configuration nat :=
  st <- gets stack ;; lift IndexError (last st).
Definition buffer_head : M Configuration nat :=
  bf <- gets buffer ;; lift IndexError (head bf).
Definition stack_pop : M Configuration nat :=
  st <- gets stack ;;
  xr <- lift IndexError (pop_last st) ;;
  modify (set_stack xr.2) ;;;
  ret xr.1.

Definition apply_action (depth : nat) (action : Action) : M Configuration bool :=
  let ty := Action_type action in
  if decide (ty = "FINISH") then ret false
  else
    (if decide (ty = "NODE") then
       parent <- add_node (Action_node_id action) ;;
       b <- buffer_head ;;
       e <- Edge___init__ parent b (Action_tag action) false ;;
       Edge_add depth e ;;;
       modify (λ c, set_stack (stack c ++ [parent]) c)
     else if decide (ty = "EDGE") then
       s <- stack_top ;;
       b <- buffer_head ;;
       e <- Edge___init__ s b (Action_tag action) false ;;
       Edge_add depth e
     else if decide (ty = "REMOTE") then
       s <- stack_top ;;
       b <- buffer_head ;;
       e <- Edge___init__ s b (Action_tag action) true ;;
       Edge_add depth e
     else if decide (ty = "ROOT") then
       r <- gets root ;;
       s <- stack_pop ;;
       e <- Edge___init__ r s (Action_tag action) false ;;
       Edge_add depth e
     else if decide (ty = "REDUCE") then
       stack_pop ;;; ret tt
     else if decide (ty = "SHIFT") then
       bf <- gets buffer ;;
       match bf with
       | [] => raise IndexError
       | x :: bf' =>
           modify (set_buffer bf') ;;;
           modify (λ c, set_stack (stack c ++ [x]) c)
       end
     else if decide (ty = "SWAP") then
       st <- gets stack ;;
       xr <- lift IndexError (pop_second_last st) ;;
       modify (set_stack (xr.2 ++ [xr.1]))
     else if decide (ty = "WRAP") then
       st <- gets stack ;;
       modify (set_buffer st) ;;;
       modify (set_stack [])
     else raise InvalidAction) ;;;
    b <- overlap depth ;;
    assert (negb b) "Stack and buffer overlap" ;;;
    ret true.

(** *** topological_sort *)

(** The [while stack:] loop.  [stack] is the work list with its top first;
    [level_by_index] and [levels] are the two dictionaries. *)
Definition index_of (h : list Node) (r : nat) : option nat := index <$> h !! r.

Definition levels_append (level : nat) (r : nat) (levels : gmap nat (list nat))
  : gmap nat (list nat) :=
  <[level := default [] (levels !! level) ++ [r]]> levels.

(** [parent.index not in level_by_index] *)
Definition unexplored (h : list Node) (level_by_index : gmap nat nat) (q : nat)
  : bool :=
  match index_of h q with
  | Some i => bool_decide (level_by_index !! i = None)
  | None => false
  end.

Fixpoint assign_levels (fuel : nat) (h : list Node) (stack : list nat)
  (level_by_index : gmap nat nat) (levels : gmap nat (list nat))
  : exn + (gmap nat nat * gmap nat (list nat)) :=
  match fuel with
  | 0 => inl OutOfFuel
  | S fuel' =>
      match stack with
      | [] => inr (level_by_index, levels)
      | r :: stack' =>
          match h !! r with
          | None => inl NoSuchObject
          | Some nd =>
              match level_by_index !! index nd with
              | Some _ => assign_levels fuel' h stack' level_by_index levels
              | None =>
                  match mapM (λ e, index_of h (parent e)) (incoming nd) with
                  | None => inl NoSuchObject
                  | Some [] =>
                      assign_levels fuel' h stack'
                        (<[index nd := 0]> level_by_index)
                        (levels_append 0 r levels)
                  | Some pis =>
                      let parents := parent <$> incoming nd in
                      let unexplored_parents :=
                        filter (λ q, unexplored h level_by_index q = true)
                               parents in
                      match unexplored_parents with
                      | _ :: _ =>
                          assign_levels fuel' h
                            (foldl (λ st q, q :: r :: st) stack' unexplored_parents)
                            level_by_index levels
                      | [] =>
                          let level :=
                            1 + max_list (omap (λ i, level_by_index !! i) pis) in
                          assign_levels fuel' h stack'
                            (<[index nd := level]> level_by_index)
                            (levels_append level r levels)
                      end
                  end
              end
          end
      end
  end.

(** [x.node_index or x.index] *)
Definition order_key (n : Node) : nat :=
  match node_index n with
  | Some (S k) => S k
  | _ => index n
  end.

(** The new [self.nodes]: the levels in increasing order, each one sorted. *)
Definition emission (h : list Node) (levels : gmap nat (list nat)) : list nat :=
  concat ((λ kv, sort_by Nat.leb (λ r, default 0 (order_key <$> h !! r)) kv.2)
            <$> sort_by Nat.leb fst (map_to_list levels)).

(** [self.nodes.index(x)] *)
Fixpoint list_index (depth : nat) (h : list Node) (l : list nat) (x : nat)
  (pos : nat) : exn + nat :=
  match l with
  | [] => inl ValueError
  | y :: l' =>
      if decide (y = x) then inr pos
      else match Node___eq__ depth h y x with
           | None => inl RecursionError
           | Some true => inr pos
           | Some false => list_index depth h l' x (S pos)
           end
  end.

(** [x.child.node_index or self.nodes.index(x.child)], [q] being that end. *)
Definition edge_key (depth : nat) (q : nat) : M Configuration nat :=
  n <- the q ;;
  match node_index n with
  | Some (S k) => ret (S k)
  | _ => λ c, match list_index depth (objs c) (nodes c) q 0 with
              | inl e => raise e c
              | inr i => ret i c
              end
  end.

(** [l.sort(key=...)]: the keys are computed first. *)
Definition sort_edges (depth : nat) (end_ : Edge → nat) (l : list Edge)
  : M Configuration (list Edge) :=
  ks <- mapM' (λ e, edge_key depth (end_ e)) l ;;
  ret (snd <$> sort_by Nat.leb fst (zip ks l)).

(** [not node.outgoing] *)
Definition no_outgoing (h : list Node) (r : nat) : bool :=
  match h !! r with
  | Some n => match outgoing n with [] => true | _ :: _ => false end
  | None => false
  end.

Definition topological_sort (fuel depth : nat) : M Configuration unit :=
  h <- gets objs ;;
  ns <- gets nodes ;;
  let stack := reverse (filter (λ r, no_outgoing h r = true) ns) in
  match assign_levels fuel h stack ∅ ∅ with
  | inl e => raise e
  | inr (_, levels) =>
      modify (set_nodes (emission h levels)) ;;;
      ns <- gets nodes ;;
      forM_ ns (λ r,
        n <- the r ;;
        l <- sort_edges depth child (outgoing n) ;;
        update r (with_outgoing l) ;;;
        n <- the r ;;
        l <- sort_edges depth parent (incoming n) ;;
        update r (with_incoming l))
  end.

(** *** passage: the final Passage

    The Passage is built by [convert.from_text] and the classes of [layer0]
    and [layer1], which [passage] calls; they are an interface here.  Nodes
    of the Passage are addresses; [None] is Python's [None].  [core_add] is
    what [core.Node.add] does to the Passage; the call itself returns
    [None], as [ModifyPassage] drops the result of the method. *)

Record Builder (P : Type) := mkBuilder {
  from_text : list string → string → exn + P;
  layer0_all : P → list nat;          (* passage.layer(layer0.LAYER_ID).all *)
  Layer1 : M P unit;                   (* layer1.Layer1(passage) *)
  add_fnode : option nat → option string → M P nat;
  add_punct : option nat → nat → M P nat;
  add_linkage : option nat → list (option nat) → M P nat;
  core_add : nat → option string → option nat → bool → M P unit;
                                        (* node.add(tag, child, edge_attrib) *)
  first_child : nat → M P nat;        (* node[0].child *)
  is_punct : P → nat → bool;          (* layer0.is_punct *)
  set_remarks : option nat → string * nat → M P unit;
  Terminal : string;
  Punctuation : string;
  LinkRelation : string;
  LinkArgument : string }.

Arguments from_text {P}. Arguments layer0_all {P}. Arguments Layer1 {P}.
Arguments add_fnode {P}. Arguments add_punct {P}. Arguments add_linkage {P}.
Arguments core_add {P}. Arguments first_child {P}. Arguments is_punct {P}.
Arguments set_remarks {P}. Arguments Terminal {P}. Arguments Punctuation {P}.
Arguments LinkRelation {P}. Arguments LinkArgument {P}.

Section passage.
Context {P : Type} (B : Builder P).

Definition onC {A} (m : M Configuration A) : M (Configuration * P) A :=
  λ s, match m s.1 with (r, c) => (r, (c, s.2)) end.
Definition onP {A} (m : M P A) : M (Configuration * P) A :=
  λ s, match m s.2 with (r, p) => (r, (s.1, p)) end.

Definition is_linkage (n : Node) : bool :=
  match outgoing n with
  | [] => false
  | es => forallb (λ e, bool_decide (tag e = Some (LinkRelation B))
                        || bool_decide (tag e = Some (LinkArgument B))) es
  end.

Definition remark (self : nat) : M (Configuration * P) unit :=
  s <- onC (the self) ;;
  match node s, node_id s with
  | Some r, Some i => onP (set_remarks B (Some r) i)
  | _, _ => ret tt
  end.

Definition add_layer1_node (self parent : nat) (tag : option string)
  (terminals : list nat) : M (Configuration * P) unit :=
  s <- onC (the self) ;;
  assert (bool_decide (node s = None) || truthy (text s))
         "Trying to create the same node twice" ;;;
  pn <- onC (the parent) ;;
  let fnode : M (Configuration * P) unit :=
    r <- onP (add_fnode B (node pn) tag) ;;
    onC (update self (with_node (Some r))) in
  (if truthy (text s) then
     match node s with
     | None =>
         (* [parent.node.add(Terminal, terminals[self.index]).child]: the
            edge is added, [add] returns [None], and [None] has no
            attribute [child] *)
         pr <- lift AttributeError (node pn) ;;
         t <- lift IndexError (terminals !! index s) ;;
         onP (core_add B pr (Some (Terminal B)) (Some t) false) ;;;
         raise AttributeError
     | Some _ => ret tt
     end
   else
     match outgoing s with
     | [e0] =>
         c0 <- onC (the (child e0)) ;;
         if truthy (text c0) then
           t <- lift IndexError (terminals !! index c0) ;;
           p <- gets snd ;;
           if is_punct B p t then
             assert (bool_decide (tag = Some (Punctuation B))) "" ;;;
             assert (bool_decide (config.tag e0 = Some (Terminal B))) "" ;;;
             r <- onP (add_punct B (node pn) t) ;;
             onC (update self (with_node (Some r))) ;;;
             ch <- onP (first_child B r) ;;
             onC (update (child e0) (with_node (Some ch)))
           else fnode
         else fnode
     | _ => fnode
     end) ;;;
  remark self.

(** The first loop over [self.nodes]; [remotes] and [linkages] are its two
    work lists. *)
Fixpoint primary (depth : nat) (terminals : list nat) (ns : list nat)
  (remotes : list (nat * Edge)) (linkages : list nat)
  : M (Configuration * P) (list (nat * Edge) * list nat) :=
  match ns with
  | [] => ret (remotes, linkages)
  | r :: ns' =>
      n <- onC (the r) ;;
      assert (truthy (text n) || negb (bool_decide (outgoing n = [] :> list Edge)))
             "Non-terminal leaf node" ;;;
      ok <- match node n with
            | Some _ => ret true
            | None =>
                h <- gets (λ s, objs s.1) ;;
                rt <- gets (λ s, root s.1) ;;
                eq <- lift RecursionError (Node___eq__ depth h r rt) ;;
                ret (eq || is_linkage n)
            end ;;
      assert ok "Non-root without incoming" ;;;
      if is_linkage n then primary depth terminals ns' remotes (linkages ++ [r])
      else
        rs <- (fix edges (es : list Edge) (remotes : list (nat * Edge)) :=
                 match es with
                 | [] => ret remotes
                 | e :: es' =>
                     if remote e then edges es' (remotes ++ [(r, e)])
                     else add_layer1_node (child e) r (tag e) terminals ;;;
                          edges es' remotes
                 end) (outgoing n) remotes ;;
        primary depth terminals ns' rs linkages
  end.

Definition add_remote (ne : nat * Edge) : M (Configuration * P) unit :=
  n <- onC (the ne.1) ;;
  c <- onC (the (child ne.2)) ;;
  pr <- lift AttributeError (node n) ;;
  onP (core_add B pr (tag ne.2) (node c) true).

Fixpoint link_edges (es : list Edge) (link_relation : option nat)
  (link_args : list (option nat))
  : M (Configuration * P) (option nat * list (option nat)) :=
  match es with
  | [] => ret (link_relation, link_args)
  | e :: es' =>
      c <- onC (the (child e)) ;;
      if decide (tag e = Some (LinkRelation B)) then
        assert (bool_decide (link_relation = None)) "Multiple link relations" ;;;
        link_edges es' (node c) link_args
      else if decide (tag e = Some (LinkArgument B)) then
        link_edges es' link_relation (link_args ++ [node c])
      else link_edges es' link_relation link_args
  end.

Definition add_linkage_node (r : nat) : M (Configuration * P) unit :=
  n <- onC (the r) ;;
  ra <- link_edges (outgoing n) None [] ;;
  assert (bool_decide (is_Some ra.1)) "No link relations" ;;;
  assert (bool_decide (1 < length ra.2)) "Less than two link arguments" ;;;
  k <- onP (add_linkage B ra.1 ra.2) ;;
  onC (update r (with_node (Some k))) ;;;
  n <- onC (the r) ;;
  match node_id n with
  | Some i => onP (set_remarks B (Some k) i)
  | None => ret tt
  end.

Definition passage_body (fuel depth : nat) : M (Configuration * P) unit :=
  terminals <- gets (λ s, layer0_all B s.2) ;;
  onP (Layer1 B) ;;;
  rt <- gets (λ s, root s.1) ;;
  rn <- onC (the rt) ;;
  match node_id rn with
  | Some _ =>
      (* [passage.nodes[ROOT_ID]]: a [core.Passage] has no attribute
         [nodes] *)
      raise AttributeError
  | None => ret tt
  end ;;;
  onC (topological_sort fuel depth) ;;;
  ns <- gets (λ s, nodes s.1) ;;
  rl <- primary depth terminals ns [] [] ;;
  forM_ rl.1 add_remote ;;;
  forM_ rl.2 add_linkage_node.

Definition passage (fuel depth : nat) : M Configuration P :=
  λ c, match from_text B (String.concat " " <$> tokens c) (passage_id c) with
       | inl e => (inl e, c)
       | inr p =>
           match passage_body fuel depth (c, p) with
           | (inl e, s) => (inl e, s.1)
           | (inr _, s) => (inr s.2, s.1)
           end
       end.
End passage.

End config.

(** ** A builder of the final Passage *)

Module builder.

(** Modelled from the spec: the text-to-graph builder and the layer-1
    constructors that [passage] calls ([convert.from_text], [layer0],
    [layer1]), which are not in the sources at hand.  Following sections 4.4
    and 6 of the specification: [from_text] makes one layer-0 terminal per
    token, in paragraph and token order; a non-terminal unit is made under
    its parent with the tag of the edge; a punctuation unit wraps one
    terminal; a linkage refers to its relation and arguments; remote edges
    are flagged.  Terminals are the addresses below [length texts], units
    the ones above.  [core_add] records the edge that [core.Node.add] makes
    and, like it, returns nothing. *)
Record Persisted := mkPersisted {
  ID : string;
  texts : list string;
  has_layer1 : bool;
  units : list (option string);
  edges : list (option nat * option string * option nat * bool);
  remarks : list (option nat * (string * nat)) }.

(** Modelled from the spec: tokens are the parts between blanks. *)
Fixpoint words (acc : string) (s : string) : list string :=
  match s with
  | EmptyString => if decide (acc = "") then [] else [acc]
  | String a s' =>
      if decide (String a EmptyString = " ")
      then (if decide (acc = "") then [] else [acc]) ++ words "" s'
      else words (acc +:+ String a EmptyString) s'
  end.

(** Modelled from the spec: a token is punctuation when it is not empty and
    all of its characters are punctuation marks. *)
Definition punctuation_marks : list string :=
  [","; "."; ";"; ":"; "!"; "?"; "("; ")"; "-"].
Fixpoint all_marks (s : string) : bool :=
  match s with
  | EmptyString => true
  | String a s' => bool_decide (String a EmptyString ∈ punctuation_marks) && all_marks s'
  end.

Definition new_unit (tag : option string) (parent : option nat)
  (etag : option string) : M Persisted nat :=
  r <- gets (λ p, length (texts p) + length (units p)) ;;
  modify (λ p, mkPersisted (ID p) (texts p) (has_layer1 p) (units p ++ [tag])
                 (edges p ++ [(parent, etag, Some r, false)]) (remarks p)) ;;;
  ret r.

Definition new_edge (parent : option nat) (tag : option string)
  (child : option nat) (remote : bool) : M Persisted unit :=
  modify (λ p, mkPersisted (ID p) (texts p) (has_layer1 p) (units p)
                 (edges p ++ [(parent, tag, child, remote)]) (remarks p)).

Fixpoint new_edges (parent : option nat) (tag : option string)
  (children : list (option nat)) : M Persisted unit :=
  match children with
  | [] => ret tt
  | c :: cs => new_edge parent tag c false ;;; new_edges parent tag cs
  end.

Definition simple : config.Builder Persisted :=
  {| config.from_text := λ paragraphs ID,
       inr (mkPersisted ID (concat (words "" <$> paragraphs)) false [] [] []);
     config.layer0_all := λ p, seq 0 (length (texts p));
     config.Layer1 :=
       modify (λ p, mkPersisted (ID p) (texts p) true (units p) (edges p)
                      (remarks p));
     config.add_fnode := λ parent tag, new_unit tag parent tag;
     config.add_punct := λ parent t,
       r <- new_unit (Some "U") parent (Some "U") ;;
       new_edge (Some r) (Some "Terminal") (Some t) false ;;;
       ret r;
     config.add_linkage := λ rel args,
       r <- new_unit (Some "LKG") None None ;;
       new_edge (Some r) (Some "LR") rel false ;;;
       new_edges (Some r) (Some "LA") args ;;;
       ret r;
     config.core_add := λ parent tag child remote,
       new_edge (Some parent) tag child remote;
     config.first_child := λ r,
       es <- gets edges ;;
       match filter (λ e, e.1.1.1 = Some r) es with
       | (_, _, Some c, _) :: _ => ret c
       | _ => raise IndexError
       end;
     config.is_punct := λ p t,
       match texts p !! t with
       | Some s => negb (bool_decide (s = "")) && all_marks s
       | None => false
       end;
     config.set_remarks := λ r i,
       modify (λ p, mkPersisted (ID p) (texts p) (has_layer1 p) (units p)
                      (edges p) (remarks p ++ [(r, i)]));
     config.Terminal := "Terminal";
     config.Punctuation := "U";
     config.LinkRelation := "LR";
     config.LinkArgument := "LA" |}.

End builder.

(** ** Lists as objects

    [core] keeps the lists of a Layer by value.  Here they are objects in a
    store, with the lists a caller holds, to see what a caller can reach:
    [Layer.all] and [Layer.heads] return [self._all[:]] and
    [self._heads[:]], a new list object each. *)

Module listobjects.

Abbreviation Store := (list (list core.NodeRef)).

(** The addresses of the two list objects of a Layer. *)
Record Layer := mkLayer { _all : nat; _heads : nat }.

(** [l[:]] *)
Definition slice_copy (a : nat) : M Store nat :=
  l <- (λ σ, lift NoSuchObject (σ !! a) σ) ;;
  r <- gets length ;;
  modify (λ σ, σ ++ [l]) ;;;
  ret r.

Definition Layer_all (self : Layer) : M Store nat := slice_copy (_all self).
Definition Layer_heads (self : Layer) : M Store nat := slice_copy (_heads self).

(** What a caller does to a list it holds: any change in place ([append],
    [remove], [sort], [clear], item assignment, ...). *)
Definition mutate (a : nat) (f : list core.NodeRef → list core.NodeRef)
  : M Store unit :=
  l <- (λ σ, lift NoSuchObject (σ !! a) σ) ;;
  modify (λ σ, <[a := f l]> σ).

Definition contents (a : nat) : M Store (list core.NodeRef) :=
  λ σ, lift NoSuchObject (σ !! a) σ.

(** A caller reads the property [acc], changes the list it got, and reads
    the property again: the contents of the second list. *)
Definition read_change_read (acc : Layer → M Store nat) (self : Layer)
  (f : list core.NodeRef → list core.NodeRef) : M Store (list core.NodeRef) :=
  a <- acc self ;;
  mutate a f ;;;
  a' <- acc self ;;
  contents a'.

End listobjects.

(** ** The calls of the Graph Store, and the states used as examples *)

Module api.
Import core.

(** The calls that change a Passage or an element of it: the constructors of
    Layer, Node and Edge, [add], [remove] and [destroy] of a Node, and the
    writes of an attribute dictionary. *)
Inductive Mutation : Type :=
  | NewLayer (ID : string) (attrib : option (gmap string string)) (orderkey : NodeKey)
  | NewNode (ID : NodeID) (tag : string) (attrib : option (gmap string string))
            (orderkey : EdgeKey)
  | NewEdge (tag : string) (parent child : NodeRef)
            (attrib : option (gmap string string))
  | Add (self : NodeRef) (edge_tag : string) (node : NodeRef)
        (edge_attrib : option (gmap string string))
  | Remove (self : NodeRef) (edge_or_node : EdgeRef + NodeRef)
  | Destroy (self : NodeRef)
  | SetItem (el : Element) (key value : string)
  | DelItem (el : Element) (key : string).

Definition mutation (m : Mutation) : M Passage unit :=
  match m with
  | NewLayer ID attrib orderkey => Layer___init__ ID attrib orderkey ;;; ret tt
  | NewNode ID tag attrib orderkey => Node___init__ ID tag attrib orderkey ;;; ret tt
  | NewEdge tag parent child attrib => Edge___init__ tag parent child attrib ;;; ret tt
  | Add self edge_tag node edge_attrib => Node_add self edge_tag node edge_attrib
  | Remove self edge_or_node => Node_remove self edge_or_node
  | Destroy self => Node_destroy self
  | SetItem el key value => AttributeDict___setitem__ el key value
  | DelItem el key => AttributeDict___delitem__ el key
  end.

(** All the calls: the mutations, the two [orderkey] setters, the
    assignment of a value to the attribute [frozen], and the reads. *)
Inductive Call : Type :=
  | Mutate (m : Mutation)
  | SetFrozen (value : bool)
  | SetNodeOrderkey (self : NodeRef) (value : EdgeKey)
  | SetLayerOrderkey (self : string) (value : NodeKey)
  | GetItem (el : Element) (key : string)
  | Get (el : Element) (key : string) (default : option string)
  | Len (el : Element)
  | Copy (el : Element)
  | GetLayer (ID : string)
  | All (self : string)
  | Heads (self : string)
  | Parents (self : NodeRef)
  | Children (self : NodeRef)
  | NodeLen (self : NodeRef)
  | NodeItem (self : NodeRef) (index : nat).

Definition call (c : Call) : M Passage unit :=
  match c with
  | Mutate m => mutation m
  | SetFrozen value => Passage_set_frozen value
  | SetNodeOrderkey self value => Node_set_orderkey self value
  | SetLayerOrderkey self value => Layer_set_orderkey self value
  | GetItem el key => AttributeDict___getitem__ el key ;;; ret tt
  | Get el key default => AttributeDict_get el key default ;;; ret tt
  | Len el => AttributeDict___len__ el ;;; ret tt
  | Copy el => AttributeDict_copy el ;;; ret tt
  | GetLayer ID => Passage_layer ID ;;; ret tt
  | All self => Layer_all self ;;; ret tt
  | Heads self => Layer_heads self ;;; ret tt
  | Parents self => Node_parents self ;;; ret tt
  | Children self => Node_children self ;;; ret tt
  | NodeLen self => Node___len__ self ;;; ret tt
  | NodeItem self index => Node___getitem__ self index ;;; ret tt
  end.

(** A sequence of calls, each one made whatever the previous one raised. *)
Fixpoint calls (cs : list Call) (p : Passage) : Passage :=
  match cs with
  | [] => p
  | c :: cs' => calls cs' (call c p).2
  end.

(** *** Heads of a Layer *)

(** The parents of a node, and whether one of them is in the Layer. *)
Definition parents_of (p : Passage) (r : NodeRef) : list NodeRef :=
  match node_objs p !! r with
  | Some n => omap (λ e, Edge_parent <$> edge_objs p !! e) (Node_incoming n)
  | None => []
  end.
Definition children_of (p : Passage) (r : NodeRef) : list NodeRef :=
  match node_objs p !! r with
  | Some n => omap (λ e, Edge_child <$> edge_objs p !! e) (Node_outgoing n)
  | None => []
  end.

(** [heads == { n in all : no parent of n is in the same layer }] *)
Definition heads_invariant (p : Passage) : Prop :=
  ∀ ID y, Passage__layers p !! ID = Some y →
    ∀ r, r ∈ Layer__heads y
         ↔ r ∈ Layer__all y ∧ ∀ q, q ∈ parents_of p r → q ∉ Layer__all y.

(** The same, a parent being in the layer that its ID names, as
    [Layer._remove_edge] decides it. *)
Definition layer_named (p : Passage) (r : NodeRef) : option string :=
  (λ n, id_layer (Node_ID n)) <$> node_objs p !! r.
Definition heads_invariant_by_ID (p : Passage) : Prop :=
  ∀ ID y, Passage__layers p !! ID = Some y →
    ∀ r, r ∈ Layer__heads y
         ↔ r ∈ Layer__all y
           ∧ ∀ q, q ∈ parents_of p r → layer_named p q ≠ Some ID.

(** Every edge in an adjacency list is an allocated Edge object, and every
    end of an Edge an allocated Node. *)
Definition allocated (p : Passage) : Prop :=
  Forall (λ n, Forall (λ e, e < length (edge_objs p))
                      (Node_outgoing n ++ Node_incoming n)) (node_objs p).

(** A computation that changes neither the Node and Edge objects nor the
    frozen flag. *)
Definition keeps_objs {A} (m : M Passage A) : Prop :=
  ∀ p, node_objs (m p).2 = node_objs p
       ∧ edge_objs (m p).2 = edge_objs p
       ∧ frozen (m p).2 = frozen p.

(** *** Example states *)

Definition empty : Passage := Passage___init__ "p" None.

Definition node (unique : string) : M Passage NodeRef :=
  Node___init__ (mkID "1" unique) "t" None edge_id_orderkey.

(** A Passage with Layer "1" and the nodes 1.1, 1.2 and 1.3, at the
    addresses 0, 1 and 2. *)
Definition three_nodes : Passage :=
  ((Layer___init__ "1" None id_orderkey ;;;
    node "1" ;;; node "2" ;;; node "3") empty).2.

(** Node 0 with the two children 1 and 2. *)
Definition two_children : Passage :=
  ((Node_add 0 "A" 1 None ;;; Node_add 0 "B" 2 None) three_nodes).2.

(** Node 2 with the two parents 0 and 1. *)
Definition two_parents : Passage :=
  ((Node_add 0 "A" 2 None ;;; Node_add 1 "B" 2 None) three_nodes).2.

(** Node 0 with one edge to node 1. *)
Definition one_edge : Passage := (Node_add 0 "A" 1 None three_nodes).2.

Definition frozen_example : Passage := set_frozen true one_edge.

End api.

Module examples.
Import config.

Definition NODE (tag : string) : Action := mkAction "NODE" (Some tag) None.
(** NODE as the oracle gives it in training, with the ID of the gold node. *)
Definition NODE_as (tag : string) (node_id : string * nat) : Action :=
  mkAction "NODE" (Some tag) (Some node_id).
Definition EDGE (tag : string) : Action := mkAction "EDGE" (Some tag) None.
Definition ROOT (tag : string) : Action := mkAction "ROOT" (Some tag) None.
Definition SHIFT : Action := mkAction "SHIFT" None None.
Definition FINISH : Action := mkAction "FINISH" None None.

(** The actions in turn, up to the first exception. *)
Fixpoint apply_actions (depth : nat) (l : list Action) : M Configuration bool :=
  match l with
  | [] => ret true
  | a :: l' => apply_action depth a ;;; apply_actions depth l'
  end.

(** One token; the root is node 1. *)
Definition one_token : Configuration := Configuration___init__ [["a"]] "p".

(** Two tokens of the same text; the root is node 2. *)
Definition same_tokens : Configuration :=
  Configuration___init__ [["the"; "the"]] "p".

(** One gold token; the root is node 1, of ID 1.1. *)
Definition gold_token : Configuration :=
  Configuration___init__gold ("1", 1) [mkGoldTerminal "a" ("0", 1) 1] "p".

(** The plain text of one full stop; the root is node 1. *)
Definition full_stop : Configuration := Configuration___init__ [["."]] "p".

(** A unit over the token, attached to the root, FINISH not applied. *)
Definition not_finished : Configuration :=
  (apply_actions 10 [NODE_as "A" ("1", 2); ROOT "C"] gold_token).2.

(** A punctuation unit over the full stop, attached to the root, FINISH not
    applied; the token is still in the buffer.  ROOT has made its edge and
    popped the stack when it raises TypeError, as it does on any
    Configuration made from plain text. *)
Definition stop_not_finished : Configuration :=
  (apply_actions 10 [NODE_as "Terminal" ("1", 2); ROOT "U"] full_stop).2.

End examples.

(** ** Transient graphs *)

Module graph.
Import config.

(** The store [h] holds a graph: a node is at the address that is its
    index, the ends of its edges are in the store, an outgoing edge is among
    the incoming edges of its child, and [rk] grows along every edge, so
    that there is no cycle. *)
Definition node_wf (h : list Node) (rk : nat → nat) (r : nat) (n : Node) : Prop :=
  index n = r
  ∧ Forall (λ e, parent e < length h ∧ rk (parent e) < rk r) (incoming n)
  ∧ Forall (λ e, ∃ m, h !! child e = Some m ∧ r ∈ parent <$> incoming m)
           (outgoing n).

Definition graph_wf (h : list Node) (rk : nat → nat) : Prop :=
  ∀ r n, h !! r = Some n → node_wf h rk r n.

(** [l] is the level of node [r], the levels of its parents being in
    [level_by_index]: 0 without incoming edges, else one more than the
    largest level of a parent. *)
Definition level_ok (h : list Node) (level_by_index : gmap nat nat) (r l : nat)
  : Prop :=
  ∃ n, h !! r = Some n
       ∧ match incoming n with
         | [] => l = 0
         | es => Forall (λ e, is_Some (level_by_index !! parent e)) es
                 ∧ l = 1 + max_list (omap (λ e, level_by_index !! parent e) es)
         end.

(** The two dictionaries of the loop agree: the levels are right, and
    [levels] lists at each level the nodes of that level, once. *)
Definition levels_inv (h : list Node) (level_by_index : gmap nat nat)
  (levels : gmap nat (list nat)) : Prop :=
  (∀ r l, level_by_index !! r = Some l → level_ok h level_by_index r l)
  ∧ (∀ l rs, levels !! l = Some rs →
       NoDup rs ∧ ∀ r, r ∈ rs → level_by_index !! r = Some l)
  ∧ (∀ r l, level_by_index !! r = Some l →
       ∃ rs, levels !! l = Some rs ∧ r ∈ rs).


(** [p] is a parent of [r]. *)
Definition is_parent (h : list Node) (p r : nat) : Prop :=
  ∃ n e, h !! r = Some n ∧ e ∈ incoming n ∧ parent e = p.

(** The node at the top of the work list is given its level, after those of
    its ancestors that have none yet, and the work list is back to what was
    below it: [n] turns of the loop do that. *)
Definition explored (h : list Node) (r : nat) : Prop :=
  ∀ lbi lv, levels_inv h lbi lv →
    ∃ n lbi' lv',
      levels_inv h lbi' lv' ∧ lbi ⊆ lbi' ∧ is_Some (lbi' !! r)
      ∧ ∀ k st, assign_levels (n + k) h (r :: st) lbi lv
                = assign_levels k h st lbi' lv'.

End graph.

Module graph_examples.
Import config examples.

(** The graph of [not_finished]: a unit (address 2) over the token
    (address 0) and under the root (address 1); the depth of each node. *)
Definition unit_over_token : list Node := objs not_finished.
Definition depth_of (r : nat) : nat :=
  match r with 1 => 0 | 2 => 1 | _ => 2 end.

End graph_examples.

(** ** The states of the parser *)

Module invariants.
Import config.

(** Every Node object is at the address that is its index, [self.nodes] has
    one item for each of them, and the stack and the buffer hold Node
    objects, none of them twice. *)
Definition consistent (c : Configuration) : Prop :=
  (∀ r n, objs c !! r = Some n → index n = r)
  ∧ length (nodes c) = length (objs c)
  ∧ NoDup (stack c ++ buffer c)
  ∧ Forall (λ r, r < length (objs c)) (stack c ++ buffer c).

(** What [consistent] reads of a Configuration. *)
Definition shape (c : Configuration) : list nat * nat * list nat * list nat :=
  (index <$> objs c, length (nodes c), stack c, buffer c).

Definition keeps_shape {A} (m : M Configuration A) : Prop :=
  ∀ c, shape (m c).2 = shape c.

(** A computation that does not raise the assertion on the stack and the
    buffer. *)
Definition overlap_error : exn := AssertionError "Stack and buffer overlap".

Definition quiet {A} (m : M Configuration A) : Prop :=
  ∀ c, (m c).1 ≠ inl overlap_error.

(** The actions in turn, each one applied whatever the one before raised. *)
Fixpoint run (depth : nat) (l : list Action) (c : Configuration) : Configuration :=
  match l with
  | [] => c
  | a :: l' => run depth l' (apply_action depth a c).2
  end.

End invariants.

Module parser_examples.
Import config examples invariants.

Definition REDUCE : Action := mkAction "REDUCE" None None.
Definition SWAP : Action := mkAction "SWAP" None None.
Definition WRAP : Action := mkAction "WRAP" None None.

(** Two tokens; both on the stack after two SHIFT actions. *)
Definition two_tokens : Configuration := Configuration___init__ [["a"; "b"]] "p".
Definition two_on_stack : Configuration := run 10 [SHIFT; SHIFT] two_tokens.

(** One token, on the stack: the buffer is empty. *)
Definition shifted : Configuration := run 10 [SHIFT] one_token.

End parser_examples.

(** ** What the finalizer reads *)

Module finalizer.
Import config.

(** The Configuration with another stack and another buffer. *)
Definition restack (st bf : list nat) (c : Configuration) : Configuration :=
  set_stack st (set_buffer bf c).

(** A computation that neither reads nor writes the stack and the buffer:
    with others in their place it gives the same result and makes the same
    changes. *)
Definition blind {A} (m : M Configuration A) : Prop :=
  ∀ st bf c, m (restack st bf c) = ((m c).1, restack st bf (m c).2).

Definition blind2 {P A} (m : M (Configuration * P) A) : Prop :=
  ∀ st bf s,
    m (restack st bf s.1, s.2)
    = ((m s).1, (restack st bf (m s).2.1, (m s).2.2)).

End finalizer.

(** * Properties *)

Ltac munfold :=
  unfold bind, ret, raise, gets, modify, lift in *.

(** ** The monad *)

Lemma bind_inr {S A B} (m : M S A) (k : A → M S B) s a s' :
  m s = (inr a, s') → bind m k s = k a s'.
Proof. intros H. unfold bind. by rewrite H. Qed.

Lemma bind_inl {S A B} (m : M S A) (k : A → M S B) s e s' :
  m s = (inl e, s') → bind m k s = (inl e, s').
Proof. intros H. unfold bind. by rewrite H. Qed.

Section frozen.
Import core api.

(** A frozen Passage: the guard of the decorator fires first. *)
Lemma ModifyPassage_frozen {A} (fn : M Passage A) p :
  frozen p = true → ModifyPassage fn p = (inl FrozenPassageError, p).
Proof. intros Hf. unfold ModifyPassage. by rewrite Hf. Qed.

Lemma mutation_frozen m p :
  frozen p = true → mutation m p = (inl FrozenPassageError, p).
Proof.
  intros Hf.
  destruct m; simpl;
    try (unfold Node_add, Node_remove, Node_destroy,
           AttributeDict___setitem__, AttributeDict___delitem__;
         by apply ModifyPassage_frozen).
  - unfold Layer___init__. munfold. by rewrite Hf.
  - unfold Node___init__. munfold. by rewrite Hf.
  - unfold Edge___init__. munfold. by rewrite Hf.
Qed.
End frozen.

Section frozen_flag.
Import core api.

Ltac crunch :=
  repeat (simpl in *; munfold;
          match goal with
          | |- context [match ?x with _ => _ end] => destruct x eqn:?
          | H : context [match ?x with _ => _ end] |- _ => destruct x eqn:?
          | H : (_, _) = (_, _) |- _ => inversion H; clear H; subst
          end); simpl in *; try done.

Lemma read_or_setter_keeps_frozen c p :
  (∀ m, c ≠ Mutate m) → (∀ v, c ≠ SetFrozen v) → frozen (call c p).2 = frozen p.
Proof.
  intros Hm Hf.
  destruct c; try done; try (by destruct (Hm m)); try (by destruct (Hf value));
    clear Hm Hf;
    unfold call, Node_set_orderkey, Layer_set_orderkey, AttributeDict___getitem__,
      AttributeDict_get, AttributeDict___len__, AttributeDict_copy, Passage_layer,
      Layer_all, Layer_heads, Node_parents, Node_children, Node___len__,
      Node___getitem__, AttributeDict__dict, update_node, update_layer, sort_edges,
      sort_nodes, the_node, the_layer, the_edge;
    try destruct el; crunch.
Qed.

Lemma call_keeps_frozen c p :
  frozen p = true → c ≠ SetFrozen false → frozen (call c p).2 = true.
Proof.
  intros Hf Hc. destruct c;
    try (rewrite read_or_setter_keeps_frozen; [done | done | done]).
  - simpl. by rewrite mutation_frozen.
  - by destruct value.
Qed.

Lemma calls_keep_frozen cs p :
  frozen p = true → Forall (λ c, c ≠ SetFrozen false) cs →
  frozen (calls cs p) = true.
Proof.
  revert p. induction cs as [|c cs IH]; intros p Hf Hcs; [done|].
  apply Forall_cons in Hcs as [Hc Hcs].
  simpl. apply IH; [|done]. by apply call_keeps_frozen.
Qed.
End frozen_flag.

Section graph_store.
Import core api.

(** C2.  On a Passage whose frozen flag is set, every mutating call (the
    constructors of Layer, Node and Edge, add, remove and destroy of a
    Node, setting and deleting an entry of an attribute dictionary, of any
    element) raises FrozenPassageError and leaves the whole state as it
    was; reading an attribute dictionary still works: [get] returns the
    entry or the default, and indexing returns the entry of a present
    key. *)
Theorem C2_frozen_passage_rejects_mutations (p : Passage) (m : Mutation) :
  frozen p = true →
  mutation m p = (inl FrozenPassageError, p)
  ∧ ∀ el d key default,
      AttributeDict__dict el p = (inr d, p) →
      AttributeDict_get el key default p
        = (inr (match d !! key with Some v => Some v | None => default end), p)
      ∧ ∀ v, d !! key = Some v →
             AttributeDict___getitem__ el key p = (inr v, p).
Proof.
  intros Hf. split; [by apply mutation_frozen|].
  intros el d key default Hd. unfold AttributeDict_get, AttributeDict___getitem__.
  unfold bind. rewrite Hd. split; [done|].
  intros v Hv. by rewrite Hv.
Qed.

Lemma C2_witness :
  frozen frozen_example = true
  ∧ mutation (Add 0 "B" 2 None) frozen_example
      = (inl FrozenPassageError, frozen_example).
Proof.
  split; [reflexivity|].
  apply (C2_frozen_passage_rejects_mutations frozen_example (Add 0 "B" 2 None)).
  reflexivity.
Defined.

(** C5, as stated, fails: a frozen Passage is made mutable again.  The
    flag is the attribute [frozen]; assigning False to it clears it, and
    [add] then goes through. *)
Lemma C5_counterexample :
  frozen frozen_example = true
  ∧ frozen (calls [SetFrozen false] frozen_example) = false
  ∧ (mutation (Add 0 "B" 2 None) (calls [SetFrozen false] frozen_example)).1
    = inr tt.
Proof. vm_compute. repeat split; reflexivity. Qed.

(** C5, amended.  Once the attribute [frozen] of a Passage is True, it
    stays True through every sequence of calls (mutations, orderkey
    setters, reads, assigning True again) in which False is not assigned to
    it; and assigning True to it when it is True raises nothing and changes
    nothing. *)
Theorem C5_frozen_until_False_is_assigned (p : Passage) (cs : list Call) :
  frozen p = true →
  Forall (λ c, c ≠ SetFrozen false) cs →
  frozen (calls cs p) = true ∧ Passage_set_frozen true p = (inr tt, p).
Proof.
  intros Hf Hcs. split; [by apply calls_keep_frozen|].
  unfold Passage_set_frozen, modify, set_frozen. destruct p; simpl in *. by subst.
Qed.

Lemma C5_witness :
  frozen frozen_example = true
  ∧ frozen (calls [Mutate (Destroy 0); SetNodeOrderkey 0 edge_id_orderkey;
                   SetFrozen true] frozen_example) = true.
Proof.
  split; [reflexivity|].
  apply (C5_frozen_until_False_is_assigned frozen_example
           [Mutate (Destroy 0); SetNodeOrderkey 0 edge_id_orderkey; SetFrozen true]).
  - reflexivity.
  - repeat constructor; discriminate.
Defined.

(** C3.  [destroy] does not remove every edge of the node.  Node 0 with
    the two children 1 and 2: the call returns normally, and the second
    edge (edge 1, to node 2) is still in the outgoing list of node 0 and in
    the incoming list of node 2, while node 0 has left its Layer and the
    node dictionary of the Passage.  Node 2 with the two parents 0 and 1:
    the call raises ValueError, and the edge from node 1 is still there. *)
Theorem C3_destroy_leaves_edges :
  let r := Node_destroy 0 two_children in
  let r' := Node_destroy 2 two_parents in
  r.1 = inr tt
  ∧ Node_outgoing <$> node_objs r.2 !! 0 = Some [1]
  ∧ Node_incoming <$> node_objs r.2 !! 2 = Some [1]
  ∧ Layer__all <$> Passage__layers r.2 !! "1" = Some [1; 2]
  ∧ Passage__nodes r.2 !! mkID "1" "1" = None
  ∧ r'.1 = inl ValueError
  ∧ Node_outgoing <$> node_objs r'.2 !! 1 = Some [1]
  ∧ Node_incoming <$> node_objs r'.2 !! 2 = Some [1].
Proof. vm_compute. repeat split; reflexivity. Qed.
End graph_store.

Section graph_store_examples.
Import core api.

Ltac in_list :=
  repeat match goal with
         | H : _ ∈ [] |- _ => by inversion H
         | H : _ ∈ _ :: _ |- _ => inversion H; clear H; subst
         end.

(** C1.  The heads of a Layer are not kept equal to the members without a
    parent in the Layer.  After [destroy] of node 0 with the two children
    1 and 2, which returns normally, node 2 is a member whose only parent
    has left the Layer, and it is not a head.  After [destroy] of node 2
    with the two parents 0 and 1, which raises ValueError, and then
    [remove] of node 2 from node 1, node 2 is a head and not a member: the
    invariant fails however "in the same layer" is read. *)
Theorem C1_destroy_breaks_heads :
  let p := (Node_destroy 0 two_children).2 in
  let p' := (Node_remove 1 (inr 2) (Node_destroy 2 two_parents).2).2 in
  ¬ heads_invariant p
  ∧ (Node_remove 1 (inr 2) (Node_destroy 2 two_parents).2).1 = inr tt
  ∧ ¬ heads_invariant p' ∧ ¬ heads_invariant_by_ID p'.
Proof.
  intros p p'.
  assert (parents_of p 2 = [0]) as Hp by (vm_compute; reflexivity).
  split; [|split; [|split]].
  - intros H.
    destruct (Passage__layers p !! "1") as [y|] eqn:E; vm_compute in E; [|done].
    specialize (H "1" y E 2). injection E as <-. simpl in H.
    rewrite Hp in H. clear -H. destruct H as [_ H].
    assert (2 ∈ [1]) as Hin; [|in_list].
    apply H. split; [repeat constructor|]. intros q Hq Hc. in_list.
  - vm_compute. reflexivity.
  - intros H.
    destruct (Passage__layers p' !! "1") as [y|] eqn:E; vm_compute in E; [|done].
    specialize (H "1" y E 2). injection E as <-. simpl in H.
    destruct H as [H _]. destruct H as [H _]; [repeat constructor|].
    clear -H. in_list.
  - intros H.
    destruct (Passage__layers p' !! "1") as [y|] eqn:E; vm_compute in E; [|done].
    specialize (H "1" y E 2). injection E as <-. simpl in H.
    destruct H as [H _]. destruct H as [H _]; [repeat constructor|].
    clear -H. in_list.
Qed.

(** C4, as stated, fails where the node already has an edge to the child:
    node 0 has an edge to node 1; after [add] of a second one and the
    matching [remove], by the child or by the edge made, node 1 is still
    among the children of node 0 and node 0 among the parents of node 1. *)
Lemma C4_counterexample :
  let p1 := (Node_add 0 "B" 1 None one_edge).2 in
  (Node_add 0 "B" 1 None one_edge).1 = inr tt
  ∧ (∀ x, x ∈ [inr 1; inl 1] →
       (Node_remove 0 x p1).1 = inr tt
       ∧ ∃ cs ps, (Node_children 0 (Node_remove 0 x p1).2).1 = inr cs
                  ∧ (Node_parents 1 (Node_remove 0 x p1).2).1 = inr ps
                  ∧ 1 ∈ cs ∧ 0 ∈ ps).
Proof.
  intros p1. split; [vm_compute; reflexivity|].
  intros x Hx.
  assert (x = inr 1 ∨ x = inl 1) as [->| ->] by (clear -Hx; in_list; auto).
  - split; [vm_compute; reflexivity|]. exists [1], [0].
    split; [vm_compute; reflexivity|]. split; [vm_compute; reflexivity|].
    split; constructor.
  - split; [vm_compute; reflexivity|]. exists [1], [0].
    split; [vm_compute; reflexivity|]. split; [vm_compute; reflexivity|].
    split; constructor.
Qed.
End graph_store_examples.

Section list_copies.
Import listobjects.

Lemma slice_copy_Some a (σ : Store) l :
  σ !! a = Some l → slice_copy a σ = (inr (length σ), σ ++ [l]).
Proof. intros H. unfold slice_copy. munfold. simpl. by rewrite H. Qed.

Lemma mutate_Some a f (σ : Store) l :
  σ !! a = Some l → mutate a f σ = (inr tt, <[a := f l]> σ).
Proof. intros H. unfold mutate. munfold. simpl. by rewrite H. Qed.

Lemma read_change_read_copy (field : Layer → nat) (self : Layer) f (σ : Store) l :
  σ !! field self = Some l →
  ∃ σ', read_change_read (λ y, slice_copy (field y)) self f σ = (inr l, σ')
        ∧ ∀ a, a < length σ → σ' !! a = σ !! a.
Proof.
  intros Hl.
  assert (field self < length σ) as Hlt by (by eapply lookup_lt_Some).
  assert ((σ ++ [l]) !! length σ = Some l) as H1.
  { rewrite lookup_app_r by lia. by rewrite Nat.sub_diag. }
  assert (<[length σ := f l]> (σ ++ [l]) !! field self = Some l) as H2.
  { rewrite list_lookup_insert_ne by lia. by rewrite lookup_app_l. }
  unfold read_change_read.
  erewrite bind_inr; [|by apply slice_copy_Some].
  erewrite bind_inr; [|by apply mutate_Some].
  erewrite bind_inr; [|by apply slice_copy_Some].
  eexists. split.
  - unfold contents. rewrite lookup_app_r by done.
    by rewrite Nat.sub_diag.
  - intros a Ha.
    rewrite lookup_app_l by (rewrite length_insert, length_app; lia).
    rewrite list_lookup_insert_ne by lia. by rewrite lookup_app_l.
Qed.

(** C10.  [all] and [heads] of a Layer return a new list: whatever change
    [f] a caller makes to the list it got, the two lists of the Layer (and
    every other list there was) are as before, and the property read
    again gives the contents it gave before. *)
Theorem C10_accessors_return_copies (σ : Store) (self : Layer)
  (f : list core.NodeRef → list core.NodeRef) (la lh : list core.NodeRef) :
  σ !! _all self = Some la →
  σ !! _heads self = Some lh →
  (∃ σ', read_change_read Layer_all self f σ = (inr la, σ')
         ∧ σ' !! _all self = Some la ∧ σ' !! _heads self = Some lh
         ∧ ∀ a, a < length σ → σ' !! a = σ !! a)
  ∧ (∃ σ', read_change_read Layer_heads self f σ = (inr lh, σ')
           ∧ σ' !! _all self = Some la ∧ σ' !! _heads self = Some lh
           ∧ ∀ a, a < length σ → σ' !! a = σ !! a).
Proof.
  intros Ha Hh.
  pose proof (lookup_lt_Some _ _ _ Ha) as Hla.
  pose proof (lookup_lt_Some _ _ _ Hh) as Hlh.
  split.
  - destruct (read_change_read_copy _all self f σ la Ha) as (σ' & Hr & Hs).
    exists σ'. split; [exact Hr|]. rewrite !Hs by done. done.
  - destruct (read_change_read_copy _heads self f σ lh Hh) as (σ' & Hr & Hs).
    exists σ'. split; [exact Hr|]. rewrite !Hs by done. done.
Qed.

Lemma C10_witness :
  let σ := [[1; 2]; [1]] in
  σ !! 0 = Some [1; 2] ∧ σ !! 1 = Some [1]
  ∧ ∃ σ', read_change_read Layer_all (mkLayer 0 1) (λ l, 7 :: l) σ
          = (inr [1; 2], σ').
Proof.
  split; [reflexivity|]. split; [reflexivity|].
  destruct (C10_accessors_return_copies [[1; 2]; [1]] (mkLayer 0 1)
              (λ l, 7 :: l) [1; 2] [1] eq_refl eq_refl)
    as [(σ' & Hr & _) _].
  exists σ'. exact Hr.
Defined.
End list_copies.

Section transition_system.
Import config examples.

Lemma continues_true {A} (m : M Configuration A) depth c b c' :
  (m ;;; b <- overlap depth ;;
         assert (negb b) "Stack and buffer overlap" ;;; ret true) c = (inr b, c') →
  b = true.
Proof.
  unfold bind, assert, ret, raise.
  destruct (m c) as [[e|x] c1]; [done|].
  destruct (overlap depth c1) as [[e|[]] c2]; simpl; congruence.
Qed.

(** FINISH always returns, with False and with the Configuration as it
    was; any other action that returns, returns True. *)
Lemma apply_action_result (depth : nat) (a : Action) (c : Configuration) :
  match apply_action depth a c with
  | (inr b, c') =>
      (b = false ↔ Action_type a = "FINISH")
      ∧ (Action_type a = "FINISH" → c' = c)
  | (inl _, _) => Action_type a ≠ "FINISH"
  end.
Proof.
  unfold apply_action.
  destruct (decide (Action_type a = "FINISH")) as [Hf|Hf]; [done|].
  match goal with |- match ?r with _ => _ end => destruct r as [[e|b] c'] eqn:E end;
    [done|].
  apply continues_true in E as ->. done.
Qed.

(** SHIFT on one token returns True. *)
Example apply_SHIFT : (apply_action 10 SHIFT one_token).1 = inr true.
Proof. vm_compute. reflexivity. Qed.

(** C9.  [apply_action] does not return True for every recognized action
    whose precondition holds.  On a Configuration made from the plain text
    of one token, NODE with a tag finds the token at the head of the
    buffer, makes the node and the edge, and raises TypeError where
    [Edge.add] prints the edge, the new node having neither text nor ID:
    the node is not pushed.  After a NODE that carries an ID, which returns
    True, ROOT with a tag finds that node on the stack, pops it, makes the
    edge from the root and raises TypeError in the same way. *)
Theorem C9_action_raises_TypeError :
  let r := apply_action 10 (NODE "A") one_token in
  let c1 := (apply_action 10 (NODE_as "A" ("1", 1)) one_token).2 in
  let r' := apply_action 10 (ROOT "C") c1 in
  head (buffer one_token) = Some 0
  ∧ r.1 = inl TypeError
  ∧ nodes r.2 = [0; 1; 2]
  ∧ ((λ n, parent <$> incoming n) <$> objs r.2 !! 0) = Some [2]
  ∧ stack r.2 = []
  ∧ (apply_action 10 (NODE_as "A" ("1", 1)) one_token).1 = inr true
  ∧ last (stack c1) = Some 2
  ∧ r'.1 = inl TypeError
  ∧ ((λ n, child <$> outgoing n) <$> objs r'.2 !! 1) = Some [2]
  ∧ stack r'.2 = [].
Proof. vm_compute. repeat split; reflexivity. Qed.

(** C8, as stated, fails: a Configuration to which FINISH was not applied
    is processed.  On the plain text of one full stop, NODE returns True
    and ROOT makes the edge from the root before it raises TypeError; the
    token is still in the buffer, FINISH was not applied, and the final
    Passage is made. *)
Lemma C8_counterexample :
  let c1 := (apply_action 10 (NODE_as "Terminal" ("1", 2)) full_stop).2 in
  Forall (λ a, Action_type a ≠ "FINISH") [NODE_as "Terminal" ("1", 2); ROOT "U"]
  ∧ (apply_action 10 (NODE_as "Terminal" ("1", 2)) full_stop).1 = inr true
  ∧ apply_action 10 (ROOT "U") c1 = (inl TypeError, stop_not_finished)
  ∧ buffer stop_not_finished = [0]
  ∧ ∃ p, (passage builder.simple 20 10 stop_not_finished).1 = inr p.
Proof.
  intros c1. split; [repeat constructor; by vm_compute|].
  split; [vm_compute; reflexivity|].
  split; [vm_compute; reflexivity|].
  split; [vm_compute; reflexivity|].
  eexists. vm_compute. reflexivity.
Qed.

(** C6.  An edge that differs from every edge there is, is refused.  With
    the edge 2 -A-> 0 in place, the edge 3 -A-> 0 from the new node 3 is
    refused as made twice, though no edge has node 3 as its parent.  With
    two tokens of the same text, nodes 0 and 1, the edge 0 -A-> 1 is
    refused as a self-loop. *)
Theorem C6_edge_refused :
  let first := NODE_as "A" ("1", 2) in
  let c := (add_node (Some ("1", 3)) (apply_action 10 first gold_token).2).2 in
  (apply_action 10 first gold_token).1 = inr true
  ∧ Forall (λ n, Forall (λ e, parent e ≠ 3) (outgoing n ++ incoming n)) (objs c)
  ∧ (Edge_add 10 (mkEdge 3 0 (Some "A") false 1) c).1
    = inl (AssertionError "Trying to create edge twice")
  ∧ (apply_actions 10 [first; NODE_as "A" ("1", 3)] gold_token).1
    = inl (AssertionError "Trying to create edge twice")
  ∧ (apply_action 10 SHIFT same_tokens).1 = inr true
  ∧ last (stack (apply_action 10 SHIFT same_tokens).2) = Some 0
  ∧ head (buffer (apply_action 10 SHIFT same_tokens).2) = Some 1
  ∧ (apply_action 10 (EDGE "A") (apply_action 10 SHIFT same_tokens).2).1
    = inl (AssertionError "Trying to create self-loop edge").
Proof.
  intros first c. split; [vm_compute; reflexivity|]. split.
  - vm_compute. repeat constructor; lia.
  - vm_compute. repeat split; reflexivity.
Qed.
End transition_system.

(** ** Lists *)

Section list_facts.
Context {A : Type} `{EqDecision A}.

Lemma list_remove_perm (x : A) l l' : list_remove x l = Some l' → l ≡ₚ x :: l'.
Proof.
  revert l'. induction l as [|y l IH]; intros l' H; simpl in H; [done|].
  destruct (decide (y = x)) as [->|Hne]; [by injection H as ->|].
  destruct (list_remove x l) as [l0|]; simpl in H; [|done].
  injection H as <-. rewrite (IH l0 eq_refl). apply Permutation_swap.
Qed.

Lemma list_remove_elem_of (x : A) l : x ∈ l → is_Some (list_remove x l).
Proof.
  induction l as [|y l IH]; intros H; [by inversion H|]. simpl.
  destruct (decide (y = x)); [by eexists|].
  destruct IH as [l' Hl']; [by inversion H|]. rewrite Hl'. by eexists.
Qed.
End list_facts.

Section sort_facts.
Context {A K : Type} (le : K → K → bool) (key : A → K).

Lemma insert_by_perm x l : insert_by le key x l ≡ₚ x :: l.
Proof.
  induction l as [|y l IH]; simpl; [done|].
  destruct (le (key x) (key y)); [done|].
  rewrite IH. apply Permutation_swap.
Qed.

Lemma sort_by_perm l : sort_by le key l ≡ₚ l.
Proof.
  induction l as [|x l IH]; simpl; [done|].
  by rewrite insert_by_perm, IH.
Qed.
End sort_facts.

(** ** What the Layer bookkeeping leaves alone *)

Section frame.
Import core api.

Lemma keeps_ret {A} (a : A) : keeps_objs (ret a).
Proof. done. Qed.
Lemma keeps_raise {A} e : keeps_objs (raise (A:=A) e).
Proof. done. Qed.
Lemma keeps_gets {A} (f : Passage → A) : keeps_objs (gets f).
Proof. done. Qed.
Lemma keeps_lift {A} e (o : option A) : keeps_objs (lift e o).
Proof. by destruct o. Qed.
Lemma keeps_bind {A B} (m : M Passage A) (k : A → M Passage B) :
  keeps_objs m → (∀ a, keeps_objs (k a)) → keeps_objs (bind m k).
Proof.
  intros Hm Hk p. unfold bind. specialize (Hm p).
  destruct (m p) as [[e|a] p']; simpl in *; [done|].
  destruct (Hk a p') as (-> & -> & ->). done.
Qed.
Lemma keeps_the_node r : keeps_objs (the_node r).
Proof. intros p. unfold the_node. by destruct (node_objs p !! r). Qed.
Lemma keeps_the_edge r : keeps_objs (the_edge r).
Proof. intros p. unfold the_edge. by destruct (edge_objs p !! r). Qed.
Lemma keeps_the_layer ID : keeps_objs (the_layer ID).
Proof. intros p. unfold the_layer. by destruct (Passage__layers p !! ID). Qed.
Lemma keeps_update_layer ID f : keeps_objs (update_layer ID f).
Proof.
  apply keeps_bind; [apply keeps_the_layer|]. intros y p. done.
Qed.
Lemma keeps_sort_nodes k l : keeps_objs (sort_nodes k l).
Proof. done. Qed.
Lemma keeps_Passage_layer ID : keeps_objs (Passage_layer ID).
Proof. intros p. unfold Passage_layer. by destruct (Passage__layers p !! ID). Qed.
Lemma keeps_Node_layer r : keeps_objs (Node_layer r).
Proof.
  apply keeps_bind; [apply keeps_the_node|]. intros. apply keeps_Passage_layer.
Qed.
Lemma keeps_Node_parents r : keeps_objs (Node_parents r).
Proof.
  apply keeps_bind; [apply keeps_the_node|]. intros n p.
  by destruct (mapM _ _).
Qed.
Lemma keeps_all_other_layer c ps : keeps_objs (all_other_layer c ps).
Proof.
  induction ps as [|q ps IH]; simpl; [apply keeps_ret|].
  apply keeps_bind; [apply keeps_Node_layer|]. intros lq.
  apply keeps_bind; [apply keeps_Node_layer|]. intros lc.
  destruct (decide (lq = lc)); [apply keeps_ret | apply IH].
Qed.

Ltac keeps :=
  repeat first
    [ apply keeps_ret | apply keeps_raise | apply keeps_gets | apply keeps_lift
    | apply keeps_the_node | apply keeps_the_edge | apply keeps_the_layer
    | apply keeps_update_layer | apply keeps_sort_nodes
    | apply keeps_Passage_layer | apply keeps_Node_layer
    | apply keeps_Node_parents | apply keeps_all_other_layer
    | (apply keeps_bind; [|intros ?])
    | match goal with
      | |- keeps_objs (if ?b then _ else _) => destruct b
      | |- keeps_objs (match ?x with _ => _ end) => destruct x
      end ].

Lemma keeps_Layer__add_edge y e : keeps_objs (Layer__add_edge y e).
Proof. unfold Layer__add_edge. keeps. Qed.
Lemma keeps_Layer__remove_edge y e : keeps_objs (Layer__remove_edge y e).
Proof. unfold Layer__remove_edge. keeps. Qed.
End frame.

Section add_remove.
Import core api.

Lemma bind_ret_tt_state {S A} (m : M S A) s : (bind m (λ _, ret tt) s).2 = (m s).2.
Proof. unfold bind, ret. by destruct (m s) as [[?|?] ?]. Qed.

Lemma reraise_state {S A} e1 e2 (m : M S A) s : (reraise e1 e2 m s).2 = (m s).2.
Proof. unfold reraise. by destruct (m s) as [[?|?] ?]. Qed.

Lemma the_node_Some p r n : node_objs p !! r = Some n → the_node r p = (inr n, p).
Proof. intros H. unfold the_node. by rewrite H. Qed.

Lemma the_edge_Some p r e : edge_objs p !! r = Some e → the_edge r p = (inr e, p).
Proof. intros H. unfold the_edge. by rewrite H. Qed.

Lemma update_node_Some p r f n :
  node_objs p !! r = Some n →
  update_node r f p = (inr tt, set_node_objs (<[r := f n]> (node_objs p)) p).
Proof. intros H. unfold update_node. by erewrite bind_inr; [|by apply the_node_Some]. Qed.

Lemma Edge___init___mutable p tag parent child attrib :
  frozen p = false →
  Edge___init__ tag parent child attrib p
  = (inr (length (edge_objs p)),
     set_edge_objs (edge_objs p ++ [mkEdge tag parent child (default emp attrib)]) p).
Proof. intros H. unfold Edge___init__. munfold. by rewrite H. Qed.

(** After [add]: the new Edge object is the last one allocated, and it is in
    the outgoing list of the node and in the incoming list of the child. *)
Lemma Node_add_effect p node child tag attrib n c :
  frozen p = false →
  node_objs p !! node = Some n →
  node_objs p !! child = Some c →
  let p1 := (Node_add node tag child attrib p).2 in
  frozen p1 = false
  ∧ edge_objs p1 = edge_objs p ++ [mkEdge tag node child (default emp attrib)]
  ∧ ∃ n1 c1, node_objs p1 !! node = Some n1 ∧ node_objs p1 !! child = Some c1
             ∧ Node_outgoing n1 ≡ₚ Node_outgoing n ++ [length (edge_objs p)]
             ∧ Node_incoming c1 ≡ₚ Node_incoming c ++ [length (edge_objs p)].
Proof.
  intros Hf Hn Hc p1. subst p1.
  pose proof (lookup_lt_Some _ _ _ Hn) as Hln.
  pose proof (lookup_lt_Some _ _ _ Hc) as Hlc.
  unfold Node_add, ModifyPassage. rewrite Hf. rewrite bind_ret_tt_state.
  erewrite bind_inr; [|by apply Edge___init___mutable].
  set (e := length (edge_objs p)).
  set (E := mkEdge tag node child (default emp attrib)).
  erewrite bind_inr; [|by apply the_node_Some].
  erewrite bind_inr; [|by apply update_node_Some].
  erewrite bind_inr;
    [|apply the_node_Some; simpl; by apply list_lookup_insert_eq].
  erewrite bind_inr; [|reflexivity].
  erewrite bind_inr;
    [|apply update_node_Some; simpl; by apply list_lookup_insert_eq].
  simpl. rewrite list_insert_insert_eq.
  match goal with
  | |- context [<[node := ?x]> (node_objs p)] => set (n1 := x)
  end.
  assert (∃ c0, <[node := n1]> (node_objs p) !! child = Some c0
                ∧ Node_incoming c0 = Node_incoming c
                ∧ (node = child → Node_outgoing c0 = Node_outgoing n1)) as (c0 & Hc0 & Hi0 & Ho0).
  { destruct (decide (node = child)) as [<-|Hne].
    - exists n1. rewrite list_lookup_insert_eq by done. split; [done|].
      split; [|done]. simpl. congruence.
    - exists c. rewrite list_lookup_insert_ne by done. done. }
  erewrite bind_inr; [|by apply the_node_Some].
  erewrite bind_inr; [|by apply update_node_Some].
  erewrite bind_inr;
    [|apply the_node_Some; simpl; apply list_lookup_insert_eq;
      by rewrite length_insert].
  erewrite bind_inr; [|reflexivity].
  erewrite bind_inr;
    [|apply update_node_Some; simpl; apply list_lookup_insert_eq;
      by rewrite length_insert].
  simpl. rewrite list_insert_insert_eq.
  match goal with
  | |- context [<[child := ?x]> (<[node := n1]> (node_objs p))] => set (c1 := x)
  end.
  match goal with
  | |- context [bind ?m ?k ?s] =>
      assert (keeps_objs (bind m k)) as Hk
  end.
  { apply keeps_bind; [apply keeps_Node_layer|]. intros y1.
    apply keeps_bind; [apply keeps_Node_layer|]. intros y2.
    destruct (decide (y1 = y2)); [apply keeps_Layer__add_edge | apply keeps_ret]. }
  match goal with
  | |- context [bind ?m ?k ?s] => destruct (Hk s) as (Hno & Heo & Hfo)
  end.
  rewrite Hno, Heo, Hfo. simpl.
  split; [done|]. split; [done|].
  destruct (decide (node = child)) as [<-|Hne].
  - exists c1, c1. rewrite list_lookup_insert_eq by (by rewrite length_insert).
    split; [done|]. split; [done|]. subst c1. simpl. split.
    + rewrite (Ho0 eq_refl). subst n1. simpl. apply sort_by_perm.
    + rewrite sort_by_perm. by rewrite Hi0.
  - exists n1, c1. rewrite list_lookup_insert_ne by done.
    rewrite list_lookup_insert_eq by done.
    rewrite list_lookup_insert_eq by (by rewrite length_insert).
    split; [done|]. split; [done|]. subst n1 c1. simpl. split.
    + apply sort_by_perm.
    + rewrite sort_by_perm. by rewrite Hi0.
Qed.

Lemma first_edge_to (f : EdgeRef → option NodeRef) (e : EdgeRef) (child : NodeRef)
  (l : list EdgeRef) (cs : list NodeRef) :
  mapM f l = Some cs →
  (∀ e', e' ∈ l → e' ≠ e → f e' ≠ Some child) →
  e ∈ l → f e = Some child →
  ∃ rest, filter (λ ec, ec.2 = child) (zip l cs) = (e, child) :: rest.
Proof.
  revert cs. induction l as [|e' l IH]; intros cs Hm Hne Hin He; [by inversion Hin|].
  simpl in Hm. destruct (f e') as [c'|] eqn:Hc'; simpl in Hm; [|done].
  destruct (mapM f l) as [cs'|] eqn:Hcs'; simpl in Hm; [|done].
  injection Hm as <-. simpl. rewrite filter_cons. simpl.
  destruct (decide (c' = child)) as [->|Hcc].
  - destruct (decide (e' = e)) as [->|Hee]; [by eexists|].
    destruct (Hne e'); [by left|done|done].
  - apply IH; [done| |..|done].
    + intros e'' Hin'' Hne''. apply Hne; [by right|done].
    + inversion Hin; subst; [congruence|done].
Qed.

(** After [remove] of an edge [e] of the node, given as the edge or as its
    child when [e] is the first edge to that child: the edge has left the
    outgoing list of the node and the incoming list of the child. *)
Lemma Node_remove_effect p node child x e E n1 c1 :
  frozen p = false →
  node_objs p !! node = Some n1 →
  node_objs p !! child = Some c1 →
  edge_objs p !! e = Some E → Edge_child E = child →
  e ∈ Node_outgoing n1 → e ∈ Node_incoming c1 →
  x = inl e
  ∨ (x = inr child
     ∧ Forall (λ e', is_Some (edge_objs p !! e')) (Node_outgoing n1)
     ∧ ∀ e', e' ∈ Node_outgoing n1 → e' ≠ e →
             Edge_child <$> edge_objs p !! e' ≠ Some child) →
  let p2 := (Node_remove node x p).2 in
  edge_objs p2 = edge_objs p
  ∧ ∃ n2 c2 lo li,
      node_objs p2 !! node = Some n2 ∧ node_objs p2 !! child = Some c2
      ∧ list_remove e (Node_outgoing n1) = Some lo ∧ Node_outgoing n2 = lo
      ∧ list_remove e (Node_incoming c1) = Some li ∧ Node_incoming c2 = li.
Proof.
  intros Hf Hn Hc He HE Hout Hin Hx p2. subst p2.
  pose proof (lookup_lt_Some _ _ _ Hn) as Hln.
  pose proof (lookup_lt_Some _ _ _ Hc) as Hlc.
  destruct (list_remove_elem_of e _ Hout) as [lo Hlo].
  destruct (list_remove_elem_of e _ Hin) as [li Hli].
  unfold Node_remove, ModifyPassage. rewrite Hf. rewrite bind_ret_tt_state.
  erewrite bind_inr; [|by apply the_node_Some].
  erewrite (bind_inr _ _ p e p); cycle 1.
  { destruct Hx as [->|(-> & Hall & Hfirst)].
    - by rewrite decide_True.
    - assert (is_Some (mapM (λ e', Edge_child <$> edge_objs p !! e')
                         (Node_outgoing n1))) as [cs Hcs].
      { apply mapM_is_Some. eapply Forall_impl; [exact Hall|].
        intros e' He'. simpl. by apply fmap_is_Some. }
      erewrite bind_inr; cycle 1.
      { unfold Node_children. erewrite bind_inr; [|by apply the_node_Some].
        rewrite Hcs. reflexivity. }
      destruct (first_edge_to (λ e', Edge_child <$> edge_objs p !! e') e child
                  (Node_outgoing n1) cs Hcs Hfirst Hout) as [rest ->]; [|done].
      by rewrite He; simpl; rewrite HE. }
  rewrite reraise_state.
  erewrite bind_inr; [|by apply the_node_Some].
  rewrite Hlo. erewrite bind_inr; [|reflexivity].
  erewrite bind_inr; [|by apply update_node_Some].
  erewrite bind_inr; [|by apply the_edge_Some].
  rewrite HE.
  set (n2 := with_outgoing lo n1).
  assert (∃ c0, <[node := n2]> (node_objs p) !! child = Some c0
                ∧ Node_incoming c0 = Node_incoming c1
                ∧ (node = child → Node_outgoing c0 = lo))
    as (c0 & Hc0 & Hi0 & Ho0).
  { destruct (decide (node = child)) as [<-|Hne].
    - exists n2. rewrite list_lookup_insert_eq by done. split; [done|].
      split; [|done]. simpl. congruence.
    - exists c1. rewrite list_lookup_insert_ne by done. done. }
  erewrite bind_inr; [|by apply the_node_Some].
  rewrite Hi0, Hli. erewrite bind_inr; [|reflexivity].
  erewrite bind_inr; [|by apply update_node_Some].
  simpl.
  match goal with
  | |- context [bind ?m ?k ?s] =>
      assert (keeps_objs (bind m k)) as Hk
  end.
  { apply keeps_bind; [apply keeps_Node_layer|]. intros y1.
    apply keeps_bind; [apply keeps_Node_layer|]. intros y2.
    destruct (decide (y1 = y2)); [apply keeps_Layer__remove_edge | apply keeps_ret]. }
  match goal with
  | |- context [bind ?m ?k ?s] => destruct (Hk s) as (Hno & Heo & Hfo)
  end.
  rewrite Hno, Heo. simpl. split; [done|].
  destruct (decide (node = child)) as [<-|Hne].
  - exists (with_incoming li c0), (with_incoming li c0), lo, li.
    rewrite list_lookup_insert_eq by (by rewrite length_insert).
    simpl. rewrite (Ho0 eq_refl). done.
  - exists n2, (with_incoming li c0), lo, li.
    rewrite list_lookup_insert_ne by done.
    rewrite list_lookup_insert_eq by done.
    rewrite list_lookup_insert_eq by (by rewrite length_insert). done.
Qed.
End add_remove.

Section add_then_remove.
Import core api.

Lemma mapM_omap {A B} (f : A → option B) l cs : mapM f l = Some cs → omap f l = cs.
Proof.
  revert cs. induction l as [|a l IH]; intros cs H; simpl in *; [by injection H|].
  destruct (f a) as [b|]; simpl in *; [|done].
  destruct (mapM f l) as [cs'|]; simpl in *; [|done].
  injection H as <-. f_equal. by apply IH.
Qed.

(** The properties [children] and [parents], where they return. *)
Lemma Node_children_of p r cs :
  (Node_children r p).1 = inr cs → cs = children_of p r.
Proof.
  unfold Node_children, children_of, the_node, bind.
  destruct (node_objs p !! r) as [n|]; simpl; [|done].
  destruct (mapM _ _) as [cs'|] eqn:E; simpl; [|done].
  intros [= <-]. symmetry. by apply mapM_omap.
Qed.

Lemma Node_parents_of p r ps :
  (Node_parents r p).1 = inr ps → ps = parents_of p r.
Proof.
  unfold Node_parents, parents_of, the_node, bind.
  destruct (node_objs p !! r) as [n|]; simpl; [|done].
  destruct (mapM _ _) as [ps'|] eqn:E; simpl; [|done].
  intros [= <-]. symmetry. by apply mapM_omap.
Qed.

(** An end of the edges of [l] other than the new edge [e] is an end of the
    same edges before [e] was allocated. *)
Lemma end_before (ends : Edge → NodeRef) (es : list Edge) (E : Edge)
  (l l0 : list EdgeRef) (r : NodeRef) :
  Forall (λ e', e' < length es) l0 →
  l ≡ₚ l0 →
  r ∈ omap (λ e', ends <$> (es ++ [E]) !! e') l →
  r ∈ omap (λ e', ends <$> es !! e') l0.
Proof.
  intros Hall Hp Hr. rewrite Hp in Hr.
  apply list_elem_of_omap in Hr as (e' & Hin & He').
  apply list_elem_of_omap. exists e'. split; [done|].
  rewrite Forall_forall in Hall. specialize (Hall e' Hin).
  by rewrite lookup_app_l in He'.
Qed.

(** C4, amended.  In a mutable Passage, for a node and a child that are not
    yet linked by an edge: after [node.add(tag, child)] the child is among
    the children of the node and the node among the parents of the child;
    after the matching [remove], given the child or the edge made, neither
    is any more. *)
Theorem C4_add_then_remove (p : Passage) (node child : NodeRef) (tag : string)
  (attrib : option (gmap string string)) (x : EdgeRef + NodeRef) :
  frozen p = false →
  is_Some (node_objs p !! node) → is_Some (node_objs p !! child) →
  allocated p →
  child ∉ children_of p node → node ∉ parents_of p child →
  x = inr child ∨ x = inl (length (edge_objs p)) →
  (let p1 := (Node_add node tag child attrib p).2 in
   let p2 := (Node_remove node x p1).2 in
   ((child ∈ children_of p1 node ∧ node ∈ parents_of p1 child)
    ∧ ((child ∉ children_of p2 node) ∧ (node ∉ parents_of p2 child)))).
Proof.
  intros Hf [n Hn] [c Hc] Hall Hch Hpa Hx p1 p2.
  unfold allocated in Hall. rewrite Forall_lookup in Hall.
  pose proof (Hall _ _ Hn) as Han. apply Forall_app in Han as [Han _].
  pose proof (Hall _ _ Hc) as Hac. apply Forall_app in Hac as [_ Hac].
  unfold children_of in Hch. rewrite Hn in Hch.
  unfold parents_of in Hpa. rewrite Hc in Hpa.
  destruct (Node_add_effect p node child tag attrib n c Hf Hn Hc)
    as (Hf1 & He1 & n1 & c1 & Hn1 & Hc1 & Hlo & Hli).
  fold p1 in Hf1, He1, Hn1, Hc1.
  set (e := length (edge_objs p)) in *.
  set (E := mkEdge tag node child (default emp attrib)) in *.
  assert (edge_objs p1 !! e = Some E) as HeE.
  { rewrite He1, lookup_app_r by done. by rewrite Nat.sub_diag. }
  assert (e ∈ Node_outgoing n1) as Hein.
  { rewrite Hlo. apply elem_of_app. right. constructor. }
  assert (e ∈ Node_incoming c1) as Hein'.
  { rewrite Hli. apply elem_of_app. right. constructor. }
  split.
  { unfold children_of, parents_of. rewrite Hn1, Hc1. split.
    - apply list_elem_of_omap. exists e. simpl. by rewrite HeE.
    - apply list_elem_of_omap. exists e. simpl. by rewrite HeE. }
  destruct (Node_remove_effect p1 node child x e E n1 c1 Hf1 Hn1 Hc1 HeE eq_refl
              Hein Hein')
    as (He2 & n2 & c2 & lo & li & Hn2 & Hc2 & Hlo' & Hno & Hli' & Hni).
  { destruct Hx as [->| ->]; [right|by left]. split; [done|]. split.
    - apply Forall_forall. intros e' He'. rewrite Hlo in He'.
      apply lookup_lt_is_Some. rewrite He1, length_app. simpl.
      apply elem_of_app in He' as [He'|He'].
      + rewrite Forall_forall in Han. specialize (Han e' He'). lia.
      + apply list_elem_of_singleton in He'. subst. unfold e. lia.
    - intros e' He' Hne Hcc. rewrite Hlo in He'.
      apply elem_of_app in He' as [He'|He'];
        [|apply list_elem_of_singleton in He'; done].
      apply Hch. apply list_elem_of_omap. exists e'. split; [done|].
      rewrite Forall_forall in Han. specialize (Han e' He').
      by rewrite He1, lookup_app_l in Hcc. }
  fold p2 in He2, Hn2, Hc2.
  apply list_remove_perm in Hlo', Hli'.
  assert (lo ≡ₚ Node_outgoing n) as Hpo.
  { apply (Permutation_cons_inv (a:=e)). rewrite <- Hlo', Hlo.
    by rewrite Permutation_app_comm. }
  assert (li ≡ₚ Node_incoming c) as Hpi.
  { apply (Permutation_cons_inv (a:=e)). rewrite <- Hli', Hli.
    by rewrite Permutation_app_comm. }
  unfold children_of, parents_of. rewrite Hn2, Hc2, He2, He1, Hno, Hni. split.
  - intros H. apply Hch. by eapply end_before.
  - intros H. apply Hpa. by eapply end_before.
Qed.

Lemma C4_witness :
  let p1 := (Node_add 0 "A" 1 None three_nodes).2 in
  let p2 := (Node_remove 0 (inr 1) p1).2 in
  frozen three_nodes = false
  ∧ (1 ∈ children_of p1 0 ∧ 0 ∈ parents_of p1 1)
  ∧ ((1 ∉ children_of p2 0) ∧ (0 ∉ parents_of p2 1)).
Proof.
  split; [reflexivity|].
  apply (C4_add_then_remove three_nodes 0 1 "A" None (inr 1)).
  - reflexivity.
  - vm_compute. by eexists.
  - vm_compute. by eexists.
  - vm_compute. repeat constructor.
  - vm_compute. intros H. inversion H.
  - vm_compute. intros H. inversion H.
  - by left.
Defined.
End add_then_remove.

Lemma omap_fmap_compose {A B C} (g : A → B) (f : B → option C) (l : list A) :
  omap f (g <$> l) = omap (λ x, f (g x)) l.
Proof.
  induction l as [|a l IH]; [done|]. simpl.
  destruct (f (g a)); [f_equal|]; apply IH.
Qed.

Section levels.
Import config graph.
Context (h : list Node) (rk : nat → nat) (Hwf : graph_wf h rk).

Lemma index_of_valid r : r < length h → index_of h r = Some r.
Proof.
  intros Hr. unfold index_of.
  destruct (lookup_lt_is_Some_2 h r Hr) as [n Hn]. rewrite Hn. simpl.
  by destruct (Hwf r n Hn) as (-> & _).
Qed.

Lemma parents_valid r n e :
  h !! r = Some n → e ∈ incoming n → parent e < length h ∧ rk (parent e) < rk r.
Proof.
  intros Hn He. destruct (Hwf r n Hn) as (_ & Hin & _).
  rewrite Forall_forall in Hin. by apply Hin.
Qed.

Lemma parent_indices r n :
  h !! r = Some n →
  mapM (λ e, index_of h (parent e)) (incoming n) = Some (parent <$> incoming n).
Proof.
  intros Hn. apply mapM_Some. apply Forall2_fmap_r.
  apply Forall_Forall2_diag. apply Forall_forall. intros e He.
  apply index_of_valid. by eapply parents_valid.
Qed.

Lemma unexplored_valid lbi q :
  q < length h → unexplored h lbi q = true ↔ lbi !! q = None.
Proof.
  intros Hq. unfold unexplored. rewrite index_of_valid by done.
  by rewrite bool_decide_eq_true.
Qed.

(** One turn of the loop, in each of its four cases. *)
Lemma step_explored k r st lbi lv n l :
  h !! r = Some n → lbi !! r = Some l →
  assign_levels (S k) h (r :: st) lbi lv = assign_levels k h st lbi lv.
Proof.
  intros Hn Hl. simpl. rewrite Hn.
  destruct (Hwf r n Hn) as (-> & _). by rewrite Hl.
Qed.

Lemma step_no_parent k r st lbi lv n :
  h !! r = Some n → lbi !! r = None → incoming n = [] →
  assign_levels (S k) h (r :: st) lbi lv
  = assign_levels k h st (<[r := 0]> lbi) (levels_append 0 r lv).
Proof.
  intros Hn Hl Hi. simpl. rewrite Hn.
  destruct (Hwf r n Hn) as (Hix & _). rewrite Hix, Hl, Hi. done.
Qed.

Lemma step_push k r st lbi lv n :
  h !! r = Some n → lbi !! r = None →
  filter (λ q, unexplored h lbi q = true) (parent <$> incoming n) ≠ [] →
  assign_levels (S k) h (r :: st) lbi lv
  = assign_levels k h
      (foldl (λ st q, q :: r :: st) st
         (filter (λ q, unexplored h lbi q = true) (parent <$> incoming n)))
      lbi lv.
Proof.
  intros Hn Hl Hu. simpl. rewrite Hn.
  destruct (Hwf r n Hn) as (Hix & _). rewrite Hix, Hl.
  rewrite (parent_indices r n Hn).
  destruct (incoming n) as [|e es] eqn:Hi; [done|]. rewrite <- Hi in *.
  destruct (parent <$> incoming n) as [|q qs] eqn:Hp; [by rewrite Hi in Hp|].
  destruct (filter _ (q :: qs)) as [|u us] eqn:Hf; [done|]. done.
Qed.

Lemma step_level k r st lbi lv n :
  h !! r = Some n → lbi !! r = None → incoming n ≠ [] →
  filter (λ q, unexplored h lbi q = true) (parent <$> incoming n) = [] →
  assign_levels (S k) h (r :: st) lbi lv
  = assign_levels k h st
      (<[r := 1 + max_list (omap (λ e, lbi !! parent e) (incoming n))]> lbi)
      (levels_append (1 + max_list (omap (λ e, lbi !! parent e) (incoming n)))
         r lv).
Proof.
  intros Hn Hl Hi Hu. simpl. rewrite Hn.
  destruct (Hwf r n Hn) as (Hix & _). rewrite Hix, Hl.
  rewrite (parent_indices r n Hn).
  destruct (parent <$> incoming n) as [|q qs] eqn:Hp.
  { by destruct (incoming n). }
  rewrite Hu. rewrite <- Hp. by rewrite omap_fmap_compose.
Qed.

(** The invariant of the loop. *)
Lemma levels_inv_empty : levels_inv h ∅ ∅.
Proof. split; [|split]; intros ??; by rewrite lookup_empty. Qed.

Lemma level_ok_insert lbi r l r' l' :
  lbi !! r = None → level_ok h lbi r' l' → level_ok h (<[r := l]> lbi) r' l'.
Proof.
  intros Hr (n & Hn & Hl). exists n. split; [done|].
  destruct (incoming n) as [|e es]; [done|].
  destruct Hl as [Hall ->].
  assert (∀ e', e' ∈ e :: es → <[r := l]> lbi !! parent e' = lbi !! parent e')
    as Heq.
  { intros e' He'. rewrite Forall_forall in Hall.
    destruct (Hall e' He') as [x Hx].
    rewrite lookup_insert_ne; [done|]. intros ->. congruence. }
  split.
  - apply Forall_forall. intros e' He'. rewrite Heq by done.
    rewrite Forall_forall in Hall. by apply Hall.
  - do 2 f_equal. apply list_omap_ext. apply Forall_Forall2_diag.
    apply Forall_forall. intros e' He'. symmetry. by apply Heq.
Qed.

Lemma levels_inv_insert lbi lv r l :
  levels_inv h lbi lv → lbi !! r = None → level_ok h lbi r l →
  levels_inv h (<[r := l]> lbi) (levels_append l r lv).
Proof.
  intros (H1 & H2 & H3) Hr Hl. split; [|split].
  - intros r' l' Hl'. apply level_ok_insert; [done|].
    destruct (decide (r = r')) as [<-|Hne].
    + rewrite lookup_insert_eq in Hl'. by injection Hl' as <-.
    + rewrite lookup_insert_ne in Hl' by done. by apply H1.
  - intros l0 rs Hrs. unfold levels_append in Hrs.
    destruct (decide (l = l0)) as [<-|Hne].
    + rewrite lookup_insert_eq in Hrs. injection Hrs as <-.
      assert (NoDup (default [] (lv !! l))
              ∧ ∀ r', r' ∈ default [] (lv !! l) → lbi !! r' = Some l)
        as [Hnd Hin].
      { destruct (lv !! l) as [rs|] eqn:E; simpl.
        - by apply H2.
        - split; [constructor|]. intros r' Hr'. inversion Hr'. }
      split.
      * apply NoDup_app. split; [done|]. split; [|apply NoDup_singleton].
        intros r' Hr' ->%list_elem_of_singleton.
        specialize (Hin r Hr'). congruence.
      * intros r' [Hr'| ->%list_elem_of_singleton]%elem_of_app.
        -- rewrite lookup_insert_ne; [by apply Hin|].
           intros <-. specialize (Hin r Hr'). congruence.
        -- by rewrite lookup_insert_eq.
    + rewrite lookup_insert_ne in Hrs by done.
      destruct (H2 l0 rs Hrs) as [Hnd Hin]. split; [done|].
      intros r' Hr'. rewrite lookup_insert_ne; [by apply Hin|].
      intros <-. specialize (Hin r Hr'). congruence.
  - intros r' l' Hl'. unfold levels_append.
    destruct (decide (r = r')) as [<-|Hne].
    + rewrite lookup_insert_eq in Hl'. injection Hl' as <-.
      rewrite lookup_insert_eq. eexists. split; [done|].
      apply elem_of_app. right. constructor.
    + rewrite lookup_insert_ne in Hl' by done.
      destruct (H3 r' l' Hl') as (rs & Hrs & Hin).
      destruct (decide (l = l')) as [<-|Hll].
      * rewrite lookup_insert_eq, Hrs. eexists. split; [done|].
        apply elem_of_app. by left.
      * rewrite lookup_insert_ne by done. by exists rs.
Qed.

Lemma unexplored_mono (lbi lbi' : gmap nat nat) q :
  lbi ⊆ lbi' → unexplored h lbi' q = true → unexplored h lbi q = true.
Proof.
  intros Hsub. unfold unexplored. destruct (index_of h q) as [i|]; [|done].
  rewrite !bool_decide_eq_true. intros Hn. by eapply lookup_weaken_None.
Qed.

Lemma unexplored_fewer (lbi lbi' : gmap nat nat) ps q :
  lbi ⊆ lbi' → q < length h →
  q ∈ filter (λ q, unexplored h lbi q = true) ps → is_Some (lbi' !! q) →
  length (filter (λ q, unexplored h lbi' q = true) ps)
  < length (filter (λ q, unexplored h lbi q = true) ps).
Proof.
  intros Hsub Hq Hin [l Hl].
  rewrite <- (list_filter_filter_l (λ q, unexplored h lbi' q = true)
                (λ q, unexplored h lbi q = true) ps)
    by (intros x; by apply unexplored_mono).
  apply (length_filter_lt _ _ q); [done|].
  rewrite unexplored_valid by done. congruence.
Qed.

Lemma explored_already r lbi lv :
  r < length h → levels_inv h lbi lv → is_Some (lbi !! r) →
  ∃ n lbi' lv',
    levels_inv h lbi' lv' ∧ lbi ⊆ lbi' ∧ is_Some (lbi' !! r)
    ∧ ∀ k st, assign_levels (n + k) h (r :: st) lbi lv
              = assign_levels k h st lbi' lv'.
Proof.
  intros Hr Hinv [l Hl]. destruct (lookup_lt_is_Some_2 h r Hr) as [n Hn].
  exists 1, lbi, lv. split; [done|]. split; [done|]. split; [by eexists|].
  intros k st. by eapply step_explored.
Qed.

(** The pairs pushed for a node that has its level by now. *)
Lemma pushed_pairs_done N r qs :
  (∀ q, rk q < N → q < length h → explored h q) →
  r < length h →
  Forall (λ q, rk q < N ∧ q < length h) qs →
  ∀ lbi lv, levels_inv h lbi lv → is_Some (lbi !! r) →
    ∃ n lbi' lv',
      levels_inv h lbi' lv' ∧ lbi ⊆ lbi'
      ∧ ∀ k st, assign_levels (n + k) h (foldl (λ st q, q :: r :: st) st qs) lbi lv
                = assign_levels k h st lbi' lv'.
Proof.
  intros IH Hr. induction qs as [|q qs IHqs] using rev_ind;
    intros Hqs lbi lv Hinv Hdone.
  - exists 0, lbi, lv. done.
  - apply Forall_app in Hqs as [Hqs Hq]. apply Forall_singleton in Hq as [Hq1 Hq2].
    destruct (IH q Hq1 Hq2 lbi lv Hinv) as (n1 & lbi1 & lv1 & Hinv1 & Hs1 & _ & E1).
    assert (is_Some (lbi1 !! r)) as Hdone1 by (by eapply lookup_weaken_is_Some).
    destruct (explored_already r lbi1 lv1 Hr Hinv1 Hdone1)
      as (n2 & lbi2 & lv2 & Hinv2 & Hs2 & Hdone2 & E2).
    destruct (IHqs Hqs lbi2 lv2 Hinv2 Hdone2) as (n3 & lbi3 & lv3 & Hinv3 & Hs3 & E3).
    exists (n1 + (n2 + n3)), lbi3, lv3. split; [done|].
    split; [by do 2 (etrans; [|done])|].
    intros k st. rewrite foldl_app. simpl.
    rewrite <- Nat.add_assoc, E1. rewrite <- Nat.add_assoc, E2. apply E3.
Qed.

Lemma explored_below N :
  ∀ r, rk r < N → r < length h → explored h r.
Proof.
  induction N as [|N IHN]; intros r HrN Hr; [lia|].
  destruct (lookup_lt_is_Some_2 h r Hr) as [nd Hnd].
  assert (∀ (m : nat) lbi lv, levels_inv h lbi lv →
            (length (filter (λ q, unexplored h lbi q = true)
                       (parent <$> incoming nd)) ≤ m)%nat →
            ∃ n lbi' lv',
              levels_inv h lbi' lv' ∧ lbi ⊆ lbi' ∧ is_Some (lbi' !! r)
              ∧ ∀ k st, assign_levels (n + k) h (r :: st) lbi lv
                        = assign_levels k h st lbi' lv') as Hm.
  2:{ intros lbi lv Hinv. by eapply Hm. }
  assert (Forall (λ q, rk q < N ∧ q < length h) (parent <$> incoming nd)) as Hps.
  { apply Forall_fmap, Forall_forall. intros e He. simpl.
    destruct (parents_valid r nd e Hnd He). lia. }
  induction m as [|m IHm]; intros lbi lv Hinv Hlen.
  all: destruct (lbi !! r) as [l|] eqn:Hl; [by eapply explored_already|].
  all: destruct (decide (filter (λ q, unexplored h lbi q = true)
                           (parent <$> incoming nd) = [])) as [Hu|Hu].
  1,3: (assert (∃ l, level_ok h lbi r l
                    ∧ ∀ k st, assign_levels (1 + k) h (r :: st) lbi lv
                              = assign_levels k h st (<[r := l]> lbi)
                                  (levels_append l r lv)) as (l & Hok & E);
    [ destruct (incoming nd) as [|e es] eqn:Hi;
      [ exists 0; split; [exists nd; by rewrite Hi|];
        intros k st; by eapply step_no_parent
      | rewrite <- Hi in *; eexists; split;
        [ exists nd; split; [done|]; rewrite Hi; rewrite <- Hi; split; [|done];
          apply Forall_forall; intros e' He';
          assert (parent e' ∉ filter (λ q, unexplored h lbi q = true)
                                (parent <$> incoming nd)) as Hnot
            by (rewrite Hu; apply not_elem_of_nil);
          rewrite list_elem_of_filter in Hnot;
          destruct (lbi !! parent e') eqn:Hp; [by eexists|];
          exfalso; apply Hnot; split;
          [ apply unexplored_valid; [by eapply parents_valid|done]
          | apply list_elem_of_fmap; by exists e' ]
        | intros k st; eapply step_level; [done..| |done]; by rewrite Hi ] ]
    | exists 1, (<[r := l]> lbi), (levels_append l r lv);
      split; [by apply levels_inv_insert|];
      split; [by apply insert_subseteq|];
      split; [rewrite lookup_insert_eq; by eexists|done] ]).
  - destruct (filter _ _); [done|simpl in Hlen; lia].
  - destruct (filter (λ q, unexplored h lbi q = true) (parent <$> incoming nd))
      as [|q qs IHqs] eqn:Hf using rev_ind; [done|]. clear IHqs.
    assert (q ∈ filter (λ q, unexplored h lbi q = true) (parent <$> incoming nd))
      as Hqin by (rewrite Hf; apply elem_of_app; right; constructor).
    assert (Forall (λ q, rk q < N ∧ q < length h)
              (filter (λ q, unexplored h lbi q = true) (parent <$> incoming nd)))
      as Hfs.
    { apply Forall_forall. intros x [_ Hx]%list_elem_of_filter.
      rewrite Forall_forall in Hps. by apply Hps. }
    rewrite Hf in Hfs. apply Forall_app in Hfs as [Hqs Hq].
    apply Forall_singleton in Hq as [Hq1 Hq2].
    destruct (IHN q Hq1 Hq2 lbi lv Hinv)
      as (n1 & lbi1 & lv1 & Hinv1 & Hs1 & Hd1 & E1).
    destruct (IHm lbi1 lv1 Hinv1) as (n2 & lbi2 & lv2 & Hinv2 & Hs2 & Hd2 & E2).
    { pose proof (unexplored_fewer lbi lbi1 (parent <$> incoming nd) q
                    Hs1 Hq2 Hqin Hd1) as Hlt.
      rewrite Hf in Hlt. lia. }
    destruct (pushed_pairs_done N r qs IHN Hr Hqs lbi2 lv2 Hinv2 Hd2)
      as (n3 & lbi3 & lv3 & Hinv3 & Hs3 & E3).
    exists (1 + (n1 + (n2 + n3))), lbi3, lv3. split; [done|].
    split; [by do 2 (etrans; [|done])|].
    split; [by eapply lookup_weaken_is_Some|].
    intros k st. rewrite <- Nat.add_assoc. change (1 + ?x) with (S x).
    erewrite step_push; [|done|done|by rewrite Hf; destruct qs].
    rewrite Hf, foldl_app. simpl.
    rewrite <- Nat.add_assoc, E1. rewrite <- Nat.add_assoc, E2. apply E3.
Qed.
End levels.

Section all_levels.
Import config graph.
Context (h : list Node) (rk : nat → nat) (Hwf : graph_wf h rk).

(** The whole work list. *)
Lemma work_list_done st :
  Forall (λ r, r < length h) st →
  ∀ lbi lv, levels_inv h lbi lv →
    ∃ n lbi' lv',
      levels_inv h lbi' lv' ∧ lbi ⊆ lbi'
      ∧ (∀ r, r ∈ st → is_Some (lbi' !! r))
      ∧ ∀ k, assign_levels (n + S k) h st lbi lv = inr (lbi', lv').
Proof.
  induction st as [|r st IH]; intros Hst lbi lv Hinv.
  - exists 0, lbi, lv. split; [done|]. split; [done|].
    split; [intros r Hr; inversion Hr|done].
  - apply Forall_cons in Hst as [Hr Hst].
    destruct (explored_below h rk Hwf (S (rk r)) r (Nat.lt_succ_diag_r _) Hr
                lbi lv Hinv) as (n1 & lbi1 & lv1 & Hinv1 & Hs1 & Hd1 & E1).
    destruct (IH Hst lbi1 lv1 Hinv1) as (n2 & lbi2 & lv2 & Hinv2 & Hs2 & Hd2 & E2).
    exists (n1 + n2), lbi2, lv2. split; [done|]. split; [by etrans|]. split.
    + intros r' [->|Hr']%elem_of_cons; [|by apply Hd2].
      by eapply lookup_weaken_is_Some.
    + intros k. rewrite <- Nat.add_assoc, E1. apply E2.
Qed.

Lemma rank_bounded r : r < length h → rk r ≤ max_list (rk <$> seq 0 (length h)).
Proof.
  intros Hr. apply max_list_elem_of_le. apply list_elem_of_fmap.
  exists r. split; [done|]. apply elem_of_seq. lia.
Qed.

(** With the nodes without outgoing edges, every node has its level. *)
Lemma all_levelled lbi lv :
  levels_inv h lbi lv →
  (∀ r, r < length h → no_outgoing h r = true → is_Some (lbi !! r)) →
  ∀ r, r < length h → is_Some (lbi !! r).
Proof.
  intros (H1 & _) Hseeds.
  assert (∀ d r, r < length h →
            max_list (rk <$> seq 0 (length h)) - rk r < d →
            is_Some (lbi !! r)) as Hd.
  2:{ intros r Hr. eapply Hd; [done|]. apply Nat.lt_succ_diag_r. }
  induction d as [|d IH]; intros r Hr Hlt; [lia|].
  destruct (lookup_lt_is_Some_2 h r Hr) as [nd Hnd].
  destruct (outgoing nd) as [|e es] eqn:Ho.
  { apply Hseeds; [done|]. unfold no_outgoing. by rewrite Hnd, Ho. }
  destruct (Hwf r nd Hnd) as (_ & _ & Hout). rewrite Ho in Hout.
  apply Forall_cons in Hout as [(m & Hm & Hin) _].
  apply list_elem_of_fmap in Hin as (e' & Hpe & He').
  pose proof (lookup_lt_Some _ _ _ Hm) as Hc.
  destruct (parents_valid h rk Hwf (child e) m e' Hm He') as [_ Hrk].
  rewrite <- Hpe in Hrk.
  pose proof (rank_bounded (child e) Hc) as Hb.
  destruct (IH (child e) Hc) as [l Hl]; [lia|].
  destruct (H1 _ _ Hl) as (m' & Hm' & Hok).
  rewrite Hm in Hm'. injection Hm' as <-.
  destruct (incoming m) as [|e0 es0] eqn:Hi; [by inversion He'|].
  destruct Hok as [Hall _]. rewrite Forall_forall in Hall.
  rewrite Hpe. by apply Hall.
Qed.

(** A parent is at a lower level than its child. *)
Lemma parent_level_lt lbi lv p r lp lr :
  levels_inv h lbi lv → is_parent h p r →
  lbi !! p = Some lp → lbi !! r = Some lr → lp < lr.
Proof.
  intros (H1 & _) (n & e & Hn & He & Hp) Hlp Hlr.
  destruct (H1 _ _ Hlr) as (n' & Hn' & Hok).
  rewrite Hn in Hn'. injection Hn' as <-.
  destruct (incoming n) as [|e0 es0] eqn:Hi; [by inversion He|].
  destruct Hok as [_ ->].
  assert (lp ≤ max_list (omap (λ e, lbi !! parent e) (e0 :: es0))); [|lia].
  apply max_list_elem_of_le. apply list_elem_of_omap.
  exists e. split; [done|]. by rewrite Hp.
Qed.
End all_levels.

(** ** The order of emission *)

Section sorted.
Context {A : Type} (key : A → nat).

Lemma insert_by_sorted x l :
  StronglySorted (λ a b, key a ≤ key b) l →
  StronglySorted (λ a b, key a ≤ key b) (insert_by Nat.leb key x l).
Proof.
  induction 1 as [|y l Hs IH Hall]; simpl; [repeat constructor|].
  destruct (Nat.leb (key x) (key y)) eqn:E.
  - apply Nat.leb_le in E. constructor; [by constructor|].
    constructor; [done|]. eapply Forall_impl; [done|]. simpl. lia.
  - apply Nat.leb_gt in E. constructor; [done|].
    rewrite insert_by_perm. constructor; [lia|done].
Qed.

Lemma sort_by_sorted l :
  StronglySorted (λ a b, key a ≤ key b) (sort_by Nat.leb key l).
Proof.
  induction l as [|x l IH]; simpl; [constructor|]. by apply insert_by_sorted.
Qed.

(** In a list sorted by [key], an item of a smaller key comes first. *)
Lemma sorted_before l i j x y :
  StronglySorted (λ a b, key a ≤ key b) l →
  l !! i = Some x → l !! j = Some y → key x < key y → i < j.
Proof.
  intros Hs. revert i j. induction Hs as [|a l Hs IH Hall]; intros i j Hi Hj Hlt.
  { by rewrite lookup_nil in Hi. }
  destruct i as [|i], j as [|j]; simpl in *.
  - injection Hi as <-. injection Hj as <-. lia.
  - lia.
  - injection Hj as <-. rewrite Forall_forall in Hall.
    specialize (Hall x (list_elem_of_lookup_2 _ _ _ Hi)). lia.
  - specialize (IH i j Hi Hj Hlt). lia.
Qed.
End sorted.

Section emission.
Import config graph.
Context (h : list Node) (lbi : gmap nat nat) (lv : gmap nat (list nat))
        (Hinv : levels_inv h lbi lv).

Lemma elem_of_concat_blocks {B} (g : B → list nat) (bs : list B) r :
  r ∈ concat (g <$> bs) ↔ ∃ b, b ∈ bs ∧ r ∈ g b.
Proof.
  induction bs as [|b bs IH]; simpl.
  - split; [intros H; inversion H|intros (b & H & _); inversion H].
  - rewrite elem_of_app, IH. split.
    + intros [H|(b' & Hb' & H)]; [exists b; split; [left|done]|].
      exists b'. split; [by right|done].
    + intros (b' & [->|Hb']%elem_of_cons & H); [by left|].
      right. by exists b'.
Qed.

Lemma elem_of_emission r : r ∈ emission h lv ↔ is_Some (lbi !! r).
Proof.
  destruct Hinv as (_ & H2 & H3).
  unfold emission. rewrite elem_of_concat_blocks. split.
  - intros ([k rs] & Hb & Hr). cbv beta in Hr. rewrite sort_by_perm in Hb. rewrite sort_by_perm in Hr.
    simpl in Hr.
    apply elem_of_map_to_list in Hb. exists k. by apply (H2 k rs Hb).
  - intros [l Hl]. destruct (H3 r l Hl) as (rs & Hrs & Hr).
    exists (l, rs). cbv beta. rewrite !sort_by_perm. split; [|done].
    by apply elem_of_map_to_list.
Qed.

Lemma emission_sorted :
  StronglySorted (λ a b, default 0 (lbi !! a) ≤ default 0 (lbi !! b))
    (emission h lv).
Proof.
  destruct Hinv as (_ & H2 & _). unfold emission.
  pose proof (sort_by_sorted (fst : nat * list nat → nat) (map_to_list lv)) as Hs.
  assert (∀ b, b ∈ sort_by Nat.leb fst (map_to_list lv) →
               ∀ r, r ∈ b.2 → lbi !! r = Some b.1) as Hb.
  { intros [k rs] Hin r Hr. rewrite sort_by_perm in Hin.
    apply elem_of_map_to_list in Hin. by apply (H2 k rs Hin). }
  induction Hs as [|b bs Hs IH Hall]; simpl; [constructor|].
  apply StronglySorted_app_2.
  - intros x1 x2 Hx1 Hx2. cbv beta in Hx1. rewrite sort_by_perm in Hx1.
    rewrite (Hb b (list_elem_of_here _ _) x1 Hx1).
    apply elem_of_concat_blocks in Hx2 as (b' & Hb' & Hx2).
    cbv beta in Hx2. rewrite sort_by_perm in Hx2.
    rewrite (Hb b' (list_elem_of_further _ _ _ Hb') x2 Hx2). simpl.
    rewrite Forall_forall in Hall. by apply Hall.
  - assert (∀ x, x ∈ sort_by Nat.leb
                        (λ r, default 0 (order_key <$> h !! r)) b.2 →
                 lbi !! x = Some b.1) as Hx.
    { intros x Hx. rewrite sort_by_perm in Hx. by apply (Hb b); [left|]. }
    revert Hx. generalize (sort_by Nat.leb
                             (λ r, default 0 (order_key <$> h !! r)) b.2).
    intros l Hl. induction l as [|x l IHl]; [constructor|].
    constructor.
    + apply IHl. intros y Hy. apply Hl. by right.
    + apply Forall_forall. intros y Hy.
      rewrite (Hl x) by left. rewrite (Hl y) by (by right). done.
  - apply IH. intros b' Hb'. apply Hb. by right.
Qed.

(** A node of a smaller level is emitted first. *)
Lemma emission_order i j p r lp lr :
  emission h lv !! i = Some p → emission h lv !! j = Some r →
  lbi !! p = Some lp → lbi !! r = Some lr → lp < lr → i < j.
Proof.
  intros Hi Hj Hp Hr Hlt.
  eapply (sorted_before (λ a, default 0 (lbi !! a))); [apply emission_sorted|..];
    [done|done|]. by rewrite Hp, Hr.
Qed.
End emission.

Section emission_nodes.
Import config graph.
Context (h : list Node) (lbi : gmap nat nat) (lv : gmap nat (list nat))
        (Hinv : levels_inv h lbi lv).

Lemma NoDup_concat_blocks (g : nat * list nat → list nat) (bs : list (nat * list nat)) :
  NoDup bs.*1 →
  (∀ b, b ∈ bs → NoDup (g b) ∧ ∀ r, r ∈ g b → lbi !! r = Some b.1) →
  NoDup (concat (g <$> bs)).
Proof.
  induction bs as [|b bs IH]; simpl; intros Hnd Hb; [constructor|].
  apply NoDup_cons in Hnd as [Hb1 Hnd].
  apply NoDup_app. split; [apply Hb; left|]. split.
  - intros x Hx Hx'. apply elem_of_concat_blocks in Hx' as (b' & Hb' & Hx').
    apply Hb1. apply list_elem_of_fmap. exists b'. split; [|done].
    destruct (Hb b) as [_ H1]; [left|].
    destruct (Hb b') as [_ H2]; [by right|].
    specialize (H1 x Hx). specialize (H2 x Hx'). congruence.
  - apply IH; [done|]. intros b' Hb'. apply Hb. by right.
Qed.

Lemma NoDup_emission : NoDup (emission h lv).
Proof.
  destruct Hinv as (_ & H2 & _). unfold emission.
  apply NoDup_concat_blocks.
  - rewrite sort_by_perm. apply NoDup_fst_map_to_list.
  - intros [k rs] Hb. rewrite sort_by_perm in Hb.
    apply elem_of_map_to_list in Hb. destruct (H2 k rs Hb) as [Hnd Hl].
    cbv beta. split.
    + by rewrite sort_by_perm.
    + intros r Hr. rewrite sort_by_perm in Hr. by apply Hl.
Qed.
End emission_nodes.

Section topological_order.
Import config graph.

Lemma levels_found h rk ns :
  graph_wf h rk → (∀ r, r ∈ ns ↔ r < length h) →
  ∃ fuel0 lbi lv,
    levels_inv h lbi lv
    ∧ (∀ r, r < length h → is_Some (lbi !! r))
    ∧ ∀ fuel, fuel0 ≤ fuel →
        assign_levels fuel h (reverse (filter (λ r, no_outgoing h r = true) ns)) ∅ ∅
        = inr (lbi, lv).
Proof.
  intros Hwf Hns.
  destruct (work_list_done h rk Hwf
              (reverse (filter (λ r, no_outgoing h r = true) ns)))
    with (lbi := (∅ : gmap nat nat)) (lv := (∅ : gmap nat (list nat)))
    as (n & lbi & lv & Hinv & _ & Hd & E).
  { apply Forall_forall. intros r Hr. rewrite elem_of_reverse in Hr.
    apply list_elem_of_filter in Hr as [_ Hr]. by apply Hns. }
  { apply levels_inv_empty. }
  exists (S n), lbi, lv. split; [done|]. split.
  - apply (all_levelled h rk Hwf lbi lv Hinv). intros r Hr Hno.
    apply Hd. rewrite elem_of_reverse. apply list_elem_of_filter.
    split; [done|]. by apply Hns.
  - intros fuel Hf. replace fuel with (n + S (fuel - S n)) by lia. apply E.
Qed.

(** X1.  On a transient graph without cycle, the loop of topological_sort
    that assigns the levels ends, whatever the bound on its turns above
    some number, and every node has a level then: 0 for a node without
    incoming edge, and one more than the largest level of its parents for
    any other. *)
Theorem X1_assign_levels_level_rule h rk ns :
  graph_wf h rk → (∀ r, r ∈ ns ↔ r < length h) →
  ∃ fuel0 lbi lv,
    (∀ fuel, fuel0 ≤ fuel →
       assign_levels fuel h (reverse (filter (λ r, no_outgoing h r = true) ns)) ∅ ∅
       = inr (lbi, lv))
    ∧ ∀ r, r < length h → ∃ l, lbi !! r = Some l ∧ level_ok h lbi r l.
Proof.
  intros Hwf Hns.
  destruct (levels_found h rk ns Hwf Hns) as (fuel0 & lbi & lv & Hinv & Hall & E).
  exists fuel0, lbi, lv. split; [done|].
  intros r Hr. destruct (Hall r Hr) as [l Hl]. exists l. split; [done|].
  destruct Hinv as (H1 & _). by apply H1.
Qed.

(** X2.  On a transient graph without cycle, in the list that
    topological_sort makes the new self.nodes, every parent comes strictly
    before each of its children. *)
Theorem X2_emission_parents_first h rk ns :
  graph_wf h rk → (∀ r, r ∈ ns ↔ r < length h) →
  ∃ fuel0 lbi lv,
    (∀ fuel, fuel0 ≤ fuel →
       assign_levels fuel h (reverse (filter (λ r, no_outgoing h r = true) ns)) ∅ ∅
       = inr (lbi, lv))
    ∧ ∀ i j p r, emission h lv !! i = Some p → emission h lv !! j = Some r →
                 is_parent h p r → i < j.
Proof.
  intros Hwf Hns.
  destruct (levels_found h rk ns Hwf Hns) as (fuel0 & lbi & lv & Hinv & Hall & E).
  exists fuel0, lbi, lv. split; [done|].
  intros i j p r Hi Hj Hpr.
  pose proof (list_elem_of_lookup_2 _ _ _ Hi) as Hp.
  pose proof (list_elem_of_lookup_2 _ _ _ Hj) as Hr.
  apply (elem_of_emission h lbi lv Hinv) in Hp as [lp Hlp].
  apply (elem_of_emission h lbi lv Hinv) in Hr as [lr Hlr].
  eapply (emission_order h lbi lv Hinv); [done..|].
  by eapply (parent_level_lt h lbi lv).
Qed.

(** X3.  On a transient graph without cycle, the new self.nodes holds the
    nodes that self.nodes held, each one once: no node is lost and none is
    repeated. *)
Theorem X3_emission_keeps_nodes h rk ns :
  graph_wf h rk → (∀ r, r ∈ ns ↔ r < length h) → NoDup ns →
  ∃ fuel0 lbi lv,
    (∀ fuel, fuel0 ≤ fuel →
       assign_levels fuel h (reverse (filter (λ r, no_outgoing h r = true) ns)) ∅ ∅
       = inr (lbi, lv))
    ∧ emission h lv ≡ₚ ns.
Proof.
  intros Hwf Hns Hnd.
  destruct (levels_found h rk ns Hwf Hns) as (fuel0 & lbi & lv & Hinv & Hall & E).
  exists fuel0, lbi, lv. split; [done|].
  apply NoDup_Permutation; [by eapply NoDup_emission|done|].
  intros r. rewrite (elem_of_emission h lbi lv Hinv), Hns. split.
  - intros [l Hl]. destruct Hinv as (H1 & _).
    destruct (H1 r l Hl) as (n & Hn & _). by eapply lookup_lt_Some.
  - apply Hall.
Qed.
End topological_order.

Section topological_order_example.
Import config graph graph_examples.

Lemma unit_over_token_wf : graph_wf unit_over_token depth_of.
Proof.
  intros r n Hr.
  destruct r as [|[|[|r]]]; vm_compute in Hr; inversion Hr; subst; clear Hr.
  all: split; [reflexivity|]; split; vm_compute.
  all: repeat first [ apply Forall_nil_2 | apply Forall_cons_2 ].
  all: try (split; repeat constructor).
  all: eexists; split; [reflexivity|repeat constructor].
Qed.

Lemma unit_over_token_nodes r : r ∈ [0; 1; 2] ↔ r < length unit_over_token.
Proof.
  change (length unit_over_token) with 3.
  rewrite !elem_of_cons, elem_of_nil. lia.
Qed.

Lemma X1_witness :
  ∃ fuel0 lbi lv,
    (∀ fuel, fuel0 ≤ fuel →
       assign_levels fuel unit_over_token
         (reverse (filter (λ r, no_outgoing unit_over_token r = true) [0; 1; 2])) ∅ ∅
       = inr (lbi, lv))
    ∧ ∀ r, r < length unit_over_token →
           ∃ l, lbi !! r = Some l ∧ level_ok unit_over_token lbi r l.
Proof.
  apply (X1_assign_levels_level_rule unit_over_token depth_of [0; 1; 2]).
  - apply unit_over_token_wf.
  - apply unit_over_token_nodes.
Defined.

Lemma X2_witness :
  ∃ fuel0 lbi lv,
    (∀ fuel, fuel0 ≤ fuel →
       assign_levels fuel unit_over_token
         (reverse (filter (λ r, no_outgoing unit_over_token r = true) [0; 1; 2])) ∅ ∅
       = inr (lbi, lv))
    ∧ ∀ i j p r, emission unit_over_token lv !! i = Some p →
                 emission unit_over_token lv !! j = Some r →
                 is_parent unit_over_token p r → i < j.
Proof.
  apply (X2_emission_parents_first unit_over_token depth_of [0; 1; 2]).
  - apply unit_over_token_wf.
  - apply unit_over_token_nodes.
Defined.

Lemma X3_witness :
  ∃ fuel0 lbi lv,
    (∀ fuel, fuel0 ≤ fuel →
       assign_levels fuel unit_over_token
         (reverse (filter (λ r, no_outgoing unit_over_token r = true) [0; 1; 2])) ∅ ∅
       = inr (lbi, lv))
    ∧ emission unit_over_token lv ≡ₚ [0; 1; 2].
Proof.
  apply (X3_emission_keeps_nodes unit_over_token depth_of [0; 1; 2]).
  - apply unit_over_token_wf.
  - apply unit_over_token_nodes.
  - repeat constructor; rewrite ?elem_of_cons, ?elem_of_nil; lia.
Defined.
End topological_order_example.

(** ** The invariant of the parser's states *)

Section parser_invariants.
Import config invariants.

Lemma indices_seq (h : list Node) :
  (∀ r n, h !! r = Some n → index n = r) ↔ index <$> h = seq 0 (length h).
Proof.
  split.
  - intros H. apply list_basics.list.list_eq. intros i. rewrite list_lookup_fmap.
    destruct (h !! i) as [n|] eqn:E; simpl.
    + rewrite (H i n E). symmetry. apply lookup_seq_lt. by eapply lookup_lt_Some.
    + symmetry. apply lookup_seq_ge. by apply lookup_ge_None.
  - intros H r n Hn.
    assert ((index <$> h) !! r = Some (index n)) as Hi
      by (by rewrite list_lookup_fmap, Hn).
    rewrite H in Hi. apply lookup_seq in Hi as [Hi _]. simpl in Hi. done.
Qed.

Lemma consistent_shape c c' : shape c' = shape c → consistent c → consistent c'.
Proof.
  unfold shape. intros [= Hi Hn Hs Hb] (H1 & H2 & H3 & H4).
  assert (length (objs c') = length (objs c)) as Hl.
  { by rewrite <- (length_fmap index (objs c')), Hi, length_fmap. }
  unfold consistent. rewrite Hn, Hs, Hb, Hl. split; [|done].
  apply indices_seq. rewrite Hi, Hl. by apply indices_seq.
Qed.

(** *** What keeps the shape *)

Lemma shape_ret {A} (a : A) : keeps_shape (ret a).
Proof. done. Qed.
Lemma shape_raise {A} e : keeps_shape (raise (A:=A) e).
Proof. done. Qed.
Lemma shape_gets {A} (f : Configuration → A) : keeps_shape (gets f).
Proof. done. Qed.
Lemma shape_lift {A} e (o : option A) : keeps_shape (lift e o).
Proof. by destruct o. Qed.
Lemma shape_assert b msg : keeps_shape (assert b msg).
Proof. by destruct b. Qed.
Lemma shape_bind {A B} (m : M Configuration A) (k : A → M Configuration B) :
  keeps_shape m → (∀ a, keeps_shape (k a)) → keeps_shape (bind m k).
Proof.
  intros Hm Hk c. unfold bind. specialize (Hm c).
  destruct (m c) as [[e|a] c1]; simpl in *; [done|].
  by rewrite Hk.
Qed.
Lemma shape_the r : keeps_shape (the r).
Proof. intros c. unfold the. by destruct (objs c !! r). Qed.
Lemma shape_update r f : (∀ n, index (f n) = index n) → keeps_shape (update r f).
Proof.
  intros Hf c. unfold update, bind, the, modify.
  destruct (objs c !! r) as [n|] eqn:E; simpl; [|done].
  unfold shape. simpl. rewrite list_fmap_insert, Hf.
  rewrite list_insert_id; [done|]. by rewrite list_lookup_fmap, E.
Qed.
Lemma shape_Edge___init__ p ch t r : keeps_shape (Edge___init__ p ch t r).
Proof. done. Qed.

(** *** What does not raise the assertion *)

Lemma quiet_ret {A} (a : A) : quiet (ret a).
Proof. done. Qed.
Lemma quiet_raise {A} e : e ≠ overlap_error → quiet (raise (A:=A) e).
Proof. intros He c [= H]. done. Qed.
Lemma quiet_gets {A} (f : Configuration → A) : quiet (gets f).
Proof. done. Qed.
Lemma quiet_modify f : quiet (modify f).
Proof. done. Qed.
Lemma quiet_lift {A} e (o : option A) : e ≠ overlap_error → quiet (lift e o).
Proof. intros He. destruct o; [done|]. by apply quiet_raise. Qed.
Lemma quiet_assert b msg : msg ≠ "Stack and buffer overlap" → quiet (assert b msg).
Proof.
  intros He. destruct b; [done|]. apply quiet_raise.
  unfold overlap_error. congruence.
Qed.
Lemma quiet_bind {A B} (m : M Configuration A) (k : A → M Configuration B) :
  quiet m → (∀ a, quiet (k a)) → quiet (bind m k).
Proof.
  intros Hm Hk c. unfold bind. specialize (Hm c).
  destruct (m c) as [[e|a] c1]; simpl in *; [|apply Hk].
  intros [= ->]. by apply Hm.
Qed.
Lemma quiet_the r : quiet (the r).
Proof. intros c. unfold the. by destruct (objs c !! r). Qed.
Lemma quiet_update r f : quiet (update r f).
Proof. intros c. unfold update, bind, the, modify. by destruct (objs c !! r). Qed.

End parser_invariants.

Ltac solve_shape :=
  repeat first
    [ apply shape_ret | apply shape_raise | apply shape_gets | apply shape_lift
    | apply shape_assert | apply shape_the | apply shape_Edge___init__
    | apply shape_update; by intros []
    | apply shape_bind; [|intros ?]
    | match goal with
      | |- invariants.keeps_shape (if ?b then _ else _) => destruct b
      end ].

Ltac solve_quiet :=
  repeat first
    [ apply quiet_ret | apply quiet_gets | apply quiet_modify | apply quiet_the
    | apply quiet_update
    | apply quiet_raise; done | apply quiet_lift; done | apply quiet_assert; done
    | apply quiet_bind; [|intros ?]
    | match goal with
      | |- invariants.quiet (if ?b then _ else _) => destruct b
      end ].

Section parser_steps.
Import config invariants.

Lemma shape_Edge_add depth e : keeps_shape (Edge_add depth e).
Proof. unfold Edge_add, Edge_print, Node_ne, Edge_not_in. solve_shape. Qed.

Lemma quiet_Edge_add depth e : quiet (Edge_add depth e).
Proof. unfold Edge_add, Edge_print, Node_ne, Edge_not_in. solve_quiet. Qed.

Lemma quiet_stack_pop : quiet stack_pop.
Proof. unfold stack_pop. solve_quiet. Qed.
End parser_steps.

Section parser_reach.
Import config invariants.

Lemma same_item_apart depth a b c na nb :
  objs c !! a = Some na → objs c !! b = Some nb → index na ≠ index nb →
  same_item depth a b c = (inr false, c).
Proof.
  intros Ha Hb Hne. unfold same_item, bind, the. rewrite Ha. simpl.
  rewrite Hb. simpl. by rewrite decide_False.
Qed.

Lemma anyM_false {A} (f : A → M Configuration bool) l c :
  (∀ x, x ∈ l → f x c = (inr false, c)) → anyM f l c = (inr false, c).
Proof.
  induction l as [|x l IH]; simpl; intros H; [done|].
  unfold bind. rewrite H by left. apply IH. intros y Hy. apply H. by right.
Qed.

(** In a consistent state the stack and the buffer do not overlap. *)
Lemma overlap_consistent depth c : consistent c → overlap depth c = (inr false, c).
Proof.
  intros (H1 & H2 & H3 & H4). unfold overlap, bind, gets. simpl.
  rewrite Forall_forall in H4. apply NoDup_app in H3 as (_ & H3 & _).
  apply anyM_false. intros b Hb. apply anyM_false. intros s Hs.
  destruct (lookup_lt_is_Some_2 (objs c) s) as [ns Hns].
  { apply H4. apply elem_of_app. by left. }
  destruct (lookup_lt_is_Some_2 (objs c) b) as [nb Hnb].
  { apply H4. apply elem_of_app. by right. }
  apply (same_item_apart depth s b c ns nb Hns Hnb).
  rewrite (H1 _ _ Hns), (H1 _ _ Hnb). intros ->. by apply (H3 b).
Qed.

(** The end of [apply_action]. *)
Lemma checked (m : M Configuration unit) depth c :
  quiet m → consistent (m c).2 →
  (m ;;; b <- overlap depth ;;
         assert (negb b) "Stack and buffer overlap" ;;; ret true) c
  = match m c with
    | (inl e, c') => (inl e, c')
    | (inr _, c') => (inr true, c')
    end.
Proof.
  intros Hq Hc. unfold bind at 1.
  destruct (m c) as [[e|[]] c1]; simpl in *; [done|].
  unfold bind. by rewrite overlap_consistent.
Qed.

Lemma consistent_restack c st bf :
  consistent c → NoDup (st ++ bf) → Forall (λ r, r < length (objs c)) (st ++ bf) →
  consistent (set_stack st (set_buffer bf c)).
Proof. intros (H1 & H2 & _ & _) H3 H4. done. Qed.

Lemma pop_last_Some l x l' : pop_last l = Some (x, l') → l = l' ++ [x].
Proof.
  unfold pop_last. destruct (reverse l) as [|y r] eqn:E; [done|].
  intros [= -> <-]. rewrite <- (reverse_involutive l), E. by rewrite reverse_cons.
Qed.

Lemma pop_second_last_Some l y l' :
  pop_second_last l = Some (y, l') → ∃ r x, l = r ++ [y; x] ∧ l' = r ++ [x].
Proof.
  unfold pop_second_last. destruct (reverse l) as [|x [|y' r]] eqn:E; [done..|].
  intros [= -> <-]. exists (reverse r), x. split; [|done].
  rewrite <- (reverse_involutive l), E. rewrite !reverse_cons.
  by rewrite <- app_assoc.
Qed.

Lemma consistent_add_node nid c :
  consistent c → consistent (add_node nid c).2.
Proof.
  intros (H1 & H2 & H3 & H4). unfold add_node, bind, gets, modify, ret. simpl.
  split; [|split; [|split]]; simpl.
  - intros r n Hn. apply lookup_app_Some in Hn as [Hn|[Hr Hn]]; [by apply H1|].
    apply list_lookup_singleton_Some in Hn as [Hn <-]. simpl. lia.
  - rewrite !length_app. simpl. lia.
  - done.
  - rewrite length_app. simpl. eapply Forall_impl; [done|]. simpl. lia.
Qed.

Lemma consistent_stack_pop c : consistent c → consistent (stack_pop c).2.
Proof.
  intros Hc. unfold stack_pop, bind, gets. simpl.
  destruct (pop_last (stack c)) as [[x st]|] eqn:E; simpl; [|done].
  apply pop_last_Some in E. destruct Hc as (H1 & H2 & H3 & H4).
  rewrite E in H3, H4. rewrite <- app_assoc in H3, H4.
  split; [done|]. split; [done|]. simpl. split.
  - apply NoDup_app in H3 as (Ha & Hb & Hc). apply NoDup_app.
    split; [done|]. split.
    + intros y Hy Hy'. apply (Hb y Hy). by right.
    + by apply NoDup_cons in Hc as [_ Hc].
  - apply Forall_app in H4 as [Ha Hb]. apply Forall_app. split; [done|].
    by apply Forall_cons in Hb as [_ Hb].
Qed.

Lemma consistent_bind_shape {A B} (m : M Configuration A) (k : A → M Configuration B) c :
  consistent (m c).2 → (∀ a, keeps_shape (k a)) → consistent (bind m k c).2.
Proof.
  intros Hm Hk. unfold bind. destruct (m c) as [[e|a] c1]; simpl in *; [done|].
  by eapply consistent_shape; [apply Hk|].
Qed.

Lemma apply_action_body depth a c :
  consistent c →
  consistent (apply_action depth a c).2
  ∧ (apply_action depth a c).1 ≠ inl overlap_error.
Proof.
  intros Hc. unfold apply_action.
  destruct (decide (Action_type a = "FINISH")); [done|].
  match goal with
  | |- context [bind ?m _ c] =>
      assert (quiet m ∧ consistent (m c).2) as [Hq Hm]
  end.
  2:{ rewrite checked by done. specialize (Hq c).
      match goal with
      | |- context [match ?r with _ => _ end] => destruct r as [[e|[]] c1]
      end; simpl in *; (split; [done|]); [|done].
      intros [= ->]. by apply Hq. }
  repeat case_decide.
  - (* NODE *)
    split.
    { unfold add_node, buffer_head. solve_quiet. }
    pose proof (consistent_add_node (Action_node_id a) c Hc) as Hc1.
    unfold bind at 1.
    destruct (add_node (Action_node_id a) c) as [[e|p] c1] eqn:E1; [done|].
    assert (p = length (objs c) ∧ stack c1 = stack c ∧ buffer c1 = buffer c
            ∧ length (objs c1) = S (length (objs c))) as (-> & Hs1 & Hb1 & Hl1).
    { unfold add_node, bind, gets, modify, ret in E1. simpl in E1.
      injection E1 as <- <-. simpl. rewrite length_app. simpl. split; [done|].
      split; [done|]. split; [done|]. lia. }
    simpl in Hc1.
    unfold bind at 1, buffer_head, bind at 1, gets. simpl.
    destruct (buffer c1) as [|b bf] eqn:Eb; simpl; [done|].
    unfold bind at 1, Edge___init__, bind at 1, gets, bind at 1, modify, ret. simpl.
    unfold bind.
    match goal with
    | |- context [Edge_add depth ?e ?c2] =>
        pose proof (shape_Edge_add depth e c2) as Hsh;
        destruct (Edge_add depth e c2) as [[err|[]] c3]
    end; simpl in *.
    + eapply consistent_shape; [exact Hsh|]. done.
    + unfold shape in Hsh. simpl in Hsh. injection Hsh as Hi Hn Hs Hb.
      assert (length (objs c3) = S (length (objs c))) as Hl.
      { rewrite <- (length_fmap index (objs c3)), Hi, length_fmap. exact Hl1. }
      destruct Hc1 as (H1 & H2 & _ & _).
      destruct Hc as (_ & _ & H3 & H4). rewrite <- Hb1 in H3, H4.
      assert ((stack c ++ [length (objs c)]) ++ b :: bf
              ≡ₚ length (objs c) :: stack c ++ b :: bf) as Hp.
      { rewrite <- app_assoc. simpl. symmetry. apply Permutation_middle. }
      split; [|split; [|split]]; simpl.
      * apply indices_seq. rewrite Hi, Hl, <- Hl1. by apply indices_seq.
      * by rewrite Hn, Hl, <- Hl1.
      * rewrite Hs, Hb, Hs1, Eb, Hp. apply NoDup_cons. split; [|done].
        intros Hin. rewrite Forall_forall in H4. specialize (H4 _ Hin). lia.
      * rewrite Hs, Hb, Hs1, Eb, Hp, Hl. apply Forall_cons. split; [lia|].
        eapply Forall_impl; [done|]. simpl. lia.
  - (* EDGE *)
    split.
    { unfold stack_top, buffer_head. solve_quiet. }
    eapply consistent_shape; [|done].
    unfold stack_top, buffer_head. solve_shape.
  - (* REMOTE *)
    split.
    { unfold stack_top, buffer_head. solve_quiet. }
    eapply consistent_shape; [|done].
    unfold stack_top, buffer_head. solve_shape.
  - (* ROOT *)
    split.
    { unfold stack_pop. solve_quiet. }
    unfold bind at 1, gets.
    apply consistent_bind_shape; [by apply consistent_stack_pop|].
    intros s. solve_shape.
  - (* REDUCE *)
    split; [unfold stack_pop; solve_quiet|].
    apply consistent_bind_shape; [by apply consistent_stack_pop|].
    intros s. solve_shape.
  - (* SHIFT *)
    split.
    { apply quiet_bind; [apply quiet_gets|]. intros [|x bf]; solve_quiet. }
    unfold bind at 1, gets. destruct (buffer c) as [|x bf] eqn:Eb; simpl; [done|].
    pose proof Hc as (G1 & G2 & G3 & G4). rewrite Eb in G3, G4.
    apply (consistent_restack c (stack c ++ [x]) bf); [done|..].
    + by rewrite <- app_assoc.
    + by rewrite <- app_assoc.
  - (* SWAP *)
    split; [solve_quiet|].
    unfold bind at 1, gets. unfold bind.
    destruct (pop_second_last (stack c)) as [[y st]|] eqn:E; simpl; [|done].
    apply pop_second_last_Some in E as (r & x & E & ->).
    pose proof Hc as (G1 & G2 & G3 & G4). rewrite E in G3, G4.
    split; [done|]. split; [done|]. simpl.
    assert (((r ++ [x]) ++ [y]) ++ buffer c ≡ₚ (r ++ [y; x]) ++ buffer c) as Hp.
    { apply Permutation_app_tail. rewrite <- app_assoc.
      apply Permutation_app_head. simpl. apply perm_swap. }
    split; by rewrite Hp.
  - (* WRAP *)
    split; [solve_quiet|].
    destruct Hc as (G1 & G2 & G3 & G4).
    split; [done|]. split; [done|]. simpl.
    apply NoDup_app in G3 as (G3 & _). apply Forall_app in G4 as (G4 & _).
    done.
  - (* another action *)
    split; [solve_quiet|done].
Qed.
End parser_reach.

Section parser_reachable.
Import config invariants.

Lemma consistent_init passage passage_id :
  consistent (Configuration___init__ passage passage_id).
Proof.
  unfold Configuration___init__.
  set (toks := concat passage).
  set (c0 := mkConfiguration _ _ _ _ _ _ _ _ _).
  assert (consistent c0) as Hc0.
  { split; [|split; [|split]]; simpl.
    - intros r n Hn. rewrite list_lookup_imap in Hn.
      destruct (toks !! r); simpl in Hn; [|done]. by injection Hn as <-.
    - by rewrite length_seq, length_imap.
    - apply NoDup_seq.
    - apply Forall_seq. intros i Hi. rewrite length_imap. lia. }
  pose proof (consistent_add_node None c0 Hc0) as Hc1.
  destruct (add_node None c0) as [[e|r] c1]; [done|].
  simpl in Hc1. done.
Qed.

Lemma run_consistent depth l c : consistent c → consistent (run depth l c).
Proof.
  revert c. induction l as [|a l IH]; intros c Hc; [done|].
  simpl. apply IH. by apply apply_action_body.
Qed.


(** X5.  The assertion at the end of apply_action never fails: in no state
    reached from a plain text does an action raise the AssertionError
    "Stack and buffer overlap". *)
Theorem X5_overlap_assertion_never_fails (passage : list (list string))
  (passage_id : string) (depth : nat) (acts : list Action) (a : Action) :
  (apply_action depth a
     (run depth acts (Configuration___init__ passage passage_id))).1
  ≠ inl (AssertionError "Stack and buffer overlap").
Proof.
  apply apply_action_body. apply run_consistent, consistent_init.
Qed.
End parser_reachable.

Section parser_moves.
Import config invariants.

Lemma pop_last_app l x : pop_last (l ++ [x]) = Some (x, l).
Proof. unfold pop_last. rewrite reverse_app. simpl. by rewrite reverse_involutive. Qed.

Lemma pop_second_last_app l y x : pop_second_last (l ++ [y; x]) = Some (y, l ++ [x]).
Proof.
  unfold pop_second_last. rewrite reverse_app. simpl.
  by rewrite reverse_involutive.
Qed.

Lemma pop_last_short l : l = [] → pop_last l = None.
Proof. by intros ->. Qed.

Lemma pop_second_last_short l : length l < 2 → pop_second_last l = None.
Proof. destruct l as [|x [|y l]]; simpl; [done|done|lia]. Qed.

Lemma last_two (l : list nat) : 2 ≤ length l → ∃ r y x, l = r ++ [y; x].
Proof.
  intros Hl. destruct l as [|a l] using rev_ind; [simpl in Hl; lia|].
  clear IHl. destruct l as [|b l] using rev_ind.
  { simpl in Hl. lia. }
  clear IHl. exists l, b, a. by rewrite <- app_assoc.
Qed.

Ltac action_type H :=
  unfold apply_action; rewrite H;
  repeat (rewrite decide_False by done); rewrite decide_True by done.

Lemma apply_SWAP depth a c st y x :
  consistent c → Action_type a = "SWAP" → stack c = st ++ [y; x] →
  apply_action depth a c = (inr true, set_stack (st ++ [x; y]) c).
Proof.
  intros (G1 & G2 & G3 & G4) Ha Hs. action_type Ha. rewrite Hs in G3, G4.
  rewrite checked.
  - unfold bind, gets, modify. simpl. rewrite Hs, pop_second_last_app. simpl.
    by rewrite <- app_assoc.
  - solve_quiet.
  - unfold bind, gets, modify. simpl. rewrite Hs, pop_second_last_app. simpl.
    split; [done|]. split; [done|]. simpl.
    assert (((st ++ [x]) ++ [y]) ++ buffer c ≡ₚ (st ++ [y; x]) ++ buffer c) as Hp.
    { apply Permutation_app_tail. rewrite <- app_assoc.
      apply Permutation_app_head. simpl. apply perm_swap. }
    split; by rewrite Hp.
Qed.

(** X6.  An action that needs the top of an empty stack (EDGE, REMOTE,
    ROOT, REDUCE), the head of an empty buffer (EDGE, REMOTE, SHIFT) or the
    second item of a stack of less than two (SWAP) raises IndexError and
    leaves the Configuration as it was. *)
Theorem X6_action_on_empty_raises (depth : nat) (a : Action) (c : Configuration) :
  (Action_type a ∈ ["EDGE"; "REMOTE"; "ROOT"; "REDUCE"] ∧ stack c = [])
  ∨ (Action_type a ∈ ["EDGE"; "REMOTE"; "SHIFT"] ∧ buffer c = [])
  ∨ (Action_type a = "SWAP" ∧ length (stack c) < 2) →
  apply_action depth a c = (inl IndexError, c).
Proof.
  intros [[Ha Hs]|[[Ha Hb]|[Ha Hs]]].
  - repeat (apply elem_of_cons in Ha as [Ha|Ha]); [..|by apply elem_of_nil in Ha];
      action_type Ha;
      unfold bind, stack_top, stack_pop, bind, gets; simpl; by rewrite Hs.
  - repeat (apply elem_of_cons in Ha as [Ha|Ha]); [..|by apply elem_of_nil in Ha];
      action_type Ha;
      unfold bind, stack_top, buffer_head, bind, gets; simpl;
      destruct (last (stack c)); simpl; rewrite ?Hb; done.
  - action_type Ha. unfold bind, gets. simpl.
    by rewrite pop_second_last_short.
Qed.

(** X7.  NODE on an empty buffer raises IndexError after the new node was
    made: the node stays in self.nodes, with no edge, and is not on the
    stack. *)
Theorem X7_NODE_on_empty_buffer (depth : nat) (a : Action) (c : Configuration) :
  Action_type a = "NODE" → buffer c = [] →
  ∃ c', apply_action depth a c = (inl IndexError, c')
        ∧ nodes c' = nodes c ++ [length (objs c)]
        ∧ objs c' = objs c ++ [Node___init__ (length (nodes c)) None (Action_node_id a)]
        ∧ stack c' = stack c ∧ buffer c' = [].
Proof.
  intros Ha Hb. action_type Ha.
  eexists. unfold bind, add_node, buffer_head, bind, gets, modify, ret. simpl.
  rewrite Hb. simpl. done.
Qed.

(** X8.  In a consistent state the moves succeed: SHIFT with an item in
    the buffer, REDUCE with one on the stack, SWAP with two on the stack and
    WRAP return True, with the head of the buffer moved to the top of the
    stack, the top of the stack dropped, the two top items exchanged, and
    the stack made the buffer; nothing else changes. *)
Theorem X8_moves_succeed (depth : nat) (a : Action) (c : Configuration) :
  consistent c →
  (∀ x bf, Action_type a = "SHIFT" → buffer c = x :: bf →
     apply_action depth a c
     = (inr true, set_stack (stack c ++ [x]) (set_buffer bf c)))
  ∧ (∀ st x, Action_type a = "REDUCE" → stack c = st ++ [x] →
       apply_action depth a c = (inr true, set_stack st c))
  ∧ (∀ st y x, Action_type a = "SWAP" → stack c = st ++ [y; x] →
       apply_action depth a c = (inr true, set_stack (st ++ [x; y]) c))
  ∧ (Action_type a = "WRAP" →
       apply_action depth a c
       = (inr true, set_stack [] (set_buffer (stack c) c))).
Proof.
  intros Hc. pose proof Hc as (G1 & G2 & G3 & G4).
  split; [|split; [|split]].
  - intros x bf Ha Hb. action_type Ha. rewrite Hb in G3, G4.
    rewrite checked.
    + unfold bind, gets, modify. simpl. by rewrite Hb.
    + apply quiet_bind; [apply quiet_gets|]. intros [|y l]; solve_quiet.
    + unfold bind, gets, modify. simpl. rewrite Hb. simpl.
      apply (consistent_restack c (stack c ++ [x]) bf); [done|..];
        by rewrite <- app_assoc.
  - intros st x Ha Hs. action_type Ha.
    pose proof (consistent_stack_pop c Hc) as Hc'.
    assert (stack_pop c = (inr x, set_stack st c)) as E.
    { unfold stack_pop, bind, gets, modify. simpl. by rewrite Hs, pop_last_app. }
    rewrite E in Hc'. rewrite checked.
    + unfold bind at 1. by rewrite E.
    + unfold stack_pop. solve_quiet.
    + unfold bind at 1. by rewrite E.
  - intros st y x Ha Hs. by apply apply_SWAP.
  - intros Ha. action_type Ha. rewrite checked.
    + done.
    + solve_quiet.
    + split; [done|]. split; [done|]. simpl.
      apply NoDup_app in G3 as (G3 & _). apply Forall_app in G4 as (G4 & _).
      done.
Qed.

(** X9.  SWAP is its own inverse: in a consistent state with two items on
    the stack, two SWAP actions return True and leave the Configuration as
    it was. *)
Theorem X9_SWAP_twice (depth : nat) (a : Action) (c : Configuration) :
  Action_type a = "SWAP" → consistent c → 2 ≤ length (stack c) →
  (apply_action depth a ;;; apply_action depth a) c = (inr true, c).
Proof.
  intros Ha Hc Hl. destruct (last_two (stack c) Hl) as (r & y & x & Hs).
  unfold bind. rewrite (apply_SWAP depth a c r y x Hc Ha Hs).
  set (c1 := set_stack (r ++ [x; y]) c).
  assert (consistent c1) as Hc1.
  { pose proof (apply_action_body depth a c Hc) as [Hc1 _].
    by rewrite (apply_SWAP depth a c r y x Hc Ha Hs) in Hc1. }
  rewrite (apply_SWAP depth a c1 r x y Hc1 Ha eq_refl). f_equal.
  destruct c. simpl in *. by rewrite Hs.
Qed.
End parser_moves.

Section parser_moves_examples.
Import config examples invariants parser_examples.

Lemma X6_witness :
  apply_action 10 SWAP one_token = (inl IndexError, one_token).
Proof.
  apply (X6_action_on_empty_raises 10 SWAP one_token).
  right. right. split; [reflexivity|]. vm_compute. lia.
Defined.

Lemma X7_witness :
  ∃ c', apply_action 10 (NODE "A") shifted = (inl IndexError, c')
        ∧ nodes c' = nodes shifted ++ [length (objs shifted)]
        ∧ objs c' = objs shifted ++ [Node___init__ (length (nodes shifted)) None None]
        ∧ stack c' = stack shifted ∧ buffer c' = [].
Proof.
  apply (X7_NODE_on_empty_buffer 10 (NODE "A") shifted); reflexivity.
Defined.

Lemma X8_witness :
  apply_action 10 SWAP two_on_stack
  = (inr true, set_stack ([] ++ [1; 0]) two_on_stack).
Proof.
  destruct (X8_moves_succeed 10 SWAP two_on_stack) as (_ & _ & H & _).
  - apply run_consistent, consistent_init.
  - apply (H [] 0 1); reflexivity.
Defined.

Lemma X9_witness :
  (apply_action 10 SWAP ;;; apply_action 10 SWAP) two_on_stack
  = (inr true, two_on_stack).
Proof.
  apply (X9_SWAP_twice 10 SWAP two_on_stack).
  - reflexivity.
  - apply run_consistent, consistent_init.
  - vm_compute. lia.
Defined.
End parser_moves_examples.

(** ** Equality of transient nodes *)

Section node_equality.
Import config.

Lemma items_eq_sym (eq eq' : Edge → Edge → option bool) l1 l2 :
  (∀ x y, eq x y = eq' y x) → items_eq eq l1 l2 = items_eq eq' l2 l1.
Proof.
  intros Heq. revert l2.
  induction l1 as [|x l1 IH]; intros [|y l2]; simpl; try done.
  destruct (decide (eid x = eid y)), (decide (eid y = eid x)); try congruence.
  rewrite Heq. destruct (eq' y x) as [[]|]; [apply IH|done|done].
Qed.

Lemma list_eq_sym (eq eq' : Edge → Edge → option bool) l1 l2 :
  (∀ x y, eq x y = eq' y x) → list_eq eq l1 l2 = list_eq eq' l2 l1.
Proof.
  intros Heq. unfold list_eq.
  destruct (decide (length l1 = length l2)), (decide (length l2 = length l1));
    try congruence.
  by apply items_eq_sym.
Qed.

Lemma Edge_eq_with_sym (f f' : nat → nat → option bool) e1 e2 :
  (∀ a b, f a b = f' b a) → Edge_eq_with f e1 e2 = Edge_eq_with f' e2 e1.
Proof.
  intros Hf. unfold Edge_eq_with. rewrite Hf.
  destruct (f' (child e2) (child e1)) as [[]|]; [|done..].
  f_equal. f_equal; apply bool_decide_ext; split; congruence.
Qed.

(** X10.  The == of transient nodes and edges is symmetric: at any depth of
    the recursion, comparing a with b gives what comparing b with a gives,
    the interpreter giving up on the one when it does on the other. *)
Theorem X10_transient_equality_symmetric (depth : nat) (h : list Node) :
  (∀ a b, Node___eq__ depth h a b = Node___eq__ depth h b a)
  ∧ (∀ e1 e2, Edge___eq__ depth h e1 e2 = Edge___eq__ depth h e2 e1).
Proof.
  assert (∀ a b, Node___eq__ depth h a b = Node___eq__ depth h b a) as Hn.
  { induction depth as [|d IH]; intros a b; simpl; [done|].
    destruct (h !! a) as [na|], (h !! b) as [nb|]; try done.
    destruct (decide (text na = text nb)), (decide (text nb = text na));
      try congruence.
    apply list_eq_sym. intros x y. by apply Edge_eq_with_sym. }
  split; [done|]. intros e1 e2. by apply Edge_eq_with_sym.
Qed.
End node_equality.

(** ** Sorting by a total order *)

Section string_order.

Lemma String_compare_le_trans a b c :
  (a ?= b)%string ≠ Gt → (b ?= c)%string ≠ Gt → (a ?= c)%string ≠ Gt.
Proof.
  revert b c. induction a as [|x a IH]; intros [|y b] [|z c]; simpl; try done.
  unfold Ascii.compare.
  destruct (N.compare_spec (Ascii.N_of_ascii x) (Ascii.N_of_ascii y)) as [E|E|E];
    try done;
    destruct (N.compare_spec (Ascii.N_of_ascii y) (Ascii.N_of_ascii z))
      as [E'|E'|E']; try done; intros H1 H2.
  - rewrite E, E', N.compare_refl. by apply (IH b c).
  - rewrite E. by rewrite (proj2 (N.compare_lt_iff _ _) E').
  - rewrite <- E'. by rewrite (proj2 (N.compare_lt_iff _ _) E).
  - by rewrite (proj2 (N.compare_lt_iff _ _) (N.lt_trans _ _ _ E E')).
Qed.

Lemma String_leb_trans a b c :
  String.leb a b = true → String.leb b c = true → String.leb a c = true.
Proof.
  unfold String.leb. intros H1 H2.
  pose proof (String_compare_le_trans a b c) as H.
  destruct (a ?= b)%string, (b ?= c)%string, (a ?= c)%string; try done;
    exfalso; by apply H.
Qed.
End string_order.

Section sorted_by.
Context {A K : Type} (le : K → K → bool) (key : A → K).
Context (le_total : ∀ a b, le a b = true ∨ le b a = true)
        (le_trans : ∀ a b c, le a b = true → le b c = true → le a c = true).

Lemma insert_by_sorted_le x l :
  StronglySorted (λ a b, le (key a) (key b) = true) l →
  StronglySorted (λ a b, le (key a) (key b) = true) (insert_by le key x l).
Proof.
  induction 1 as [|y l Hs IH Hall]; simpl; [repeat constructor|].
  destruct (le (key x) (key y)) eqn:E.
  - constructor; [by constructor|].
    constructor; [done|]. eapply Forall_impl; [done|]. simpl.
    intros z Hz. by eapply le_trans.
  - constructor; [done|]. rewrite insert_by_perm. constructor; [|done].
    destruct (le_total (key x) (key y)) as [H|H]; [congruence|done].
Qed.

Lemma sort_by_sorted_le l :
  StronglySorted (λ a b, le (key a) (key b) = true) (sort_by le key l).
Proof.
  induction l as [|x l IH]; simpl; [constructor|]. by apply insert_by_sorted_le.
Qed.
End sorted_by.

(** ** Layers and nodes of a Passage *)

Section passage_members.
Import core api.

Lemma the_layer_Some p ID y :
  Passage__layers p !! ID = Some y → the_layer ID p = (inr y, p).
Proof. intros H. unfold the_layer. by rewrite H. Qed.

Lemma update_layer_Some p ID f y :
  Passage__layers p !! ID = Some y →
  update_layer ID f p = (inr tt, set_layers (<[ID := f y]> (Passage__layers p)) p).
Proof. intros H. unfold update_layer, bind. by rewrite (the_layer_Some p ID y H). Qed.

Lemma Passage_layer_Some p ID y :
  Passage__layers p !! ID = Some y → Passage_layer ID p = (inr ID, p).
Proof. intros H. unfold Passage_layer. by rewrite H. Qed.

(** X11.  Making a Layer in a Passage that is not frozen: with an ID that a
    Layer of the Passage has, DuplicateIdError is raised and the Passage is
    as it was; with a new ID, the Layer is the one that passage.layer(ID)
    returns, its all and heads are empty, and the other Layers are as they
    were. *)
Theorem X11_Layer_creation (p : Passage) (ID : string)
  (attrib : option (gmap string string)) (orderkey : NodeKey) :
  frozen p = false →
  match Passage__layers p !! ID with
  | Some _ => Layer___init__ ID attrib orderkey p = (inl DuplicateIdError, p)
  | None =>
      let p' := set_layers (<[ID := mkLayer (default emp attrib) [] [] orderkey]>
                              (Passage__layers p)) p in
      Layer___init__ ID attrib orderkey p = (inr ID, p')
      ∧ Passage_layer ID p' = (inr ID, p')
      ∧ Layer_all ID p' = (inr [], p') ∧ Layer_heads ID p' = (inr [], p')
      ∧ ∀ ID', ID' ≠ ID → Passage__layers p' !! ID' = Passage__layers p !! ID'
  end.
Proof.
  intros Hf. unfold Layer___init__, Passage__add_layer, ModifyPassage.
  unfold bind, gets. simpl. rewrite Hf.
  destruct (Passage__layers p !! ID) as [y|] eqn:E; simpl; rewrite Hf; [done|].
  split; [done|].
  assert (Passage__layers
            (set_layers (<[ID:=mkLayer (default emp attrib) [] [] orderkey]>
                           (Passage__layers p)) p) !! ID
          = Some (mkLayer (default emp attrib) [] [] orderkey)) as E'.
  { simpl. apply lookup_insert_eq. }
  split; [by eapply Passage_layer_Some|].
  unfold Layer_all, Layer_heads, bind.
  rewrite (the_layer_Some _ _ _ E'). split; [done|]. split; [done|].
  intros ID' Hne. simpl. by apply lookup_insert_ne.
Qed.

Lemma Layer__add_node_effect p ID y r :
  Passage__layers p !! ID = Some y →
  Layer__add_node ID r p
  = (inr tt,
     set_layers
       (<[ID := mkLayer (Layer_attrib y)
                  (sort_by String.leb (node_sortkey p (Layer_orderkey y))
                           (Layer__all y ++ [r]))
                  (sort_by String.leb (node_sortkey p (Layer_orderkey y))
                           (Layer__heads y ++ [r]))
                  (Layer_orderkey y)]> (Passage__layers p)) p).
Proof.
  intros Hy. unfold Layer__add_node.
  erewrite bind_inr by (by apply the_layer_Some).
  erewrite bind_inr by (by apply update_layer_Some).
  erewrite bind_inr by (apply the_layer_Some; simpl; apply lookup_insert_eq).
  unfold sort_nodes at 1. unfold bind at 1, gets at 1.
  erewrite bind_inr by (apply update_layer_Some; simpl; apply lookup_insert_eq).
  erewrite bind_inr by (apply the_layer_Some; simpl; apply lookup_insert_eq).
  erewrite bind_inr by (apply update_layer_Some; simpl; apply lookup_insert_eq).
  erewrite bind_inr by (apply the_layer_Some; simpl; apply lookup_insert_eq).
  unfold sort_nodes at 1. unfold bind at 1, gets at 1.
  erewrite update_layer_Some by (simpl; apply lookup_insert_eq).
  simpl. by rewrite !insert_insert_eq.
Qed.
End passage_members.

Section node_creation.
Import core api.

Lemma new_node_registered p ID tag attrib orderkey :
  frozen p = false →
  let N := mkNode ID tag (default emp attrib) [] [] orderkey in
  let r := length (node_objs p) in
  let p1 := set_node_objs (node_objs p ++ [N]) p in
  ∀ B (k : NodeRef → M Passage B),
    (r' <- Node___init__ ID tag attrib orderkey ;; k r') p
    = match Passage__nodes p !! ID with
      | Some _ => (inl DuplicateIdError, p1)
      | None =>
          let p2 := set_nodes (<[ID := r]> (Passage__nodes p)) p1 in
          match Passage__layers p !! id_layer ID with
          | None => (inl KeyError, p2)
          | Some y => (Layer__add_node (id_layer ID) r ;;; k r) p2
          end
      end.
Proof.
  intros Hf N r p1 B k.
  assert ((node_objs p ++ [N]) !! r = Some N) as Hr.
  { rewrite lookup_app_r by done. by rewrite Nat.sub_diag. }
  unfold Node___init__, Passage__add_node, ModifyPassage, Node_layer,
    the_node, Passage_layer.
  unfold bind, gets, modify, ret, raise, lift. simpl. rewrite Hf.
  fold N r p1. simpl. rewrite Hf, Hr. simpl.
  destruct (Passage__nodes p !! ID) as [r0|] eqn:En; simpl; [done|].
  rewrite Hr. simpl.
  destruct (Passage__layers p !! id_layer ID) as [y|] eqn:Ey; simpl; [|done].
  rewrite Ey. simpl.
  by destruct (Layer__add_node _ _ _) as [[e|[]] p3].
Qed.

Lemma bind_ret_r {S A} (m : M S A) s : (x <- m ;; ret x) s = m s.
Proof. unfold bind, ret. by destruct (m s) as [[e|a] s']. Qed.

(** X12.  Making a Node whose ID names a Layer that the Passage does not
    have raises KeyError after the Node was entered in the Passage: the ID
    stays taken, and making a Node of that ID again raises
    DuplicateIdError. *)
Theorem X12_Node_in_missing_layer (p : Passage) (ID : NodeID) (tag : string)
  (attrib : option (gmap string string)) (orderkey : EdgeKey) :
  frozen p = false →
  Passage__nodes p !! ID = None →
  Passage__layers p !! id_layer ID = None →
  ∃ p', Node___init__ ID tag attrib orderkey p = (inl KeyError, p')
        ∧ Passage__nodes p' = <[ID := length (node_objs p)]> (Passage__nodes p)
        ∧ Passage__layers p' = Passage__layers p
        ∧ ∀ tag' attrib' orderkey',
            (Node___init__ ID tag' attrib' orderkey' p').1 = inl DuplicateIdError.
Proof.
  intros Hf Hn Hl. eexists. rewrite <- bind_ret_r.
  rewrite new_node_registered by done. rewrite Hn, Hl.
  split; [done|]. split; [done|]. split; [done|].
  intros tag' attrib' orderkey'. rewrite <- bind_ret_r.
  rewrite new_node_registered by done. simpl. by rewrite lookup_insert_eq.
Qed.

(** X13.  Making a Node of a new ID in a Layer of the Passage returns it,
    entered in the Passage under its ID and added to all and to heads of
    its Layer, which are sorted by the key of the Layer; it has no edge, and
    the Nodes, the Edges and the other Layers are as they were. *)
Theorem X13_Node_creation (p : Passage) (ID : NodeID) (tag : string)
  (attrib : option (gmap string string)) (orderkey : EdgeKey) (y : Layer) :
  frozen p = false →
  Passage__nodes p !! ID = None →
  Passage__layers p !! id_layer ID = Some y →
  ∃ p' y',
    let r := length (node_objs p) in
    let le := λ a b, String.leb (node_sortkey p' (Layer_orderkey y) a)
                                (node_sortkey p' (Layer_orderkey y) b) = true in
    Node___init__ ID tag attrib orderkey p = (inr r, p')
    ∧ node_objs p' = node_objs p ++ [mkNode ID tag (default emp attrib) [] [] orderkey]
    ∧ edge_objs p' = edge_objs p
    ∧ Passage__nodes p' = <[ID := r]> (Passage__nodes p)
    ∧ Passage__layers p' = <[id_layer ID := y']> (Passage__layers p)
    ∧ Layer__all y' ≡ₚ r :: Layer__all y
    ∧ Layer__heads y' ≡ₚ r :: Layer__heads y
    ∧ StronglySorted le (Layer__all y')
    ∧ StronglySorted le (Layer__heads y').
Proof.
  intros Hf Hn Hl.
  set (r := length (node_objs p)).
  set (p2 := set_nodes (<[ID := r]> (Passage__nodes p))
               (set_node_objs
                  (node_objs p ++ [mkNode ID tag (default emp attrib) [] [] orderkey])
                  p)).
  set (y' := mkLayer (Layer_attrib y)
               (sort_by String.leb (node_sortkey p2 (Layer_orderkey y))
                        (Layer__all y ++ [r]))
               (sort_by String.leb (node_sortkey p2 (Layer_orderkey y))
                        (Layer__heads y ++ [r]))
               (Layer_orderkey y)).
  exists (set_layers (<[id_layer ID := y']> (Passage__layers p)) p2), y'.
  split.
  { rewrite <- bind_ret_r. rewrite new_node_registered by done. rewrite Hn, Hl.
    unfold bind. fold r p2. by erewrite Layer__add_node_effect by exact Hl. }
  split; [done|]. split; [done|]. split; [done|]. split; [done|].
  split; [simpl; by rewrite sort_by_perm, Permutation_app_comm|].
  split; [simpl; by rewrite sort_by_perm, Permutation_app_comm|].
  split; apply (sort_by_sorted_le String.leb (node_sortkey p2 (Layer_orderkey y)));
    first [apply String.leb_total | apply String_leb_trans].
Qed.

(** X14.  Making a Node of an ID that a Node of the Passage has raises
    DuplicateIdError: the dictionaries of the Passage, the Layers and the
    Edges are as they were. *)
Theorem X14_Node_duplicate_ID (p : Passage) (ID : NodeID) (tag : string)
  (attrib : option (gmap string string)) (orderkey : EdgeKey) :
  frozen p = false →
  is_Some (Passage__nodes p !! ID) →
  ∃ p', Node___init__ ID tag attrib orderkey p = (inl DuplicateIdError, p')
        ∧ Passage__nodes p' = Passage__nodes p
        ∧ Passage__layers p' = Passage__layers p
        ∧ edge_objs p' = edge_objs p
        ∧ ∀ r, r < length (node_objs p) → node_objs p' !! r = node_objs p !! r.
Proof.
  intros Hf [r0 Hn]. eexists. rewrite <- bind_ret_r.
  rewrite new_node_registered by done. rewrite Hn.
  split; [done|]. split; [done|]. split; [done|]. split; [done|].
  intros r Hr. simpl. by rewrite lookup_app_l.
Qed.
End node_creation.

Section passage_members_examples.
Import core api.

Lemma X11_witness : (Layer___init__ "1" None id_orderkey empty).1 = inr "1".
Proof.
  pose proof (X11_Layer_creation empty "1" None id_orderkey eq_refl) as H.
  change (Passage__layers empty !! "1") with (@None Layer) in H.
  destruct H as [H _]. rewrite H. reflexivity.
Defined.

Lemma X12_witness :
  ∃ p', Node___init__ (mkID "1" "1") "t" None edge_id_orderkey empty
        = (inl KeyError, p')
        ∧ Passage__nodes p' = <[mkID "1" "1" := 0]> (Passage__nodes empty)
        ∧ Passage__layers p' = Passage__layers empty
        ∧ ∀ tag' attrib' orderkey',
            (Node___init__ (mkID "1" "1") tag' attrib' orderkey' p').1
            = inl DuplicateIdError.
Proof.
  apply (X12_Node_in_missing_layer empty (mkID "1" "1") "t" None edge_id_orderkey);
    reflexivity.
Defined.

Lemma X13_witness :
  ∃ p' y', Node___init__ (mkID "1" "4") "t" None edge_id_orderkey three_nodes
           = (inr 3, p')
           ∧ Passage__layers p' !! "1" = Some y'
           ∧ Layer__all y' ≡ₚ [3; 0; 1; 2].
Proof.
  destruct (X13_Node_creation three_nodes (mkID "1" "4") "t" None edge_id_orderkey
              (default (mkLayer ∅ [] [] id_orderkey)
                       (Passage__layers three_nodes !! "1")))
    as (p' & y' & H1 & _ & _ & _ & H2 & H3 & _).
  - reflexivity.
  - reflexivity.
  - vm_compute. reflexivity.
  - exists p', y'. split; [exact H1|]. split.
    + rewrite H2. apply lookup_insert_eq.
    + exact H3.
Defined.

Lemma X14_witness :
  ∃ p', Node___init__ (mkID "1" "2") "t" None edge_id_orderkey three_nodes
        = (inl DuplicateIdError, p')
        ∧ Passage__nodes p' = Passage__nodes three_nodes.
Proof.
  destruct (X14_Node_duplicate_ID three_nodes (mkID "1" "2") "t" None
              edge_id_orderkey) as (p' & H1 & H2 & _).
  - reflexivity.
  - vm_compute. by eexists.
  - exists p'. split; [exact H1|exact H2].
Defined.
End passage_members_examples.

(** ** Attribute dictionaries *)

Ltac other_dict :=
  simpl;
  unfold bind, core.the_layer, core.the_node, core.the_edge, modify, lift, ret, raise;
  simpl;
  rewrite ?lookup_insert_ne by congruence;
  rewrite ?list_lookup_insert_ne by congruence;
  repeat (match goal with
          | |- context [match ?o with Some _ => _ | None => _ end] => destruct o
          end; simpl);
  reflexivity.

Section attribute_dict.
Import core api.

(** The dictionary of an element that there is, and the state after it is
    replaced. *)
Lemma dict_of p el d :
  AttributeDict__dict el p = (inr d, p) →
  ∀ d', ∃ p',
    AttributeDict__set_dict el d' p = (inr tt, p')
    ∧ AttributeDict__dict el p' = (inr d', p')
    ∧ frozen p' = frozen p
    ∧ ∀ el', el' ≠ el → (AttributeDict__dict el' p').1 = (AttributeDict__dict el' p).1.
Proof.
  intros Hd d'. destruct el as [|ID|r|r]; simpl in *.
  - exists (set_attrib d' p).
    split; [reflexivity|]. split; [reflexivity|]. split; [reflexivity|].
    intros [|ID'|r'|r'] Hne; try (by destruct Hne); other_dict.
  - unfold bind, the_layer in Hd.
    destruct (Passage__layers p !! ID) as [y|] eqn:E; [|done].
    eexists. rewrite (update_layer_Some p ID _ y E).
    split; [reflexivity|]. split.
    { unfold bind, the_layer. simpl. by rewrite lookup_insert_eq. }
    split; [reflexivity|].
    intros [|ID'|r'|r'] Hne; try (by destruct Hne); other_dict.
  - unfold bind, the_node in Hd.
    destruct (node_objs p !! r) as [n|] eqn:E; [|done].
    eexists. rewrite (update_node_Some p r _ n E).
    split; [reflexivity|]. split.
    { unfold bind, the_node. simpl.
      rewrite list_lookup_insert_eq by (by eapply lookup_lt_Some). done. }
    split; [reflexivity|].
    intros [|ID'|r'|r'] Hne; try (by destruct Hne); other_dict.
  - unfold bind, the_edge in Hd.
    destruct (edge_objs p !! r) as [e|] eqn:E; [|done].
    eexists. unfold bind. rewrite (the_edge_Some p r e E).
    split; [reflexivity|]. split.
    { unfold bind, the_edge, modify. simpl.
      rewrite list_lookup_insert_eq by (by eapply lookup_lt_Some). done. }
    split; [reflexivity|].
    intros [|ID'|r'|r'] Hne; try (by destruct Hne); other_dict.
Qed.

(** X15.  On a Passage that is not frozen, after attrib[key] = value on an
    element, attrib[key] is value, the dictionary is the old one with that
    entry, and the dictionaries of the other elements are as they were. *)
Theorem X15_attribute_set_then_get (p : Passage) (el : Element)
  (key value : string) (d : gmap string string) :
  frozen p = false →
  AttributeDict__dict el p = (inr d, p) →
  ∃ p', AttributeDict___setitem__ el key value p = (inr tt, p')
        ∧ AttributeDict___getitem__ el key p' = (inr value, p')
        ∧ AttributeDict_copy el p' = (inr (<[key := value]> d), p')
        ∧ (∀ default, AttributeDict_get el key default p' = (inr (Some value), p'))
        ∧ ∀ el', el' ≠ el →
            (AttributeDict_copy el' p').1 = (AttributeDict_copy el' p).1.
Proof.
  intros Hf Hd.
  destruct (dict_of p el d Hd (<[key := value]> d)) as (p' & Hs & Hd' & _ & Hfr).
  exists p'. split.
  { unfold AttributeDict___setitem__, ModifyPassage. rewrite Hf.
    unfold bind at 1 2. rewrite Hd. by rewrite Hs. }
  unfold AttributeDict___getitem__, AttributeDict_get, AttributeDict_copy, bind.
  rewrite Hd'. simpl. rewrite lookup_insert_eq. done.
Qed.

(** X16.  On a Passage that is not frozen, del attrib[key] of a key that
    the dictionary has not raises KeyError and changes nothing; of a key
    that it has, it removes the entry: attrib[key] raises KeyError then,
    get returns the default, and the length is one less. *)
Theorem X16_attribute_delete (p : Passage) (el : Element) (key : string)
  (d : gmap string string) :
  frozen p = false →
  AttributeDict__dict el p = (inr d, p) →
  match d !! key with
  | None => AttributeDict___delitem__ el key p = (inl KeyError, p)
  | Some _ =>
      ∃ p', AttributeDict___delitem__ el key p = (inr tt, p')
            ∧ AttributeDict___getitem__ el key p' = (inl KeyError, p')
            ∧ (∀ default, AttributeDict_get el key default p' = (inr default, p'))
            ∧ AttributeDict_copy el p' = (inr (delete key d), p')
            ∧ (AttributeDict___len__ el p).1 = inr (S (size (delete key d)))
            ∧ AttributeDict___len__ el p' = (inr (size (delete key d)), p')
  end.
Proof.
  intros Hf Hd. destruct (d !! key) as [v|] eqn:E.
  - destruct (dict_of p el d Hd (delete key d)) as (p' & Hs & Hd' & _ & _).
    exists p'. split.
    { unfold AttributeDict___delitem__, ModifyPassage. rewrite Hf.
      unfold bind at 1 2. rewrite Hd, E. by rewrite Hs. }
    unfold AttributeDict___getitem__, AttributeDict_get, AttributeDict_copy,
      AttributeDict___len__, bind.
    rewrite Hd', Hd. simpl. rewrite lookup_delete_eq. simpl.
    repeat (split; [done|]). split; [|done].
    f_equal. rewrite <- (insert_delete_id d key v E) at 1.
    rewrite map_size_insert_None by apply lookup_delete_eq. done.
  - unfold AttributeDict___delitem__, ModifyPassage. rewrite Hf.
    unfold bind at 1 2. by rewrite Hd, E.
Qed.
End attribute_dict.

Section attribute_dict_examples.
Import core api.

Lemma X15_witness :
  ∃ p', AttributeDict___setitem__ (TheNode 0) "k" "v" three_nodes = (inr tt, p')
        ∧ AttributeDict___getitem__ (TheNode 0) "k" p' = (inr "v", p').
Proof.
  destruct (X15_attribute_set_then_get three_nodes (TheNode 0) "k" "v" ∅)
    as (p' & H1 & H2 & _).
  - reflexivity.
  - reflexivity.
  - exists p'. split; [exact H1|exact H2].
Defined.

Lemma X16_witness :
  AttributeDict___delitem__ (TheNode 0) "k" three_nodes
  = (inl KeyError, three_nodes).
Proof.
  pose proof (X16_attribute_delete three_nodes (TheNode 0) "k" ∅ eq_refl eq_refl)
    as H.
  exact H.
Defined.
End attribute_dict_examples.

(** ** Removing what is not there, and a node without edges *)

Section remove_destroy.
Import core api.

Lemma filter_zip_absent (l : list EdgeRef) (cs : list NodeRef) (c : NodeRef) :
  c ∉ cs → filter (λ ec, ec.2 = c) (zip l cs) = [].
Proof.
  revert cs. induction l as [|e l IH]; intros [|c' cs] Hc; simpl; try done.
  apply not_elem_of_cons in Hc as [Hne Hc].
  rewrite filter_cons_False by (simpl; congruence). by apply IH.
Qed.

(** X17.  On a Passage that is not frozen, remove of an Edge that is not
    among the outgoing edges of the node, or of a Node that is not among its
    children, raises MissingNodeError and changes nothing. *)
Theorem X17_remove_what_is_not_there (p : Passage) (self : NodeRef)
  (x : EdgeRef + NodeRef) (n : Node) :
  frozen p = false →
  node_objs p !! self = Some n →
  match x with
  | inl e => e ∉ Node_outgoing n
  | inr c => ∃ cs, Node_children self p = (inr cs, p) ∧ c ∉ cs
  end →
  Node_remove self x p = (inl MissingNodeError, p).
Proof.
  intros Hf Hn Hx. unfold Node_remove, ModifyPassage. rewrite Hf.
  unfold bind at 1 2. rewrite (the_node_Some p self n Hn).
  destruct x as [e|c].
  - unfold bind at 1. by rewrite decide_False.
  - destruct Hx as (cs & Hcs & Hc). unfold bind at 1 2. rewrite Hcs.
    by rewrite filter_zip_absent.
Qed.

Lemma destroy_outgoing_none p self n k :
  node_objs p !! self = Some n → Node_outgoing n = [] →
  destroy_outgoing (S k) self 0 p = (inr tt, p).
Proof.
  intros Hn Ho. simpl. unfold bind. rewrite (the_node_Some p self n Hn).
  by rewrite Ho.
Qed.

Lemma destroy_incoming_none p self n k :
  node_objs p !! self = Some n → Node_incoming n = [] →
  destroy_incoming (S k) self 0 p = (inr tt, p).
Proof.
  intros Hn Hi. simpl. unfold bind. rewrite (the_node_Some p self n Hn).
  by rewrite Hi.
Qed.

(** X18.  destroy of a Node without edges, which is in all and in heads of
    its Layer and in the Passage, succeeds: the Node is taken out of all, of
    heads and of the dictionary of the Passage, and nothing else changes. *)
Theorem X18_destroy_node_without_edges (p : Passage) (self : NodeRef)
  (n : Node) (y : Layer) :
  frozen p = false →
  node_objs p !! self = Some n →
  Node_outgoing n = [] → Node_incoming n = [] →
  Passage__layers p !! id_layer (Node_ID n) = Some y →
  self ∈ Layer__all y → self ∈ Layer__heads y →
  is_Some (Passage__nodes p !! Node_ID n) →
  ∃ p' all' heads',
    Node_destroy self p = (inr tt, p')
    ∧ Layer__all y ≡ₚ self :: all'
    ∧ Layer__heads y ≡ₚ self :: heads'
    ∧ Passage__layers p'
      = <[id_layer (Node_ID n) := with_heads heads' (with_all all' y)]>
          (Passage__layers p)
    ∧ Passage__nodes p' = delete (Node_ID n) (Passage__nodes p)
    ∧ node_objs p' = node_objs p ∧ edge_objs p' = edge_objs p.
Proof.
  intros Hf Hn Ho Hi Hy Ha Hh [r0 Hr].
  destruct (list_remove_elem_of self (Layer__all y) Ha) as [all' Ea].
  destruct (list_remove_elem_of self (Layer__heads y) Hh) as [heads' Eh].
  set (L := id_layer (Node_ID n)) in *.
  set (p1 := set_layers (<[L := with_all all' y]> (Passage__layers p)) p).
  set (p2 := set_layers (<[L := with_heads heads' (with_all all' y)]>
                           (Passage__layers p1)) p1).
  exists (set_nodes (delete (Node_ID n) (Passage__nodes p)) p2), all', heads'.
  assert (Node_layer self p = (inr L, p)) as El.
  { unfold Node_layer, bind. rewrite (the_node_Some p self n Hn).
    by apply (Passage_layer_Some p L y). }
  assert (Layer__remove_node L self p = (inr tt, p2)) as E.
  { unfold Layer__remove_node.
    erewrite bind_inr by (by apply the_layer_Some).
    rewrite Ea. unfold lift at 1, bind at 1, ret at 1.
    erewrite bind_inr by (by apply update_layer_Some).
    fold p1.
    erewrite bind_inr by (apply the_layer_Some; simpl; apply lookup_insert_eq).
    simpl. rewrite Eh. unfold lift at 1, bind at 1, ret at 1.
    erewrite update_layer_Some by (simpl; apply lookup_insert_eq).
    reflexivity. }
  assert (Passage__remove_node self p2
          = (inr tt, set_nodes (delete (Node_ID n) (Passage__nodes p)) p2)) as Er.
  { unfold Passage__remove_node.
    erewrite bind_inr by (by apply the_node_Some).
    unfold bind, gets. simpl. by rewrite Hr. }
  split.
  { unfold Node_destroy, ModifyPassage. rewrite Hf.
    erewrite bind_inr; [reflexivity|].
    erewrite bind_inr by (by apply the_node_Some).
    erewrite bind_inr by (by apply (destroy_outgoing_none p self n)).
    erewrite bind_inr by (by apply the_node_Some).
    erewrite bind_inr by (by apply (destroy_incoming_none p self n)).
    erewrite bind_inr by exact El.
    erewrite bind_inr by exact E.
    exact Er. }
  split; [by apply list_remove_perm|]. split; [by apply list_remove_perm|].
  split; [simpl; by rewrite insert_insert_eq|].
  done.
Qed.

Lemma sort_nodes_eq k l p :
  sort_nodes k l p = (inr (sort_by String.leb (node_sortkey p k) l), p).
Proof. done. Qed.

(** X19.  Setting the orderkey of a Layer sorts all and heads by the new
    key, keeping their items, and changes nothing else.  The setter is not
    guarded: it does so on a frozen Passage too. *)
Theorem X19_Layer_orderkey_setter (p : Passage) (ID : string) (y : Layer)
  (value : NodeKey) :
  Passage__layers p !! ID = Some y →
  ∃ y',
    let le := λ a b, String.leb (node_sortkey p value a)
                                (node_sortkey p value b) = true in
    Layer_set_orderkey ID value p
    = (inr tt, set_layers (<[ID := y']> (Passage__layers p)) p)
    ∧ Layer_orderkey y' = value
    ∧ Layer_attrib y' = Layer_attrib y
    ∧ Layer__all y' ≡ₚ Layer__all y
    ∧ Layer__heads y' ≡ₚ Layer__heads y
    ∧ StronglySorted le (Layer__all y')
    ∧ StronglySorted le (Layer__heads y').
Proof.
  intros Hy.
  exists (mkLayer (Layer_attrib y)
            (sort_by String.leb (node_sortkey p value) (Layer__all y))
            (sort_by String.leb (node_sortkey p value) (Layer__heads y))
            value).
  split.
  { unfold Layer_set_orderkey.
    erewrite bind_inr by (by apply update_layer_Some).
    erewrite bind_inr by (apply the_layer_Some; simpl; apply lookup_insert_eq).
    erewrite bind_inr by apply sort_nodes_eq.
    erewrite bind_inr by (apply update_layer_Some; simpl; apply lookup_insert_eq).
    erewrite bind_inr by apply sort_nodes_eq.
    erewrite update_layer_Some by (simpl; apply lookup_insert_eq).
    simpl. by rewrite !insert_insert_eq. }
  split; [done|]. split; [done|]. simpl.
  split; [apply sort_by_perm|]. split; [apply sort_by_perm|].
  split; apply (sort_by_sorted_le String.leb (node_sortkey p value));
    first [apply String.leb_total | apply String_leb_trans].
Qed.
End remove_destroy.

Section remove_destroy_examples.
Import core api.

Lemma X17_witness :
  Node_remove 0 (inr 1) three_nodes = (inl MissingNodeError, three_nodes).
Proof.
  apply (X17_remove_what_is_not_there three_nodes 0 (inr 1)
           (mkNode (mkID "1" "1") "t" emp [] [] edge_id_orderkey)).
  - reflexivity.
  - reflexivity.
  - exists []. split; [reflexivity|]. intros H. inversion H.
Defined.

Lemma X18_witness :
  ∃ p' all' heads',
    Node_destroy 2 three_nodes = (inr tt, p')
    ∧ [0; 1; 2] ≡ₚ 2 :: all' ∧ [0; 1; 2] ≡ₚ 2 :: heads'
    ∧ Passage__nodes p' = delete (mkID "1" "3") (Passage__nodes three_nodes).
Proof.
  destruct (X18_destroy_node_without_edges three_nodes 2
              (mkNode (mkID "1" "3") "t" emp [] [] edge_id_orderkey)
              (mkLayer emp [0; 1; 2] [0; 1; 2] id_orderkey))
    as (p' & all' & heads' & H1 & H2 & H3 & _ & H4 & _).
  - reflexivity.
  - reflexivity.
  - reflexivity.
  - reflexivity.
  - reflexivity.
  - simpl. rewrite !elem_of_cons. auto.
  - simpl. rewrite !elem_of_cons. auto.
  - vm_compute. eexists. reflexivity.
  - exists p', all', heads'.
    split; [exact H1|]. split; [exact H2|]. split; [exact H3|exact H4].
Defined.

Lemma X19_witness :
  frozen frozen_example = true
  ∧ ∃ y', Layer_set_orderkey "1" id_unique frozen_example
          = (inr tt, set_layers (<["1" := y']> (Passage__layers frozen_example))
                                frozen_example)
          ∧ Layer_orderkey y' = id_unique.
Proof.
  split; [reflexivity|].
  destruct (X19_Layer_orderkey_setter frozen_example "1"
              (default (mkLayer emp [] [] id_orderkey)
                       (Passage__layers frozen_example !! "1")) id_unique)
    as (y' & H1 & H2 & _).
  - vm_compute. reflexivity.
  - exists y'. split; [exact H1|exact H2].
Defined.
End remove_destroy_examples.

(** ** The finalizer does not look at the stack and the buffer *)

Section blind_steps.
Import config finalizer.

Lemma blind_ret {A} (a : A) : blind (ret a).
Proof. done. Qed.
Lemma blind_raise {A} e : blind (raise (A:=A) e).
Proof. done. Qed.
Lemma blind_lift {A} e (o : option A) : blind (lift e o).
Proof. by destruct o. Qed.
Lemma blind_assert b msg : blind (assert b msg).
Proof. by destruct b. Qed.
Lemma blind_gets {A} (f : Configuration → A) :
  (∀ st bf c, f (restack st bf c) = f c) → blind (gets f).
Proof. intros Hf st bf c. unfold gets. simpl. by rewrite Hf. Qed.
Lemma blind_modify g :
  (∀ st bf c, g (restack st bf c) = restack st bf (g c)) → blind (modify g).
Proof. intros Hg st bf c. unfold modify. simpl. by rewrite Hg. Qed.
Lemma blind_bind {A B} (m : M Configuration A) (k : A → M Configuration B) :
  blind m → (∀ a, blind (k a)) → blind (bind m k).
Proof.
  intros Hm Hk st bf c. unfold bind. rewrite Hm.
  destruct (m c) as [[e|a] c1]; simpl; [done|]. apply Hk.
Qed.
Lemma blind_the r : blind (the r).
Proof. intros st bf c. unfold the. simpl. by destruct (objs c !! r). Qed.
Lemma blind_update r f : blind (update r f).
Proof.
  intros st bf c. unfold update, bind, the, modify. simpl.
  by destruct (objs c !! r).
Qed.
Lemma blind_mapM' {A B} (f : A → M Configuration B) l :
  (∀ x, blind (f x)) → blind (mapM' f l).
Proof.
  intros Hf. induction l as [|x l IH]; simpl; [apply blind_ret|].
  apply blind_bind; [apply Hf|]. intros y.
  apply blind_bind; [apply IH|]. intros ys. apply blind_ret.
Qed.
Lemma blind_forM_ {A} (f : A → M Configuration unit) l :
  (∀ x, blind (f x)) → blind (forM_ l f).
Proof.
  intros Hf. induction l as [|x l IH]; simpl; [apply blind_ret|].
  apply blind_bind; [apply Hf|]. intros _. apply IH.
Qed.

Lemma blind_edge_key depth q : blind (edge_key depth q).
Proof.
  unfold edge_key. apply blind_bind; [apply blind_the|]. intros n.
  destruct (node_index n) as [[|k]|]; try apply blind_ret.
  - intros st bf c. simpl. by destruct (list_index depth (objs c) (nodes c) q 0).
  - intros st bf c. simpl. by destruct (list_index depth (objs c) (nodes c) q 0).
Qed.

Lemma blind_sort_edges depth end_ l : blind (sort_edges depth end_ l).
Proof.
  unfold sort_edges. apply blind_bind.
  - apply blind_mapM'. intros e. apply blind_edge_key.
  - intros ks. apply blind_ret.
Qed.

Lemma blind_topological_sort fuel depth : blind (topological_sort fuel depth).
Proof.
  unfold topological_sort.
  apply blind_bind; [by apply blind_gets|]. intros h.
  apply blind_bind; [by apply blind_gets|]. intros ns.
  destruct (assign_levels _ _ _ _ _) as [e|[lbi lv]]; [apply blind_raise|].
  apply blind_bind; [by apply blind_modify|]. intros _.
  apply blind_bind; [by apply blind_gets|]. intros ns'.
  apply blind_forM_. intros r.
  apply blind_bind; [apply blind_the|]. intros n.
  apply blind_bind; [apply blind_sort_edges|]. intros l.
  apply blind_bind; [apply blind_update|]. intros _.
  apply blind_bind; [apply blind_the|]. intros n'.
  apply blind_bind; [apply blind_sort_edges|]. intros l'.
  apply blind_update.
Qed.
End blind_steps.

Section blind_passage.
Import config finalizer.
Context {P : Type} (B : Builder P).

Lemma blind2_ret {A} (a : A) : blind2 (P:=P) (ret a).
Proof. done. Qed.
Lemma blind2_raise {A} e : blind2 (P:=P) (raise (A:=A) e).
Proof. done. Qed.
Lemma blind2_lift {A} e (o : option A) : blind2 (P:=P) (lift e o).
Proof. by destruct o. Qed.
Lemma blind2_assert b msg : blind2 (P:=P) (assert b msg).
Proof. by destruct b. Qed.
Lemma blind2_gets {A} (f : Configuration * P → A) :
  (∀ st bf s, f (restack st bf s.1, s.2) = f s) → blind2 (gets f).
Proof. intros Hf st bf s. unfold gets. simpl. rewrite Hf. by destruct s. Qed.
Lemma blind2_bind {A C} (m : M (Configuration * P) A)
  (k : A → M (Configuration * P) C) :
  blind2 m → (∀ a, blind2 (k a)) → blind2 (bind m k).
Proof.
  intros Hm Hk st bf s. unfold bind. rewrite Hm.
  destruct (m s) as [[e|a] [c1 p1]]; simpl; [done|]. apply (Hk a st bf (c1, p1)).
Qed.
Lemma blind2_onC {A} (m : M Configuration A) : blind m → blind2 (P:=P) (onC m).
Proof.
  intros Hm st bf [c p]. unfold onC. simpl. rewrite Hm.
  by destruct (m c) as [r c1].
Qed.
Lemma blind2_onP {A} (m : M P A) : blind2 (onP m).
Proof. intros st bf [c p]. unfold onP. simpl. by destruct (m p) as [r p1]. Qed.
Lemma blind2_forM_ {A} (f : A → M (Configuration * P) unit) l :
  (∀ x, blind2 (f x)) → blind2 (forM_ l f).
Proof.
  intros Hf. induction l as [|x l IH]; simpl; [apply blind2_ret|].
  apply blind2_bind; [apply Hf|]. intros _. apply IH.
Qed.
End blind_passage.

Ltac solve_blind2 :=
  repeat first
    [ apply blind2_ret | apply blind2_raise | apply blind2_lift
    | apply blind2_assert | apply blind2_onP
    | apply blind2_onC;
        first [ apply blind_the | apply blind_update
              | apply blind_topological_sort ]
    | apply blind2_gets; by intros ? ? []
    | apply blind2_bind; [|intros ?]
    | match goal with
      | |- finalizer.blind2 (if ?b then _ else _) => destruct b
      | |- finalizer.blind2 (match ?x with _ => _ end) => destruct x
      end ].

Section blind_finalizer.
Import config finalizer.
Context {P : Type} (B : Builder P).

Lemma blind2_remark self : blind2 (remark B self).
Proof. unfold remark. solve_blind2. Qed.

Lemma blind2_add_layer1_node self parent tag terminals :
  blind2 (add_layer1_node B self parent tag terminals).
Proof. unfold add_layer1_node. solve_blind2; apply blind2_remark. Qed.
End blind_finalizer.

Section blind_passage_body.
Import config finalizer.
Context {P : Type} (B : Builder P).

Lemma blind2_primary depth terminals ns :
  ∀ remotes linkages, blind2 (primary B depth terminals ns remotes linkages).
Proof.
  induction ns as [|r ns IH]; intros remotes linkages; simpl; [apply blind2_ret|].
  apply blind2_bind; [apply blind2_onC, blind_the|]. intros n.
  apply blind2_bind; [apply blind2_assert|]. intros _.
  apply blind2_bind.
  { destruct (node n); [apply blind2_ret|]. solve_blind2. }
  intros ok. apply blind2_bind; [apply blind2_assert|]. intros _.
  destruct (is_linkage B n); [apply IH|].
  apply blind2_bind; [|intros rs; apply IH].
  generalize remotes.
  induction (outgoing n) as [|e es IHe]; intros rem; [apply blind2_ret|].
  destruct (remote e); [apply IHe|].
  apply blind2_bind; [apply blind2_add_layer1_node|]. intros _. apply IHe.
Qed.

Lemma blind2_add_remote ne : blind2 (add_remote B ne).
Proof. unfold add_remote. solve_blind2. Qed.

Lemma blind2_link_edges es :
  ∀ rel args, blind2 (link_edges B es rel args).
Proof.
  induction es as [|e es IH]; intros rel args; simpl; [apply blind2_ret|].
  apply blind2_bind; [apply blind2_onC, blind_the|]. intros c.
  destruct (decide (tag e = Some (LinkRelation B))).
  { apply blind2_bind; [apply blind2_assert|]. intros _. apply IH. }
  destruct (decide (tag e = Some (LinkArgument B))); apply IH.
Qed.

Lemma blind2_add_linkage_node r : blind2 (add_linkage_node B r).
Proof.
  unfold add_linkage_node.
  apply blind2_bind; [apply blind2_onC, blind_the|]. intros n.
  apply blind2_bind; [apply blind2_link_edges|]. intros ra.
  solve_blind2.
Qed.

Lemma blind2_passage_body fuel depth : blind2 (passage_body B fuel depth).
Proof.
  unfold passage_body.
  apply blind2_bind; [apply blind2_gets; by intros ? ? []|]. intros terminals.
  apply blind2_bind; [apply blind2_onP|]. intros _.
  apply blind2_bind; [apply blind2_gets; by intros ? ? []|]. intros rt.
  apply blind2_bind; [apply blind2_onC, blind_the|]. intros rn.
  apply blind2_bind.
  { destruct (node_id rn); [apply blind2_raise|apply blind2_ret]. }
  intros _.
  apply blind2_bind; [apply blind2_onC, blind_topological_sort|]. intros _.
  apply blind2_bind; [apply blind2_gets; by intros ? ? []|]. intros ns.
  apply blind2_bind; [apply blind2_primary|]. intros rl.
  apply blind2_bind; [apply blind2_forM_; intros ne; apply blind2_add_remote|].
  intros _. apply blind2_forM_. intros r. apply blind2_add_linkage_node.
Qed.

(** The result of [passage] and what it does to the Configuration do not
    depend on the stack and the buffer. *)
Lemma passage_restack fuel depth st bf c :
  passage B fuel depth (restack st bf c)
  = ((passage B fuel depth c).1, restack st bf (passage B fuel depth c).2).
Proof.
  unfold passage. simpl.
  destruct (from_text B _ _) as [e|p]; [done|].
  pose proof (blind2_passage_body fuel depth st bf (c, p)) as H. simpl in H.
  rewrite H. by destruct (passage_body B fuel depth (c, p)) as [[e|[]] [c1 p1]].
Qed.

(** C8, amended.  [passage] does not look at whether the terminal state
    was reached.  FINISH returns False and leaves the Configuration as it
    was, so that nothing records that it was applied; and [passage] reads
    neither the stack nor the buffer: with any other stack and buffer in
    their place it gives the same result, a Passage or the same exception,
    and makes the same changes to the Configuration, for any builder of the
    Passage. *)
Theorem C8_passage_does_not_look_at_the_state (fuel depth : nat)
  (tag : option string) (node_id : option (string * nat))
  (st bf : list nat) (c : Configuration) :
  let finish := mkAction "FINISH" tag node_id in
  apply_action depth finish c = (inr false, c)
  ∧ (passage B fuel depth (restack st bf c)).1 = (passage B fuel depth c).1
  ∧ (passage B fuel depth (restack st bf c)).2
    = restack st bf (passage B fuel depth c).2.
Proof.
  split; [done|]. by rewrite passage_restack.
Qed.
End blind_passage_body.

(** ** The last loop of topological_sort *)

Section equality_total.
Import config graph.
Context (h : list Node) (rk : nat → nat) (Hwf : graph_wf h rk).




End equality_total.

Section edge_sorting.
Import config graph.
Context (rk : nat → nat).






End edge_sorting.

Section topological_sort_total.
Import config graph graph_examples.


End topological_sort_total.
